(** * Helm hook execution engine and accessor layer: a shallow embedding

    Sources embedded here:
    - [pkg/release/interfaces.go]: the [HookAccessor] contract and the policy
      and phase constants (module [ri]);
    - the accessor implementations [v1HookAccessor] / [v2HookAccessor]
      (modules [v1release], [v2release], [ri]);
    - package [action]: [execHookCore], [execHookWithDelayedShutdown],
      [execHookWithDelayedShutdownV3], [deleteHookByPolicyGeneric],
      [outputLogsByPolicyGeneric], [deriveNamespaceGeneric] (module [action]);
    - [plans/subchart-sequencing.md]: [buildHierarchicalDAG] and the
      installation batches (module [sequencing]). *)

From Stdlib Require Import String Ascii ZArith List Bool Lia Arith.
From Stdlib Require Import Sorted Permutation OrderedTypeEx.
Import ListNotations.
Local Open Scope string_scope.
Local Open Scope list_scope.

Set Implicit Arguments.

(* ===================================================================== *)
(** ** Go values used throughout *)
(* ===================================================================== *)

(** Go's [error] interface.  A nil error is [None : option error]; a value
    of type [error] is always non-nil.  [wrapError] is what
    [fmt.Errorf("...%w", err)] builds: the formatted text plus the wrapped
    cause. *)
Inductive error : Type :=
| errorString (msg : string)
| wrapError (msg : string) (err : error).

(** [err.Error()] *)
Definition Error (e : error) : string :=
  match e with
  | errorString msg => msg
  | wrapError msg _ => msg
  end.

(** [errors.Unwrap(err)] *)
Definition Unwrap (e : error) : option error :=
  match e with
  | errorString _ => None
  | wrapError _ err => Some err
  end.

(** [fmt.Errorf(prefix + "%w", err)]: every wrapping format string of the
    sources ends in [": %w"], so the text is the formatted prefix followed by
    the cause's own text. *)
Definition Errorf_w (prefix : string) (err : error) : error :=
  wrapError (prefix ++ Error err) err.

(** [sub] occurs in [s] ([strings.Contains]). *)
Fixpoint mentions (sub s : string) : bool :=
  String.prefix sub s
  || match s with
     | EmptyString => false
     | String _ rest => mentions sub rest
     end.

(** [time.Time], as an instant on the clock; the zero value is [0]. *)
Definition Time := Z.

(** [time.Duration] *)
Definition Duration := Z.

(** A non-nil pointer to a hook object: its address. *)
Definition ptr := nat.

(* ===================================================================== *)
(** ** The two release schemas *)
(* ===================================================================== *)

(** Modelled from the spec: the struct declarations of [v1release.Hook],
    [v1release.HookExecution] and [v1release.Release] are not among the
    sources; the fields are the ones the accessors and the hook engine read
    and write (name, kind, path, manifest, events, LastRun, weight, delete
    policies, output-log policies; for the release, its namespace and its
    hooks, held by pointer). *)
Module v1release.

Definition HookEvent := string.
Definition HookDeletePolicy := string.
Definition HookOutputLogPolicy := string.
Definition HookPhase := string.

Definition HookBeforeHookCreation : HookDeletePolicy := "before-hook-creation".
Definition HookPhaseRunning : HookPhase := "Running".

Record HookExecution := {
  StartedAt : Time;
  CompletedAt : Time;
  Phase : HookPhase
}.

Record Hook := {
  Name : string;
  Kind : string;
  Path : string;
  Manifest : string;
  Events : list HookEvent;
  LastRun : HookExecution;
  Weight : Z;
  DeletePolicies : list HookDeletePolicy;
  OutputLogPolicies : list HookOutputLogPolicy
}.

Definition withDeletePolicies (h : Hook) (ps : list HookDeletePolicy) : Hook :=
  {| Name := Name h; Kind := Kind h; Path := Path h; Manifest := Manifest h;
     Events := Events h; LastRun := LastRun h; Weight := Weight h;
     DeletePolicies := ps; OutputLogPolicies := OutputLogPolicies h |}.

Definition withLastRun (h : Hook) (r : HookExecution) : Hook :=
  {| Name := Name h; Kind := Kind h; Path := Path h; Manifest := Manifest h;
     Events := Events h; LastRun := r; Weight := Weight h;
     DeletePolicies := DeletePolicies h;
     OutputLogPolicies := OutputLogPolicies h |}.

Record Release := {
  Namespace : string;
  Hooks : list ptr
}.

End v1release.

(** Modelled from the spec: as for [v1release], the declarations of the
    second schema's [Hook], [HookExecution] and [Release] are not among the
    sources. *)
Module v2release.

Definition HookEvent := string.
Definition HookDeletePolicy := string.
Definition HookOutputLogPolicy := string.
Definition HookPhase := string.

Definition HookBeforeHookCreation : HookDeletePolicy := "before-hook-creation".
Definition HookPhaseRunning : HookPhase := "Running".

Record HookExecution := {
  StartedAt : Time;
  CompletedAt : Time;
  Phase : HookPhase
}.

Record Hook := {
  Name : string;
  Kind : string;
  Path : string;
  Manifest : string;
  Events : list HookEvent;
  LastRun : HookExecution;
  Weight : Z;
  DeletePolicies : list HookDeletePolicy;
  OutputLogPolicies : list HookOutputLogPolicy
}.

Definition withDeletePolicies (h : Hook) (ps : list HookDeletePolicy) : Hook :=
  {| Name := Name h; Kind := Kind h; Path := Path h; Manifest := Manifest h;
     Events := Events h; LastRun := LastRun h; Weight := Weight h;
     DeletePolicies := ps; OutputLogPolicies := OutputLogPolicies h |}.

Definition withLastRun (h : Hook) (r : HookExecution) : Hook :=
  {| Name := Name h; Kind := Kind h; Path := Path h; Manifest := Manifest h;
     Events := Events h; LastRun := r; Weight := Weight h;
     DeletePolicies := DeletePolicies h;
     OutputLogPolicies := OutputLogPolicies h |}.

Record Release := {
  Namespace : string;
  Hooks : list ptr
}.

End v2release.

(** [for _, p := range xs { if string(p) == x { return true } }; return false] *)
Fixpoint containsString (xs : list string) (x : string) : bool :=
  match xs with
  | [] => false
  | p :: rest => if String.eqb p x then true else containsString rest x
  end.

(* ===================================================================== *)
(** ** Package [release]: the accessor layer *)
(* ===================================================================== *)

Module ri.

Definition HookDeletePolicyBeforeCreation := "before-hook-creation".
Definition HookDeletePolicySucceeded := "hook-succeeded".
Definition HookDeletePolicyFailed := "hook-failed".
Definition HookOutputPolicySucceeded := "hook-succeeded".
Definition HookOutputPolicyFailed := "hook-failed".
Definition HookPhaseUnknown := "Unknown".
Definition HookPhaseRunning := "Running".
Definition HookPhaseSucceeded := "Succeeded".
Definition HookPhaseFailed := "Failed".

(** The hook objects the pointers refer to, one store per schema (a Go
    pointer has one static type).  Hooks are reached only through these
    pointers, so two accessors over the same pointer alias one object. *)
Record Heap := {
  v1hooks : ptr -> v1release.Hook;
  v2hooks : ptr -> v2release.Hook
}.

Definition storeV1 (m : Heap) (p : ptr) (h : v1release.Hook) : Heap :=
  {| v1hooks := fun q => if Nat.eqb q p then h else v1hooks m q;
     v2hooks := v2hooks m |}.

Definition storeV2 (m : Heap) (p : ptr) (h : v2release.Hook) : Heap :=
  {| v1hooks := v1hooks m;
     v2hooks := fun q => if Nat.eqb q p then h else v2hooks m q |}.

(** An interface value of type [HookAccessor]: the dynamic type
    ([*v1HookAccessor] or [*v2HookAccessor], the two that
    [newDefaultHookAccessor] builds) and its [hook] field. *)
Inductive HookAccessor : Type :=
| v1HookAccessor (hook : ptr)
| v2HookAccessor (hook : ptr).

Definition Path (a : HookAccessor) (m : Heap) : string :=
  match a with
  | v1HookAccessor p => v1release.Path (v1hooks m p)
  | v2HookAccessor p => v2release.Path (v2hooks m p)
  end.

Definition Manifest (a : HookAccessor) (m : Heap) : string :=
  match a with
  | v1HookAccessor p => v1release.Manifest (v1hooks m p)
  | v2HookAccessor p => v2release.Manifest (v2hooks m p)
  end.

Definition Name (a : HookAccessor) (m : Heap) : string :=
  match a with
  | v1HookAccessor p => v1release.Name (v1hooks m p)
  | v2HookAccessor p => v2release.Name (v2hooks m p)
  end.

Definition Kind (a : HookAccessor) (m : Heap) : string :=
  match a with
  | v1HookAccessor p => v1release.Kind (v1hooks m p)
  | v2HookAccessor p => v2release.Kind (v2hooks m p)
  end.

Definition Weight (a : HookAccessor) (m : Heap) : Z :=
  match a with
  | v1HookAccessor p => v1release.Weight (v1hooks m p)
  | v2HookAccessor p => v2release.Weight (v2hooks m p)
  end.

Definition HasEvent (a : HookAccessor) (event : string) (m : Heap) : bool :=
  match a with
  | v1HookAccessor p => containsString (v1release.Events (v1hooks m p)) event
  | v2HookAccessor p => containsString (v2release.Events (v2hooks m p)) event
  end.

Definition HasDeletePolicy (a : HookAccessor) (policy : string) (m : Heap) : bool :=
  match a with
  | v1HookAccessor p =>
      containsString (v1release.DeletePolicies (v1hooks m p)) policy
  | v2HookAccessor p =>
      containsString (v2release.DeletePolicies (v2hooks m p)) policy
  end.

Definition HasOutputLogPolicy (a : HookAccessor) (policy : string) (m : Heap) : bool :=
  match a with
  | v1HookAccessor p =>
      containsString (v1release.OutputLogPolicies (v1hooks m p)) policy
  | v2HookAccessor p =>
      containsString (v2release.OutputLogPolicies (v2hooks m p)) policy
  end.

(** The fields the theorems below observe, read through an accessor. *)
Definition DeletePolicies (a : HookAccessor) (m : Heap) : list string :=
  match a with
  | v1HookAccessor p => v1release.DeletePolicies (v1hooks m p)
  | v2HookAccessor p => v2release.DeletePolicies (v2hooks m p)
  end.

Definition LastRunPhase (a : HookAccessor) (m : Heap) : string :=
  match a with
  | v1HookAccessor p => v1release.Phase (v1release.LastRun (v1hooks m p))
  | v2HookAccessor p => v2release.Phase (v2release.LastRun (v2hooks m p))
  end.

Definition LastRunStartedAt (a : HookAccessor) (m : Heap) : Time :=
  match a with
  | v1HookAccessor p => v1release.StartedAt (v1release.LastRun (v1hooks m p))
  | v2HookAccessor p => v2release.StartedAt (v2release.LastRun (v2hooks m p))
  end.

Definition LastRunCompletedAt (a : HookAccessor) (m : Heap) : Time :=
  match a with
  | v1HookAccessor p => v1release.CompletedAt (v1release.LastRun (v1hooks m p))
  | v2HookAccessor p => v2release.CompletedAt (v2release.LastRun (v2hooks m p))
  end.

(** [SetDefaultDeletePolicy]: writes through the pointer. *)
Definition SetDefaultDeletePolicy (a : HookAccessor) (m : Heap) : Heap :=
  match a with
  | v1HookAccessor p =>
      let h := v1hooks m p in
      if Nat.eqb (List.length (v1release.DeletePolicies h)) 0
      then storeV1 m p
             (v1release.withDeletePolicies h [v1release.HookBeforeHookCreation])
      else m
  | v2HookAccessor p =>
      let h := v2hooks m p in
      if Nat.eqb (List.length (v2release.DeletePolicies h)) 0
      then storeV2 m p
             (v2release.withDeletePolicies h [v2release.HookBeforeHookCreation])
      else m
  end.

(** [SetLastRunStarted]; [now] is the value [time.Now()] returned. *)
Definition SetLastRunStarted (a : HookAccessor) (now : Time) (m : Heap) : Heap :=
  match a with
  | v1HookAccessor p =>
      storeV1 m p
        (v1release.withLastRun (v1hooks m p)
           {| v1release.StartedAt := now;
              v1release.CompletedAt := 0%Z;
              v1release.Phase := v1release.HookPhaseRunning |})
  | v2HookAccessor p =>
      storeV2 m p
        (v2release.withLastRun (v2hooks m p)
           {| v2release.StartedAt := now;
              v2release.CompletedAt := 0%Z;
              v2release.Phase := v2release.HookPhaseRunning |})
  end.

Definition SetLastRunPhase (a : HookAccessor) (phase : string) (m : Heap) : Heap :=
  match a with
  | v1HookAccessor p =>
      let h := v1hooks m p in
      storeV1 m p
        (v1release.withLastRun h
           {| v1release.StartedAt := v1release.StartedAt (v1release.LastRun h);
              v1release.CompletedAt := v1release.CompletedAt (v1release.LastRun h);
              v1release.Phase := phase |})
  | v2HookAccessor p =>
      let h := v2hooks m p in
      storeV2 m p
        (v2release.withLastRun h
           {| v2release.StartedAt := v2release.StartedAt (v2release.LastRun h);
              v2release.CompletedAt := v2release.CompletedAt (v2release.LastRun h);
              v2release.Phase := phase |})
  end.

(** [SetLastRunCompleted]; [now] is the value [time.Now()] returned. *)
Definition SetLastRunCompleted (a : HookAccessor) (now : Time) (m : Heap) : Heap :=
  match a with
  | v1HookAccessor p =>
      let h := v1hooks m p in
      storeV1 m p
        (v1release.withLastRun h
           {| v1release.StartedAt := v1release.StartedAt (v1release.LastRun h);
              v1release.CompletedAt := now;
              v1release.Phase := v1release.Phase (v1release.LastRun h) |})
  | v2HookAccessor p =>
      let h := v2hooks m p in
      storeV2 m p
        (v2release.withLastRun h
           {| v2release.StartedAt := v2release.StartedAt (v2release.LastRun h);
              v2release.CompletedAt := now;
              v2release.Phase := v2release.Phase (v2release.LastRun h) |})
  end.

End ri.

(* ===================================================================== *)
(** ** Effects: state, the record of external calls, and panics *)
(* ===================================================================== *)

(** The outcome of running a Go function: it returns, or it panics. *)
Inductive Result (A : Type) : Type :=
| Ok (a : A)
| Panic (msg : string).
Arguments Ok {A} a.
Arguments Panic {A} msg.

(** A computation over a state [St] that emits events [Ev]: the result, the
    state it leaves, and the events it emitted, oldest first. *)
Definition M (St Ev A : Type) : Type := St -> Result A * St * list Ev.

Definition ret {St Ev A} (a : A) : M St Ev A := fun s => (Ok a, s, []).

Definition bind {St Ev A B} (m : M St Ev A) (f : A -> M St Ev B) : M St Ev B :=
  fun s =>
    match m s with
    | (Ok a, s1, t1) =>
        match f a s1 with
        | (r, s2, t2) => (r, s2, t1 ++ t2)
        end
    | (Panic msg, s1, t1) => (Panic msg, s1, t1)
    end.

Definition panic {St Ev A} (msg : string) : M St Ev A := fun s => (Panic msg, s, []).

Declare Scope go_scope.
Delimit Scope go_scope with go.
Notation "x <- m ;; k" := (bind m (fun x => k))
  (at level 61, m at next level, right associativity) : go_scope.
Notation "m ;; k" := (bind m (fun _ => k))
  (at level 61, right associativity) : go_scope.

(** [xs[j]], which panics out of range. *)
Definition index {St Ev A} (xs : list A) (j : nat) : M St Ev A :=
  match nth_error xs j with
  | Some x => ret x
  | None => panic "index out of range"
  end.

(** [for i, h := range xs { body }] where the body may [return]: [None]
    falls through to the next iteration, [Some r] returns [r]. *)
Fixpoint forRange {St Ev A R} (i : nat) (xs : list A)
         (body : nat -> A -> M St Ev (option R)) : M St Ev (option R) :=
  match xs with
  | [] => ret None
  | h :: rest =>
      bind (body i h) (fun r =>
        match r with
        | Some x => ret (Some x)
        | None => forRange (S i) rest body
        end)
  end.

(** [for j := lo; j < lo + n; j++ { body }], same convention. *)
Fixpoint forUp {St Ev R} (n : nat) (j : nat)
         (body : nat -> M St Ev (option R)) : M St Ev (option R) :=
  match n with
  | O => ret None
  | S n' =>
      bind (body j) (fun r =>
        match r with
        | Some x => ret (Some x)
        | None => forUp n' (S j) body
        end)
  end.

(** [for i := n - 1; i >= 0; i-- { body }], same convention. *)
Fixpoint forDown {St Ev R} (n : nat)
         (body : nat -> M St Ev (option R)) : M St Ev (option R) :=
  match n with
  | O => ret None
  | S i =>
      bind (body i) (fun r =>
        match r with
        | Some x => ret (Some x)
        | None => forDown i body
        end)
  end.

(** [sort.SliceStable(xs, less)]: the standard library documents it as
    sorting by [less] "while keeping the original order of equal elements";
    its implementation insertion-sorts blocks and merges them stably.  The
    model is the stable insertion sort: an element moves left only past
    elements strictly greater than it. *)
Fixpoint stableInsert {A} (less : A -> A -> bool) (x : A) (l : list A) : list A :=
  match l with
  | [] => [x]
  | y :: ys => if less y x then y :: stableInsert less x ys else x :: y :: ys
  end.

Fixpoint SliceStable {A} (less : A -> A -> bool) (l : list A) : list A :=
  match l with
  | [] => []
  | x :: xs => stableInsert less x (SliceStable less xs)
  end.

(* ===================================================================== *)
(** ** Package [kube] and the other collaborators *)
(* ===================================================================== *)

Module kube.

Definition WaitStrategy := string.

(** [metav1.DeletionPropagation] and its value [DeletePropagationBackground]. *)
Definition DeletionPropagation := string.
Definition DeletePropagationBackground : DeletionPropagation := "Background".

(** [metav1.ListOptions], the two selectors used. *)
Record ListOptions := {
  LabelSelector : string;
  FieldSelector : string
}.

(** [kube.Interface] with its waiter, over a cluster state [W]: every call
    may read and change the cluster.  [ResourceList], [Waiter] and
    [PodList] are the client's own types. *)
Record Interface (W ResourceList Waiter PodList : Type) := {
  Build : string -> bool -> W -> (ResourceList + error) * W;
  Create : ResourceList -> bool * bool -> W -> option error * W;
  Delete : ResourceList -> DeletionPropagation -> W -> list error * W;
  GetWaiter : WaitStrategy -> W -> (Waiter + error) * W;
  WatchUntilReady : Waiter -> ResourceList -> Duration -> W -> option error * W;
  WaitForDelete : Waiter -> ResourceList -> Duration -> W -> option error * W;
  GetPodList : string -> ListOptions -> W -> (PodList + error) * W;
  OutputContainerLogsForPodList : PodList -> string -> W -> option error * W
}.

(** [kube.ClientCreateOptionServerSideApply(serverSideApply, forceConflicts)] *)
Definition ClientCreateOptionServerSideApply (serverSideApply forceConflicts : bool)
  : bool * bool := (serverSideApply, forceConflicts).

End kube.

(** The anonymous struct [deriveNamespaceGeneric] decodes into. *)
Record tmpMetadata := { Namespace : string }.
Record tmpDoc := { Metadata : tmpMetadata }.
Definition tmpZero : tmpDoc := {| Metadata := {| Namespace := "" |} |}.

(** What one call observed: the arguments it was given and what came back. *)
Inductive Event (ResourceList Waiter PodList : Type) : Type :=
| EvBuild (manifest : string) (validate : bool) (r : ResourceList + error)
| EvCreate (resources : ResourceList) (opts : bool * bool) (r : option error)
| EvDelete (resources : ResourceList) (policy : kube.DeletionPropagation)
           (errs : list error)
| EvGetWaiter (ws : kube.WaitStrategy) (r : Waiter + error)
| EvWatchUntilReady (w : Waiter) (resources : ResourceList) (timeout : Duration)
                    (r : option error)
| EvWaitForDelete (w : Waiter) (resources : ResourceList) (timeout : Duration)
                  (r : option error)
| EvGetPodList (namespace : string) (opts : kube.ListOptions) (r : PodList + error)
| EvOutputLogs (pods : PodList) (namespace : string) (r : option error)
| EvRecordRelease
| EvReleasesUpdate (r : option error)
| EvNow (t : Time)
| EvLog (msg : string).
Arguments EvBuild {ResourceList Waiter PodList}.
Arguments EvCreate {ResourceList Waiter PodList}.
Arguments EvDelete {ResourceList Waiter PodList}.
Arguments EvGetWaiter {ResourceList Waiter PodList}.
Arguments EvWatchUntilReady {ResourceList Waiter PodList}.
Arguments EvWaitForDelete {ResourceList Waiter PodList}.
Arguments EvGetPodList {ResourceList Waiter PodList}.
Arguments EvOutputLogs {ResourceList Waiter PodList}.
Arguments EvRecordRelease {ResourceList Waiter PodList}.
Arguments EvReleasesUpdate {ResourceList Waiter PodList}.
Arguments EvNow {ResourceList Waiter PodList}.
Arguments EvLog {ResourceList Waiter PodList}.

(* ===================================================================== *)
(** ** Package [action]: the hook execution engine *)
(* ===================================================================== *)

Module action.

(** What a running engine can touch: the cluster and the hook objects. *)
Record State (W : Type) := {
  world : W;
  heap : ri.Heap
}.

(** The parts of Go's runtime and libraries the engine calls, as
    parameters.  [time_Now] is [time.Now()].  [yaml_Unmarshal data tmp] is
    [yaml.Unmarshal(data, &tmp)]: the decoded [tmp] and the error.
    [joinErrors] is a helper of the package that is not among the sources;
    it builds one (non-nil) error from several. *)
Record Runtime (W : Type) := {
  time_Now : W -> Time * W;
  yaml_Unmarshal : string -> tmpDoc -> tmpDoc * option error;
  joinErrors : list error -> string -> error
}.

(** [Configuration], the fields the engine uses.  [Releases_Update] is
    [cfg.Releases.Update(rl)]; it sees the release and its hooks as they
    are at the call.  [recordRelease] is the method [cfg.recordRelease(rl)],
    which is not among the sources and is taken as a parameter: it returns
    nothing, whatever it does to the cluster with the release it is
    given. *)
Record Configuration (W ResourceList Waiter PodList : Type) := {
  KubeClient : kube.Interface W ResourceList Waiter PodList;
  Releases_Update : v2release.Release -> ri.Heap -> W -> option error * W;
  recordRelease : v1release.Release -> ri.Heap -> W -> W
}.

Section Engine.

Context {W ResourceList Waiter PodList : Type}.
Variable rt : Runtime W.
Variable cfg : Configuration W ResourceList Waiter PodList.

Local Abbreviation Ev := (Event ResourceList Waiter PodList).
Local Abbreviation Go := (M (State W) Ev).
Local Open Scope go_scope.

(** *** Primitive effects *)

(** A call to a collaborator: it runs on the cluster and is recorded. *)
Definition call {A} (f : W -> A * W) (ev : A -> Ev) : Go A :=
  fun s =>
    match f (world s) with
    | (a, w) => (Ok a, {| world := w; heap := heap s |}, [ev a])
    end.

(** Reading a hook through its accessor. *)
Definition read {A} (f : ri.Heap -> A) : Go A :=
  fun s => (Ok (f (heap s)), s, []).

(** Writing a hook through its accessor. *)
Definition mutate (f : ri.Heap -> ri.Heap) : Go unit :=
  fun s => (Ok tt, {| world := world s; heap := f (heap s) |}, []).

(** [log.Printf] *)
Definition log_Printf (msg : string) : Go unit :=
  fun s => (Ok tt, s, [EvLog msg]).

Definition Now : Go Time := call (time_Now rt) EvNow.

Definition Build (manifest : string) (validate : bool) : Go (ResourceList + error) :=
  call (kube.Build (KubeClient cfg) manifest validate) (EvBuild manifest validate).

Definition Create (resources : ResourceList) (opts : bool * bool) : Go (option error) :=
  call (kube.Create (KubeClient cfg) resources opts) (EvCreate resources opts).

Definition Delete (resources : ResourceList) (policy : kube.DeletionPropagation)
  : Go (list error) :=
  call (kube.Delete (KubeClient cfg) resources policy) (EvDelete resources policy).

Definition GetWaiter (ws : kube.WaitStrategy) : Go (Waiter + error) :=
  call (kube.GetWaiter (KubeClient cfg) ws) (EvGetWaiter ws).

Definition WatchUntilReady (w : Waiter) (resources : ResourceList) (timeout : Duration)
  : Go (option error) :=
  call (kube.WatchUntilReady (KubeClient cfg) w resources timeout)
       (EvWatchUntilReady w resources timeout).

Definition WaitForDelete (w : Waiter) (resources : ResourceList) (timeout : Duration)
  : Go (option error) :=
  call (kube.WaitForDelete (KubeClient cfg) w resources timeout)
       (EvWaitForDelete w resources timeout).

Definition GetPodList (namespace : string) (opts : kube.ListOptions)
  : Go (PodList + error) :=
  call (kube.GetPodList (KubeClient cfg) namespace opts) (EvGetPodList namespace opts).

Definition OutputContainerLogsForPodList (pods : PodList) (namespace : string)
  : Go (option error) :=
  call (kube.OutputContainerLogsForPodList (KubeClient cfg) pods namespace)
       (EvOutputLogs pods namespace).

(** The accessor's mutators, with their reads of the clock. *)
Definition SetLastRunStarted (h : ri.HookAccessor) : Go unit :=
  now <- Now ;; mutate (ri.SetLastRunStarted h now).

Definition SetLastRunPhase (h : ri.HookAccessor) (phase : string) : Go unit :=
  mutate (ri.SetLastRunPhase h phase).

Definition SetLastRunCompleted (h : ri.HookAccessor) : Go unit :=
  now <- Now ;; mutate (ri.SetLastRunCompleted h now).

(** *** [ExecuteShutdownFunc] and [shutdownNoOp] *)

Definition ExecuteShutdownFunc := Go (option error).

Definition shutdownNoOp : ExecuteShutdownFunc := ret None.

Record hookExecutionCallbacks := {
  cb_recordRelease : Go unit;
  deleteByPolicy : ri.HookAccessor -> string -> Go (option error);
  outputLogsByPolicy : ri.HookAccessor -> string -> Go (option error)
}.

(** *** [deleteHookByPolicyGeneric] *)
Definition deleteHookByPolicyGeneric (h : ri.HookAccessor) (policy : string)
           (waitStrategy : kube.WaitStrategy) (timeout : Duration)
  : Go (option error) :=
  kind <- read (ri.Kind h) ;;
  if String.eqb kind "CustomResourceDefinition" then ret None else
  has <- read (ri.HasDeletePolicy h policy) ;;
  if has then
    manifest <- read (ri.Manifest h) ;;
    r <- Build manifest false ;;
    match r with
    | inr err =>
        path <- read (ri.Path h) ;;
        ret (Some (Errorf_w
                     ("unable to build kubernetes object for deleting hook "
                        ++ path ++ ": ") err))
    | inl resources =>
        errs <- Delete resources kube.DeletePropagationBackground ;;
        if Nat.ltb 0 (List.length errs)
        then ret (Some (joinErrors rt errs "; "))
        else
          w <- GetWaiter waitStrategy ;;
          match w with
          | inr err => ret (Some err)
          | inl waiter =>
              err <- WaitForDelete waiter resources timeout ;;
              match err with
              | Some err => ret (Some err)
              | None => ret None
              end
          end
    end
  else ret None.

(** *** [deriveNamespaceGeneric] *)
Definition deriveNamespaceGeneric (h : ri.HookAccessor) (namespace : string)
  : Go (string * option error) :=
  manifest <- read (ri.Manifest h) ;;
  match yaml_Unmarshal rt manifest tmpZero with
  | (_, Some err) =>
      path <- read (ri.Path h) ;;
      ret ("", Some (Errorf_w
             ("unable to parse metadata.namespace from kubernetes manifest for output logs hook "
                ++ path ++ ": ") err))
  | (tmp, None) =>
      if String.eqb (Namespace (Metadata tmp)) ""
      then ret (namespace, None)
      else ret (Namespace (Metadata tmp), None)
  end.

(** *** [outputContainerLogsForListOptions] *)
Definition outputContainerLogsForListOptions (namespace : string)
           (listOptions : kube.ListOptions) : Go (option error) :=
  r <- GetPodList namespace listOptions ;;
  match r with
  | inr err => ret (Some err)
  | inl podList => OutputContainerLogsForPodList podList namespace
  end.

(** *** [outputLogsByPolicyGeneric] *)
Definition outputLogsByPolicyGeneric (h : ri.HookAccessor)
           (releaseNamespace : string) (policy : string) : Go (option error) :=
  has <- read (ri.HasOutputLogPolicy h policy) ;;
  if negb has then ret None else
  r <- deriveNamespaceGeneric h releaseNamespace ;;
  match r with
  | (_, Some err) => ret (Some err)
  | (namespace, None) =>
      kind <- read (ri.Kind h) ;;
      if String.eqb kind "Job" then
        name <- read (ri.Name h) ;;
        outputContainerLogsForListOptions namespace
          {| kube.LabelSelector := "job-name=" ++ name;
             kube.FieldSelector := "" |}
      else if String.eqb kind "Pod" then
        name <- read (ri.Name h) ;;
        outputContainerLogsForListOptions namespace
          {| kube.LabelSelector := "";
             kube.FieldSelector := "metadata.name=" ++ name |}
      else ret None
  end.

(** *** [execHookCore] *)

(** The comparison handed to [sort.SliceStable] (lines 68-73), on the
    elements at the two indices; it reads the hooks as they are when
    the sort runs. *)
Definition hookLess (m : ri.Heap) (a b : ri.HookAccessor) : bool :=
  if Z.eqb (ri.Weight a m) (ri.Weight b m)
  then String.ltb (ri.Name a m) (ri.Name b m)
  else Z.ltb (ri.Weight a m) (ri.Weight b m).

(** The closure returned when a hook's wait fails (lines 122-133); it
    captures [callbacks], [h], [i], the sorted [executingHooks] and the
    wait error [err]. *)
Definition failureShutdown (callbacks : hookExecutionCallbacks)
           (executingHooks : list ri.HookAccessor) (i : nat)
           (h : ri.HookAccessor) (err : error) : ExecuteShutdownFunc :=
  errDeleting <- deleteByPolicy callbacks h ri.HookDeletePolicyFailed ;;
  match errDeleting with
  | Some e =>
      log_Printf ("error deleting the hook resource on hook failure: " ++ Error e)
  | None => ret tt
  end ;;
  r <- forUp i 0 (fun j =>
         hj <- index executingHooks j ;;
         err <- deleteByPolicy callbacks hj ri.HookDeletePolicySucceeded ;;
         match err with
         | Some err => ret (Some (Some err))
         | None => ret None
         end) ;;
  match r with
  | Some x => ret x
  | None => ret (Some err)
  end.

(** The closure returned when every hook succeeded (lines 138-150). *)
Definition successShutdown (callbacks : hookExecutionCallbacks)
           (executingHooks : list ri.HookAccessor) : ExecuteShutdownFunc :=
  r <- forDown (List.length executingHooks) (fun i =>
         h <- index executingHooks i ;;
         err <- outputLogsByPolicy callbacks h ri.HookOutputPolicySucceeded ;;
         match err with
         | Some e => log_Printf ("error outputting logs for hook success: " ++ Error e)
         | None => ret tt
         end ;;
         err <- deleteByPolicy callbacks h ri.HookDeletePolicySucceeded ;;
         match err with
         | Some err => ret (Some (Some err))
         | None => ret None
         end) ;;
  match r with
  | Some x => ret x
  | None => ret None
  end.

(** The body of the loop over the sorted hooks (lines 75-136): [Some]
    is a [return] out of [execHookCore], [None] goes on to the next
    hook. *)
Definition execHookIteration (executingHooks : list ri.HookAccessor)
           (hookEvent : string) (waitStrategy : kube.WaitStrategy)
           (timeout : Duration) (serverSideApply : bool)
           (callbacks : hookExecutionCallbacks)
           (i : nat) (h : ri.HookAccessor)
  : Go (option (ExecuteShutdownFunc * option error)) :=
  mutate (ri.SetDefaultDeletePolicy h) ;;
  err <- deleteByPolicy callbacks h ri.HookDeletePolicyBeforeCreation ;;
  match err with
  | Some err => ret (Some (shutdownNoOp, Some err))
  | None =>
  manifest <- read (ri.Manifest h) ;;
  r <- Build manifest true ;;
  match r with
  | inr err =>
      path <- read (ri.Path h) ;;
      ret (Some (shutdownNoOp,
                 Some (Errorf_w ("unable to build kubernetes object for "
                                   ++ hookEvent ++ " hook " ++ path ++ ": ") err)))
  | inl resources =>
  SetLastRunStarted h ;;
  cb_recordRelease callbacks ;;
  SetLastRunPhase h ri.HookPhaseUnknown ;;
  cerr <- Create resources
            (kube.ClientCreateOptionServerSideApply serverSideApply false) ;;
  match cerr with
  | Some err =>
      SetLastRunCompleted h ;;
      SetLastRunPhase h ri.HookPhaseFailed ;;
      path <- read (ri.Path h) ;;
      ret (Some (shutdownNoOp,
                 Some (Errorf_w ("warning: Hook " ++ hookEvent ++ " " ++ path
                                   ++ " failed: ") err)))
  | None =>
  w <- GetWaiter waitStrategy ;;
  match w with
  | inr err =>
      ret (Some (shutdownNoOp, Some (Errorf_w "unable to get waiter: " err)))
  | inl waiter =>
  werr <- WatchUntilReady waiter resources timeout ;;
  SetLastRunCompleted h ;;
  match werr with
  | Some err =>
      SetLastRunPhase h ri.HookPhaseFailed ;;
      errOutputting <- outputLogsByPolicy callbacks h ri.HookOutputPolicyFailed ;;
      match errOutputting with
      | Some e =>
          log_Printf ("error outputting logs for hook failure: " ++ Error e)
      | None => ret tt
      end ;;
      ret (Some (failureShutdown callbacks executingHooks i h err, Some err))
  | None =>
      SetLastRunPhase h ri.HookPhaseSucceeded ;;
      ret None
  end end end end end.

Definition execHookCore (executingHooks : list ri.HookAccessor)
           (hookEvent : string) (_ : string)
           (waitStrategy : kube.WaitStrategy) (timeout : Duration)
           (serverSideApply : bool) (callbacks : hookExecutionCallbacks)
  : Go (ExecuteShutdownFunc * option error) :=
  m <- read (fun m => m) ;;
  let executingHooks := SliceStable (hookLess m) executingHooks in
  r <- forRange 0 executingHooks
         (execHookIteration executingHooks hookEvent waitStrategy timeout
                            serverSideApply callbacks) ;;
  match r with
  | Some x => ret x
  | None => ret (successShutdown callbacks executingHooks, None)
  end.

(** *** [execHookWithDelayedShutdown] and its V3 twin *)

(** [cfg.recordRelease(rl)] *)
Definition cfg_recordRelease (rl : v1release.Release) : Go unit :=
  fun s =>
    (Ok tt,
     {| world := recordRelease cfg rl (heap s) (world s); heap := heap s |},
     [EvRecordRelease]).

(** [cfg.Releases.Update(rl)] *)
Definition cfg_Releases_Update (rl : v2release.Release) : Go (option error) :=
  fun s =>
    match Releases_Update cfg rl (heap s) (world s) with
    | (r, w) => (Ok r, {| world := w; heap := heap s |}, [EvReleasesUpdate r])
    end.

(** Lines 156-165: one accessor is appended for every entry of a hook's
    [Events] that equals [hook]. [NewHookAccessor] receives a
    [*release.Hook] and so returns the [v1HookAccessor] over it. *)
Definition executingHooksV1 (rl : v1release.Release) (hook : v1release.HookEvent)
           (m : ri.Heap) : list ri.HookAccessor :=
  fold_left
    (fun executingHooks h =>
       fold_left
         (fun executingHooks e =>
            if String.eqb e hook
            then executingHooks ++ [ri.v1HookAccessor h]
            else executingHooks)
         (v1release.Events (ri.v1hooks m h)) executingHooks)
    (v1release.Hooks rl) [].

(** Lines 295-304, the same loop over a [*v2release.Release]. *)
Definition executingHooksV3 (rl : v2release.Release) (hook : v2release.HookEvent)
           (m : ri.Heap) : list ri.HookAccessor :=
  fold_left
    (fun executingHooks h =>
       fold_left
         (fun executingHooks e =>
            if String.eqb e hook
            then executingHooks ++ [ri.v2HookAccessor h]
            else executingHooks)
         (v2release.Events (ri.v2hooks m h)) executingHooks)
    (v2release.Hooks rl) [].

Definition execHookWithDelayedShutdown (rl : v1release.Release)
           (hook : v1release.HookEvent) (waitStrategy : kube.WaitStrategy)
           (timeout : Duration) (serverSideApply : bool)
  : Go (ExecuteShutdownFunc * option error) :=
  executingHooks <- read (executingHooksV1 rl hook) ;;
  let callbacks :=
    {| cb_recordRelease := cfg_recordRelease rl;
       deleteByPolicy := fun h policy =>
         deleteHookByPolicyGeneric h policy waitStrategy timeout;
       outputLogsByPolicy := fun h policy =>
         outputLogsByPolicyGeneric h (v1release.Namespace rl) policy |} in
  execHookCore executingHooks hook (v1release.Namespace rl) waitStrategy timeout
               serverSideApply callbacks.

Definition execHookWithDelayedShutdownV3 (rl : v2release.Release)
           (hook : v2release.HookEvent) (waitStrategy : kube.WaitStrategy)
           (timeout : Duration) (serverSideApply : bool)
  : Go (ExecuteShutdownFunc * option error) :=
  executingHooks <- read (executingHooksV3 rl hook) ;;
  let callbacks :=
    {| cb_recordRelease := (_ <- cfg_Releases_Update rl ;; ret tt);
       deleteByPolicy := fun h policy =>
         deleteHookByPolicyGeneric h policy waitStrategy timeout;
       outputLogsByPolicy := fun h policy =>
         outputLogsByPolicyGeneric h (v2release.Namespace rl) policy |} in
  execHookCore executingHooks hook (v2release.Namespace rl) waitStrategy timeout
               serverSideApply callbacks.

(** The callbacks the two entry points hand to [execHookCore] (the
    struct literals of lines 167-175 and 306-314), by release schema. *)
Definition engineCallbacks (rl : v1release.Release + v2release.Release)
           (waitStrategy : kube.WaitStrategy) (timeout : Duration)
  : hookExecutionCallbacks :=
  match rl with
  | inl rl =>
      {| cb_recordRelease := cfg_recordRelease rl;
         deleteByPolicy := fun h policy =>
           deleteHookByPolicyGeneric h policy waitStrategy timeout;
         outputLogsByPolicy := fun h policy =>
           outputLogsByPolicyGeneric h (v1release.Namespace rl) policy |}
  | inr rl =>
      {| cb_recordRelease := (_ <- cfg_Releases_Update rl ;; ret tt);
         deleteByPolicy := fun h policy =>
           deleteHookByPolicyGeneric h policy waitStrategy timeout;
         outputLogsByPolicy := fun h policy =>
           outputLogsByPolicyGeneric h (v2release.Namespace rl) policy |}
  end.

(** *** The deferred cleanups, in the words of the specification

    These two follow the specification's description of what the
    returned cleanup does; the theorems compare them with the closures
    [failureShutdown] and [successShutdown] above. *)

(** Delete each hook of [hs], first to last, by [policy]; the first
    deletion error ends the walk and is the result. *)
Fixpoint deleteEachByPolicy (callbacks : hookExecutionCallbacks)
         (policy : string) (hs : list ri.HookAccessor) : Go (option error) :=
  match hs with
  | [] => ret None
  | h :: rest =>
      err <- deleteByPolicy callbacks h policy ;;
      match err with
      | Some err => ret (Some err)
      | None => deleteEachByPolicy callbacks policy rest
      end
  end.

(** Delete the failed hook by "hook-failed" (an error is logged, not
    returned), then every previously successful hook in forward order by
    "hook-succeeded"; the first deletion error there, else the wait
    error. *)
Definition failureCleanupSpec (callbacks : hookExecutionCallbacks)
           (failed : ri.HookAccessor) (succeeded : list ri.HookAccessor)
           (waitErr : error) : Go (option error) :=
  errDeleting <- deleteByPolicy callbacks failed ri.HookDeletePolicyFailed ;;
  match errDeleting with
  | Some e =>
      log_Printf ("error deleting the hook resource on hook failure: " ++ Error e)
  | None => ret tt
  end ;;
  r <- deleteEachByPolicy callbacks ri.HookDeletePolicySucceeded succeeded ;;
  match r with
  | Some err => ret (Some err)
  | None => ret (Some waitErr)
  end.

(** For each hook of [hs], first to last: emit its "hook-succeeded" logs
    (an error is logged, not returned), then delete it by
    "hook-succeeded"; a deletion error ends the walk and is the result. *)
Fixpoint logAndDeleteEach (callbacks : hookExecutionCallbacks)
         (hs : list ri.HookAccessor) : Go (option error) :=
  match hs with
  | [] => ret None
  | h :: rest =>
      err <- outputLogsByPolicy callbacks h ri.HookOutputPolicySucceeded ;;
      match err with
      | Some e => log_Printf ("error outputting logs for hook success: " ++ Error e)
      | None => ret tt
      end ;;
      err <- deleteByPolicy callbacks h ri.HookDeletePolicySucceeded ;;
      match err with
      | Some err => ret (Some err)
      | None => logAndDeleteEach callbacks rest
      end
  end.

(** The executed hooks are walked in reverse order. *)
Definition successCleanupSpec (callbacks : hookExecutionCallbacks)
           (executed : list ri.HookAccessor) : Go (option error) :=
  logAndDeleteEach callbacks (rev executed).

(** *** [execHook] and [execHookV3] *)

(** Lines 38-47 (and 279-288): what [execHook] does with the pair it got
    back.  [None] is a nil [shutdown]. *)
Definition runShutdown (shutdown : option ExecuteShutdownFunc) (err : option error)
  : Go (option error) :=
  match shutdown with
  | None => ret err
  | Some shutdown =>
      match err with
      | Some err =>
          err' <- shutdown ;;
          match err' with
          | Some err' => ret (Some err')
          | None => ret (Some err)
          end
      | None => shutdown
      end
  end.

(** [execHook]: the function value that [execHookWithDelayedShutdown]
    returns is never nil (every [return] of [execHookCore] gives
    [shutdownNoOp] or a function literal), so [runShutdown] receives
    [Some]. *)
Definition execHook (rl : v1release.Release) (hook : v1release.HookEvent)
           (waitStrategy : kube.WaitStrategy) (timeout : Duration)
           (serverSideApply : bool) : Go (option error) :=
  r <- execHookWithDelayedShutdown rl hook waitStrategy timeout serverSideApply ;;
  runShutdown (Some (fst r)) (snd r).

Definition execHookV3 (rl : v2release.Release) (hook : v2release.HookEvent)
           (waitStrategy : kube.WaitStrategy) (timeout : Duration)
           (serverSideApply : bool) : Go (option error) :=
  r <- execHookWithDelayedShutdownV3 rl hook waitStrategy timeout serverSideApply ;;
  runShutdown (Some (fst r)) (snd r).

End Engine.

(** *** What a record of calls says about a run *)

Section Observations.

Context {ResourceList Waiter PodList : Type}.
Local Abbreviation Ev := (Event ResourceList Waiter PodList).

Definition errorOf {A} (r : A + error) : option error :=
  match r with
  | inl _ => None
  | inr e => Some e
  end.

(** The manifests handed to [Build] for creation (validation on), in
    call order, each with the error it met. *)
Definition buildResults (tr : list Ev) : list (string * option error) :=
  flat_map (fun ev => match ev with
                      | EvBuild manifest true r => [(manifest, errorOf r)]
                      | _ => []
                      end) tr.

(** The outcomes of the [Create] calls, in call order. *)
Definition createResults (tr : list Ev) : list (option error) :=
  flat_map (fun ev => match ev with
                      | EvCreate _ _ r => [r]
                      | _ => []
                      end) tr.

(** The outcomes of the readiness waits, in call order. *)
Definition waitResults (tr : list Ev) : list (option error) :=
  flat_map (fun ev => match ev with
                      | EvWatchUntilReady _ _ _ r => [r]
                      | _ => []
                      end) tr.

(** A call that reported a failure. *)
Definition failedEvent (ev : Ev) : bool :=
  match ev with
  | EvBuild _ _ (inr _) => true
  | EvCreate _ _ (Some _) => true
  | EvDelete _ _ (_ :: _) => true
  | EvGetWaiter _ (inr _) => true
  | EvWatchUntilReady _ _ _ (Some _) => true
  | EvWaitForDelete _ _ _ (Some _) => true
  | EvGetPodList _ _ (inr _) => true
  | EvOutputLogs _ _ (Some _) => true
  | EvReleasesUpdate (Some _) => true
  | _ => false
  end.

End Observations.

(** *** [hookByWeight], the sorter over [[]*release.Hook]: its [Less] *)

(** An element of the slice is a pointer, which may be nil ([None]). *)
Definition hookByWeight := list (option ptr).

(** [x[i].f]: the index is checked, then the pointer is dereferenced. *)
Definition hookByWeight_at (x : hookByWeight) (i : nat) : Result ptr :=
  match nth_error x i with
  | None => Panic "index out of range"
  | Some None => Panic "invalid memory address or nil pointer dereference"
  | Some (Some p) => Ok p
  end.

(** [x.Less(i, j)] (lines 185-190), reading the hooks in [m]: [x[i].Weight]
    is evaluated, then [x[j].Weight]. *)
Definition hookByWeight_Less (x : hookByWeight) (i j : nat) (m : ri.Heap) : Result bool :=
  match hookByWeight_at x i with
  | Panic msg => Panic msg
  | Ok xi =>
      match hookByWeight_at x j with
      | Panic msg => Panic msg
      | Ok xj =>
          Ok (if Z.eqb (v1release.Weight (ri.v1hooks m xi))
                       (v1release.Weight (ri.v1hooks m xj))
              then String.ltb (v1release.Name (ri.v1hooks m xi))
                              (v1release.Name (ri.v1hooks m xj))
              else Z.ltb (v1release.Weight (ri.v1hooks m xi))
                         (v1release.Weight (ri.v1hooks m xj)))
      end
  end.

End action.

(* ===================================================================== *)
(** ** The dependency-ordered batch scheduler *)
(* ===================================================================== *)

Module sequencing.

(** A direct sub-unit of the chart and the names it depends on
    ([Dependency.Name] and [Dependency.DependsOn] of the plan's enhanced
    struct, the latter as [getDependsOnList] returns it). *)
Record Subchart := {
  Name : string;
  DependsOn : list string
}.

(** [findSubchartByName(chart, depName) != nil] *)
Definition findSubchartByName (subcharts : list Subchart) (depName : string) : bool :=
  existsb (fun c => String.eqb (Name c) depName) subcharts.

(** [SubchartDAG]: the nodes in the order added, and the edges
    [(dep, sub)], "dep must install before sub". *)
Record SubchartDAG := {
  nodes : list string;
  edges : list (string * string)
}.

(** [buildHierarchicalDAG]: a node per direct subchart, then an edge for
    every depends-on name that is itself a direct subchart. *)
Definition buildHierarchicalDAG (subcharts : list Subchart) : SubchartDAG :=
  {| nodes := map Name subcharts;
     edges :=
       flat_map
         (fun sub =>
            flat_map
              (fun depName =>
                 if findSubchartByName subcharts depName
                 then [(depName, Name sub)]
                 else [])
              (DependsOn sub))
         subcharts |}.

Definition predecessors (dag : SubchartDAG) (n : string) : list string :=
  map fst (filter (fun e => String.eqb (snd e) n) (edges dag)).

Definition successors (dag : SubchartDAG) (n : string) : list string :=
  map snd (filter (fun e => String.eqb (fst e) n) (edges dag)).

(** No incoming and no outgoing edge. *)
Definition isolated (dag : SubchartDAG) (n : string) : bool :=
  match predecessors dag n, successors dag n with
  | [], [] => true
  | _, _ => false
  end.

(** One member of a tier: a subchart, or the owning chart's own
    resources. *)
Inductive Item : Type :=
| Sub (name : string)
| Own (owner : string).

Inductive SchedError : Type :=
| CycleDetected (participants : list string).

(** Modelled from the spec: the body of [GetInstallationBatches] is not
    among the sources (the plan leaves it as three comment lines).  The
    specification's iterative peeling: repeatedly extract the nodes whose
    predecessors have all been placed in an earlier tier; when nodes
    remain and none can be extracted the graph has a cycle, which is
    fatal and names the nodes.  [fuel] bounds the number of rounds; the
    result is [None] only when it runs out. *)
Fixpoint peel (dag : SubchartDAG) (fuel : nat) (placed remaining : list string)
  : option (SchedError + list (list string)) :=
  match remaining with
  | [] => Some (inr [])
  | _ :: _ =>
      match fuel with
      | O => None
      | S fuel' =>
          let ready n := forallb (fun p => containsString placed p) (predecessors dag n) in
          match filter ready remaining with
          | [] => Some (inl (CycleDetected remaining))
          | tier =>
              match peel dag fuel' (placed ++ tier)
                         (filter (fun n => negb (ready n)) remaining) with
              | Some (inr tiers) => Some (inr (tier :: tiers))
              | other => other
              end
          end
      end
  end.

(** Modelled from the spec: [GetInstallationBatches] with the isolated
    nodes excluded from the peeling and appended to a trailing tier
    alongside the owning chart's own resources. *)
Definition GetInstallationBatches (dag : SubchartDAG) (owner : string)
  : option (SchedError + list (list Item)) :=
  let connected := filter (fun n => negb (isolated dag n)) (nodes dag) in
  let alone := filter (isolated dag) (nodes dag) in
  match peel dag (List.length connected) [] connected with
  | Some (inr tiers) =>
      Some (inr (map (map Sub) tiers ++ [map Sub alone ++ [Own owner]]))
  | Some (inl e) => Some (inl e)
  | None => None
  end.

End sequencing.

(* ===================================================================== *)
(** ** A scripted cluster, for concrete runs *)
(* ===================================================================== *)

Module fake.

(** The cluster state is the clock; a resource list is the manifest it
    was built from.  The script: the manifest "not yaml" does not parse,
    "rejected" is refused on creation, "never ready" fails its readiness
    wait, and "stuck" cannot be deleted. *)
Definition client : kube.Interface nat string unit unit :=
  {| kube.Build := fun manifest _ w =>
       (if String.eqb manifest "not yaml"
        then inr (errorString "yaml: did not find expected key")
        else inl manifest, w);
     kube.Create := fun resources _ w =>
       (if String.eqb resources "rejected"
        then Some (errorString "admission denied")
        else None, w);
     kube.Delete := fun resources _ w =>
       (if String.eqb resources "stuck"
        then [errorString "delete refused"]
        else [], w);
     kube.GetWaiter := fun _ w => (inl tt, w);
     kube.WatchUntilReady := fun _ resources _ w =>
       (if String.eqb resources "never ready"
        then Some (errorString "timed out waiting for the condition")
        else None, w);
     kube.WaitForDelete := fun _ _ _ w => (None, w);
     kube.GetPodList := fun _ _ w => (inl tt, w);
     kube.OutputContainerLogsForPodList := fun _ _ w => (None, w) |}.

Definition cfg : action.Configuration nat string unit unit :=
  {| action.KubeClient := client;
     action.Releases_Update := fun _ _ w => (None, w);
     action.recordRelease := fun _ _ w => w |}.

(** The clock ticks at every reading.  The decoder knows three
    documents. *)
Definition rt : action.Runtime nat :=
  {| action.time_Now := fun w => (Z.of_nat w, S w);
     action.yaml_Unmarshal := fun data tmp =>
       if String.eqb data "metadata: {namespace: foo}"
       then ({| Metadata := {| Namespace := "foo" |} |}, None)
       else if String.eqb data "not yaml"
       then (tmp, Some (errorString "yaml: did not find expected key"))
       else (tmp, None);
     action.joinErrors := fun errs sep =>
       errorString (String.concat sep (map Error errs)) |}.

Definition hookV1 (name kind : string) (weight : Z) (manifest : string)
           (events policies : list string) : v1release.Hook :=
  {| v1release.Name := name;
     v1release.Kind := kind;
     v1release.Path := "templates/" ++ name ++ ".yaml";
     v1release.Manifest := manifest;
     v1release.Events := events;
     v1release.LastRun :=
       {| v1release.StartedAt := 0%Z; v1release.CompletedAt := 0%Z;
          v1release.Phase := "" |};
     v1release.Weight := weight;
     v1release.DeletePolicies := policies;
     v1release.OutputLogPolicies := [] |}.

Definition hookV2 (name kind : string) (weight : Z) (manifest : string)
           (events policies : list string) : v2release.Hook :=
  {| v2release.Name := name;
     v2release.Kind := kind;
     v2release.Path := "templates/" ++ name ++ ".yaml";
     v2release.Manifest := manifest;
     v2release.Events := events;
     v2release.LastRun :=
       {| v2release.StartedAt := 0%Z; v2release.CompletedAt := 0%Z;
          v2release.Phase := "" |};
     v2release.Weight := weight;
     v2release.DeletePolicies := policies;
     v2release.OutputLogPolicies := [] |}.

(** A store holding the listed hooks at addresses 0, 1, 2, ... *)
Definition heapOf (v1 : list v1release.Hook) (v2 : list v2release.Hook) : ri.Heap :=
  {| ri.v1hooks := fun p => nth p v1 (hookV1 "" "" 0 "" [] []);
     ri.v2hooks := fun p => nth p v2 (hookV2 "" "" 0 "" [] []) |}.

Definition start (v1 : list v1release.Hook) (v2 : list v2release.Hook)
  : action.State nat :=
  {| action.world := O; action.heap := heapOf v1 v2 |}.

(** Three pre-install hooks: A (weight 1, name "b"), B (weight 1, name
    "a") and C (weight 2). *)
Definition hookA := hookV1 "b" "Job" 1 "job b" ["pre-install"] ["hook-succeeded"; "hook-failed"].
Definition hookB := hookV1 "a" "Job" 1 "job a" ["pre-install"] ["hook-succeeded"; "hook-failed"].
Definition hookC := hookV1 "c" "Job" 2 "job c" ["pre-install"] ["hook-succeeded"; "hook-failed"].

Definition release : v1release.Release :=
  {| v1release.Namespace := "default"; v1release.Hooks := [0; 1; 2]%nat |}.

Definition releaseV2 : v2release.Release :=
  {| v2release.Namespace := "default"; v2release.Hooks := [0]%nat |}.

(** A second hook "b" of weight 1 for each way a hook can fail. *)
Definition hookNeverReady :=
  hookV1 "b" "Job" 1 "never ready" ["pre-install"] ["hook-succeeded"; "hook-failed"].
Definition hookRejected :=
  hookV1 "b" "Job" 1 "rejected" ["pre-install"] ["hook-succeeded"; "hook-failed"].
Definition hookNotYaml :=
  hookV1 "b" "Job" 1 "not yaml" ["pre-install"] ["hook-succeeded"; "hook-failed"].

(** A hook whose event list names "pre-install" twice. *)
Definition hookTwice := hookV1 "a" "Job" 0 "job a" ["pre-install"; "pre-install"] [].
Definition hookTwiceV2 := hookV2 "a" "Job" 0 "job a" ["pre-install"; "pre-install"] [].

(** [h] with the given output-log policies. *)
Definition withOutputLogPolicies (h : v1release.Hook) (ps : list string) : v1release.Hook :=
  {| v1release.Name := v1release.Name h; v1release.Kind := v1release.Kind h;
     v1release.Path := v1release.Path h; v1release.Manifest := v1release.Manifest h;
     v1release.Events := v1release.Events h; v1release.LastRun := v1release.LastRun h;
     v1release.Weight := v1release.Weight h;
     v1release.DeletePolicies := v1release.DeletePolicies h;
     v1release.OutputLogPolicies := ps |}.

(** A Job whose logs are output on success and whose manifest declares the
    namespace "foo"; a ConfigMap and a Job with an undecodable manifest
    under the same policy. *)
Definition hookLoggedJob :=
  withOutputLogPolicies
    (hookV1 "migrate" "Job" 0 "metadata: {namespace: foo}" ["pre-install"] ["hook-succeeded"])
    ["hook-succeeded"].
Definition hookLoggedConfigMap :=
  withOutputLogPolicies
    (hookV1 "settings" "ConfigMap" 0 "settings" ["pre-install"] []) ["hook-succeeded"].
Definition hookLoggedBroken :=
  withOutputLogPolicies
    (hookV1 "broken" "Job" 0 "not yaml" ["pre-install"] []) ["hook-succeeded"].

(** The three hooks, their logs to be output on success. *)
Definition hookALogged := withOutputLogPolicies hookA ["hook-succeeded"].
Definition hookBLogged := withOutputLogPolicies hookB ["hook-succeeded"].
Definition hookCLogged := withOutputLogPolicies hookC ["hook-succeeded"].

(** A hook "b" of weight 1 with a manifest that does not parse and no
    delete policy of its own. *)
Definition hookNotYamlDefault := hookV1 "b" "Job" 1 "not yaml" ["pre-install"] [].

(** A cluster whose schema service is gone once the clock has been read:
    every build after that fails. *)
Definition clientFlaky : kube.Interface nat string unit unit :=
  {| kube.Build := fun manifest _ w =>
       (if Nat.ltb 0 w then inr (errorString "schema unavailable") else inl manifest, w);
     kube.Create := kube.Create client;
     kube.Delete := kube.Delete client;
     kube.GetWaiter := kube.GetWaiter client;
     kube.WatchUntilReady := kube.WatchUntilReady client;
     kube.WaitForDelete := kube.WaitForDelete client;
     kube.GetPodList := kube.GetPodList client;
     kube.OutputContainerLogsForPodList := kube.OutputContainerLogsForPodList client |}.

Definition cfgFlaky : action.Configuration nat string unit unit :=
  {| action.KubeClient := clientFlaky;
     action.Releases_Update := fun _ _ w => (None, w);
     action.recordRelease := fun _ _ w => w |}.


Definition releaseOne : v1release.Release :=
  {| v1release.Namespace := "default"; v1release.Hooks := [0]%nat |}.

(** The accessors over the hooks at addresses 0, 1 and 2. *)
Definition three : list ri.HookAccessor :=
  [ri.v1HookAccessor 0; ri.v1HookAccessor 1; ri.v1HookAccessor 2].

End fake.

(* ===================================================================== *)
(** ** The accessor layer: defaulting the delete policy *)
(* ===================================================================== *)

Lemma string_append_assoc (a b c : string) : ((a ++ b) ++ c = a ++ (b ++ c))%string.
Proof. induction a as [| ch a IH]; simpl; [reflexivity | now rewrite IH]. Qed.

Section AccessorFacts.

Lemma storeV1_same m p h : ri.v1hooks (ri.storeV1 m p h) p = h.
Proof. simpl. now rewrite Nat.eqb_refl. Qed.

Lemma storeV2_same m p h : ri.v2hooks (ri.storeV2 m p h) p = h.
Proof. simpl. now rewrite Nat.eqb_refl. Qed.

(** C8. For every hook, through either accessor: an empty delete-policy
    set becomes exactly [before-hook-creation]; a non-empty one leaves the
    hook store as it was; defaulting twice is defaulting once. *)
Theorem SetDefaultDeletePolicy_defaults_once :
  forall (a : ri.HookAccessor) (m : ri.Heap),
    (ri.DeletePolicies a m = [] ->
     ri.DeletePolicies a (ri.SetDefaultDeletePolicy a m) = ["before-hook-creation"])
    /\ (ri.DeletePolicies a m <> [] -> ri.SetDefaultDeletePolicy a m = m)
    /\ ri.SetDefaultDeletePolicy a (ri.SetDefaultDeletePolicy a m)
       = ri.SetDefaultDeletePolicy a m.
Proof.
  intros [p | p] m; unfold ri.DeletePolicies, ri.SetDefaultDeletePolicy;
    cbv zeta; (repeat split).
  - intros E. rewrite E. cbn [List.length Nat.eqb].
    now rewrite storeV1_same.
  - intros NE. destruct (v1release.DeletePolicies (ri.v1hooks m p)); [now elim NE | reflexivity].
  - destruct (v1release.DeletePolicies (ri.v1hooks m p)) eqn:E; cbn [List.length Nat.eqb].
    + now rewrite storeV1_same.
    + now rewrite E.
  - intros E. rewrite E. cbn [List.length Nat.eqb].
    now rewrite storeV2_same.
  - intros NE. destruct (v2release.DeletePolicies (ri.v2hooks m p)); [now elim NE | reflexivity].
  - destruct (v2release.DeletePolicies (ri.v2hooks m p)) eqn:E; cbn [List.length Nat.eqb].
    + now rewrite storeV2_same.
    + now rewrite E.
Qed.

Lemma SetDefaultDeletePolicy_defaults_once_witness :
  let a := ri.v2HookAccessor 0 in
  let m := fake.heapOf [] [fake.hookV2 "a" "Job" 0 "job a" ["pre-install"] []] in
  let m' := fake.heapOf [fake.hookB] [] in
  ri.DeletePolicies a m = []
  /\ ri.DeletePolicies a (ri.SetDefaultDeletePolicy a m) = ["before-hook-creation"]
  /\ ri.DeletePolicies (ri.v1HookAccessor 0) m' <> []
  /\ ri.SetDefaultDeletePolicy (ri.v1HookAccessor 0) m' = m'.
Proof.
  intros a m m'.
  assert (E : ri.DeletePolicies a m = []) by reflexivity.
  assert (NE : ri.DeletePolicies (ri.v1HookAccessor 0) m' <> []) by discriminate.
  split; [exact E | split; [| split; [exact NE |]]].
  - exact (proj1 (SetDefaultDeletePolicy_defaults_once a m) E).
  - exact (proj1 (proj2 (SetDefaultDeletePolicy_defaults_once (ri.v1HookAccessor 0) m')) NE).
Defined.

End AccessorFacts.

(* ===================================================================== *)
(** ** Deleting by policy, and deriving the namespace *)
(* ===================================================================== *)

Section HelperFacts.

Context {W ResourceList Waiter PodList : Type}.
Variable rt : action.Runtime W.
Variable cfg : action.Configuration W ResourceList Waiter PodList.

(** C4. A hook of kind "CustomResourceDefinition" is never deleted,
    whatever the policy asked for and whatever its delete-policy set:
    delete-by-policy returns nil, leaves the cluster and the hooks as they
    were, and issues no call at all (no build, no delete, no wait). *)
Theorem deleteHookByPolicyGeneric_skips_CRD :
  forall (h : ri.HookAccessor) (policy : string) (waitStrategy : kube.WaitStrategy)
         (timeout : Duration) (s : action.State W),
    ri.Kind h (action.heap s) = "CustomResourceDefinition" ->
    action.deleteHookByPolicyGeneric rt cfg h policy waitStrategy timeout s
    = (Ok None, s, []).
Proof.
  intros h policy ws timeout s HK.
  unfold action.deleteHookByPolicyGeneric, bind, action.read.
  rewrite HK. reflexivity.
Qed.

(** C9. The namespace comes from decoding the hook's own manifest: a
    decoded, non-empty [metadata.namespace] is the answer; a manifest that
    decodes without one (the field stays empty) gives the release's
    namespace; a manifest that does not decode gives an error whose text
    names the hook's path and which wraps the decoder's error. *)
Theorem deriveNamespaceGeneric_from_manifest :
  forall (h : ri.HookAccessor) (namespace : string) (s : action.State W),
    let manifest := ri.Manifest h (action.heap s) in
    let decoded := action.yaml_Unmarshal rt manifest tmpZero in
    (forall tmp, decoded = (tmp, None) -> Namespace (Metadata tmp) <> "" ->
       action.deriveNamespaceGeneric (ResourceList := ResourceList)
         (Waiter := Waiter) (PodList := PodList) rt h namespace s
       = (Ok (Namespace (Metadata tmp), None), s, []))
    /\ (forall tmp, decoded = (tmp, None) -> Namespace (Metadata tmp) = "" ->
       action.deriveNamespaceGeneric (ResourceList := ResourceList)
         (Waiter := Waiter) (PodList := PodList) rt h namespace s
       = (Ok (namespace, None), s, []))
    /\ (forall tmp err, decoded = (tmp, Some err) ->
       action.deriveNamespaceGeneric (ResourceList := ResourceList)
         (Waiter := Waiter) (PodList := PodList) rt h namespace s
       = (Ok ("", Some (wrapError
                 ("unable to parse metadata.namespace from kubernetes manifest for output logs hook "
                    ++ ri.Path h (action.heap s) ++ ": " ++ Error err) err)),
          s, [])).
Proof.
  intros h namespace s manifest decoded.
  unfold action.deriveNamespaceGeneric, bind, action.read, ret.
  fold manifest. fold decoded.
  repeat split.
  - intros tmp E NE. rewrite E.
    apply String.eqb_neq in NE. rewrite NE. reflexivity.
  - intros tmp E EQ. rewrite E. rewrite EQ. reflexivity.
  - intros tmp err E. rewrite E. unfold Errorf_w.
    rewrite !string_append_assoc. reflexivity.
Qed.

End HelperFacts.

Lemma deleteHookByPolicyGeneric_skips_CRD_witness :
  let crd := fake.hookV1 "crontabs" "CustomResourceDefinition" 0 "crd manifest"
                         ["pre-install"] ["before-hook-creation"; "hook-succeeded"] in
  let s := fake.start [crd] [] in
  ri.Kind (ri.v1HookAccessor 0) (action.heap s) = "CustomResourceDefinition"
  /\ action.deleteHookByPolicyGeneric fake.rt fake.cfg (ri.v1HookAccessor 0)
       "hook-succeeded" "watcher" 300%Z s = (Ok None, s, []).
Proof.
  intros crd s.
  assert (K : ri.Kind (ri.v1HookAccessor 0) (action.heap s) = "CustomResourceDefinition")
    by reflexivity.
  split; [exact K |].
  exact (deleteHookByPolicyGeneric_skips_CRD fake.rt fake.cfg (ri.v1HookAccessor 0)
           "hook-succeeded" "watcher" 300%Z s K).
Defined.

Lemma deriveNamespaceGeneric_from_manifest_witness :
  let declared := fake.hookV1 "a" "Job" 0 "metadata: {namespace: foo}" [] [] in
  let silent := fake.hookV1 "b" "Job" 0 "metadata: {name: b}" [] [] in
  let broken := fake.hookV1 "c" "Job" 0 "not yaml" [] [] in
  let s := fake.start [declared; silent; broken] [] in
  action.deriveNamespaceGeneric (ResourceList := string) (Waiter := unit)
    (PodList := unit) fake.rt (ri.v1HookAccessor 0) "default" s
  = (Ok ("foo", None), s, [])
  /\ action.deriveNamespaceGeneric (ResourceList := string) (Waiter := unit)
       (PodList := unit) fake.rt (ri.v1HookAccessor 1) "default" s
     = (Ok ("default", None), s, [])
  /\ action.deriveNamespaceGeneric (ResourceList := string) (Waiter := unit)
       (PodList := unit) fake.rt (ri.v1HookAccessor 2) "default" s
     = (Ok ("", Some (wrapError
          "unable to parse metadata.namespace from kubernetes manifest for output logs hook templates/c.yaml: yaml: did not find expected key"
          (errorString "yaml: did not find expected key"))), s, []).
Proof.
  intros declared silent broken s.
  split; [| split].
  - refine (proj1 (deriveNamespaceGeneric_from_manifest (ResourceList := string)
              (Waiter := unit) (PodList := unit) fake.rt (ri.v1HookAccessor 0) "default" s)
              {| Metadata := {| Namespace := "foo" |} |} _ _).
    + reflexivity.
    + discriminate.
  - refine (proj1 (proj2 (deriveNamespaceGeneric_from_manifest (ResourceList := string)
              (Waiter := unit) (PodList := unit) fake.rt (ri.v1HookAccessor 1) "default" s))
              tmpZero _ _); reflexivity.
  - refine (proj2 (proj2 (deriveNamespaceGeneric_from_manifest (ResourceList := string)
              (Waiter := unit) (PodList := unit) fake.rt (ri.v1HookAccessor 2) "default" s))
              tmpZero (errorString "yaml: did not find expected key") _); reflexivity.
Defined.

(* ===================================================================== *)
(** ** The stable sort *)
(* ===================================================================== *)

Section StableSort.

Variable A : Type.
Variable less : A -> A -> bool.

(** [a] may stand before [b]: [b] is not strictly less than [a]. *)
Definition notAfter (a b : A) : Prop := less b a = false.

Lemma stableInsert_perm x l : Permutation (stableInsert less x l) (x :: l).
Proof.
  induction l as [| y ys IH]; simpl.
  - apply Permutation_refl.
  - destruct (less y x).
    + eapply perm_trans; [apply perm_skip, IH | apply perm_swap].
    + apply Permutation_refl.
Qed.

Lemma SliceStable_perm l : Permutation (SliceStable less l) l.
Proof.
  induction l as [| x xs IH]; simpl.
  - apply perm_nil.
  - eapply perm_trans; [apply stableInsert_perm | apply perm_skip, IH].
Qed.




Hypothesis less_asym : forall a b, less a b = true -> less b a = false.
Hypothesis notAfter_trans : forall a b c, notAfter a b -> notAfter b c -> notAfter a c.

Lemma stableInsert_sorted x l :
  StronglySorted notAfter l -> StronglySorted notAfter (stableInsert less x l).
Proof.
  induction 1 as [| y ys Hs IH Hy]; simpl.
  - repeat constructor.
  - destruct (less y x) eqn:L.
    + constructor; [exact IH |].
      eapply Permutation_Forall; [apply Permutation_sym, stableInsert_perm |].
      constructor; [apply less_asym, L | exact Hy].
    + constructor; [constructor; assumption |].
      constructor; [exact L |].
      eapply Forall_impl; [| exact Hy].
      intros z Hz. eapply notAfter_trans; [exact L | exact Hz].
Qed.

Lemma SliceStable_sorted l : StronglySorted notAfter (SliceStable less l).
Proof.
  induction l as [| x xs IH]; simpl.
  - constructor.
  - apply stableInsert_sorted, IH.
Qed.

End StableSort.


(** *** The order on hooks: weight ascending, then name ascending *)

Lemma string_leb_ltb (a b : string) : String.leb a b = negb (String.ltb b a).
Proof.
  unfold String.leb, String.ltb. rewrite (String.compare_antisym b a).
  destruct (String.compare a b); reflexivity.
Qed.

Lemma string_leb_trans (a b c : string) :
  String.leb a b = true -> String.leb b c = true -> String.leb a c = true.
Proof.
  unfold String.leb. intros Hab Hbc.
  destruct (String.compare a b) eqn:Eab; try discriminate;
    destruct (String.compare b c) eqn:Ebc; try discriminate.
  - apply String.compare_eq_iff in Eab. subst. now rewrite Ebc.
  - apply String.compare_eq_iff in Eab. subst. now rewrite Ebc.
  - apply String.compare_eq_iff in Ebc. subst. now rewrite Eab.
  - apply String_as_OT.cmp_lt in Eab. apply String_as_OT.cmp_lt in Ebc.
    pose proof (String_as_OT.lt_trans _ _ _ Eab Ebc) as Hac.
    apply String_as_OT.cmp_lt in Hac. unfold String_as_OT.cmp in Hac.
    now rewrite Hac.
Qed.

Lemma string_ltb_irrefl (a : string) : String.ltb a a = false.
Proof.
  unfold String.ltb.
  assert (E : String.compare a a = Eq) by exact (proj2 (String_as_OT.cmp_eq a a) eq_refl).
  now rewrite E.
Qed.

Lemma string_ltb_asym (a b : string) : String.ltb a b = true -> String.ltb b a = false.
Proof.
  unfold String.ltb. rewrite (String.compare_antisym b a).
  destruct (String.compare a b); simpl; congruence.
Qed.

(** [a] comes no later than [b]: lighter, or as heavy and not after it by
    name. *)
Definition hookLe (m : ri.Heap) (a b : ri.HookAccessor) : Prop :=
  (ri.Weight a m < ri.Weight b m)%Z
  \/ (ri.Weight a m = ri.Weight b m /\ String.leb (ri.Name a m) (ri.Name b m) = true).


Lemma hookLess_notAfter m a b : notAfter (action.hookLess m) a b <-> hookLe m a b.
Proof.
  unfold notAfter, action.hookLess, hookLe.
  destruct (Z.eqb_spec (ri.Weight b m) (ri.Weight a m)) as [E | NE].
  - rewrite string_leb_ltb, negb_true_iff. split.
    + intros H. right. split; [symmetry; exact E | exact H].
    + intros [H | [_ H]]; [lia | exact H].
  - rewrite Z.ltb_ge. split.
    + intros H. left. lia.
    + intros [H | [H _]]; [lia | congruence].
Qed.

Lemma hookLess_asym m a b :
  action.hookLess m a b = true -> action.hookLess m b a = false.
Proof.
  unfold action.hookLess.
  destruct (Z.eqb_spec (ri.Weight a m) (ri.Weight b m)) as [E | NE].
  - rewrite E, Z.eqb_refl. apply string_ltb_asym.
  - destruct (Z.eqb_spec (ri.Weight b m) (ri.Weight a m)) as [E' | _]; [congruence |].
    rewrite Z.ltb_lt, Z.ltb_ge. lia.
Qed.

Lemma hookLe_trans m a b c : hookLe m a b -> hookLe m b c -> hookLe m a c.
Proof.
  unfold hookLe. intros [H1 | [E1 L1]] [H2 | [E2 L2]].
  - left; lia.
  - left; lia.
  - left; lia.
  - right. split; [congruence | eapply string_leb_trans; eassumption].
Qed.

Lemma hookLess_notAfter_trans m a b c :
  notAfter (action.hookLess m) a b -> notAfter (action.hookLess m) b c ->
  notAfter (action.hookLess m) a c.
Proof.
  rewrite !hookLess_notAfter. apply hookLe_trans.
Qed.


Lemma sortedHooks_StronglySorted m hooks :
  StronglySorted (hookLe m) (SliceStable (action.hookLess m) hooks).
Proof.
  pose proof (SliceStable_sorted (@hookLess_asym m) (@hookLess_notAfter_trans m) hooks) as H.
  induction H as [| x xs Hs IH Hx]; constructor; [exact IH |].
  eapply Forall_impl; [| exact Hx].
  intros y Hy. now apply hookLess_notAfter.
Qed.


(* ===================================================================== *)
(** ** What the mutators leave alone *)
(* ===================================================================== *)

(** The fields no mutator writes agree in [m] and [m'], for every hook. *)
Definition fixedFields (m m' : ri.Heap) : Prop :=
  forall a,
    ri.Path a m' = ri.Path a m /\ ri.Manifest a m' = ri.Manifest a m
    /\ ri.Name a m' = ri.Name a m /\ ri.Kind a m' = ri.Kind a m
    /\ ri.Weight a m' = ri.Weight a m.

(** The hook behind [a] has the same [LastRun] in [m] and [m']. *)
Definition sameLastRun (m m' : ri.Heap) (a : ri.HookAccessor) : Prop :=
  ri.LastRunPhase a m' = ri.LastRunPhase a m
  /\ ri.LastRunStartedAt a m' = ri.LastRunStartedAt a m
  /\ ri.LastRunCompletedAt a m' = ri.LastRunCompletedAt a m.

Lemma fixedFields_refl m : fixedFields m m.
Proof. intros a. repeat split. Qed.

Lemma fixedFields_trans m1 m2 m3 :
  fixedFields m1 m2 -> fixedFields m2 m3 -> fixedFields m1 m3.
Proof.
  intros H12 H23 a.
  destruct (H12 a) as (P1 & M1 & N1 & K1 & W1).
  destruct (H23 a) as (P2 & M2 & N2 & K2 & W2).
  repeat split; congruence.
Qed.

Lemma sameLastRun_refl m a : sameLastRun m m a.
Proof. repeat split. Qed.

Lemma sameLastRun_trans m1 m2 m3 a :
  sameLastRun m1 m2 a -> sameLastRun m2 m3 a -> sameLastRun m1 m3 a.
Proof.
  intros (P1 & S1 & C1) (P2 & S2 & C2). repeat split; congruence.
Qed.

Ltac heap_cases a h :=
  destruct a as [?p | ?p], h as [?q | ?q]; simpl;
  repeat (simpl;
          match goal with
          | |- context [Nat.eqb ?x ?y] => destruct (Nat.eqb_spec x y); subst
          | |- context [if ?c then _ else _] => destruct c
          end); simpl; auto; try congruence.

Lemma SetDefaultDeletePolicy_fixed h m : fixedFields m (ri.SetDefaultDeletePolicy h m).
Proof.
  intros a. unfold ri.SetDefaultDeletePolicy.
  repeat split; heap_cases a h.
Qed.

Lemma SetDefaultDeletePolicy_lastRun h m a :
  sameLastRun m (ri.SetDefaultDeletePolicy h m) a.
Proof.
  unfold ri.SetDefaultDeletePolicy. repeat split; heap_cases a h.
Qed.

Lemma SetLastRunStarted_fixed h t m : fixedFields m (ri.SetLastRunStarted h t m).
Proof. intros a. repeat split; heap_cases a h. Qed.

Lemma SetLastRunPhase_fixed h ph m : fixedFields m (ri.SetLastRunPhase h ph m).
Proof. intros a. repeat split; heap_cases a h. Qed.

Lemma SetLastRunCompleted_fixed h t m : fixedFields m (ri.SetLastRunCompleted h t m).
Proof. intros a. repeat split; heap_cases a h. Qed.

Lemma SetLastRunStarted_other h t m a :
  a <> h -> sameLastRun m (ri.SetLastRunStarted h t m) a.
Proof. intros NE. repeat split; heap_cases a h. Qed.

Lemma SetLastRunPhase_other h ph m a :
  a <> h -> sameLastRun m (ri.SetLastRunPhase h ph m) a.
Proof. intros NE. repeat split; heap_cases a h. Qed.

Lemma SetLastRunCompleted_other h t m a :
  a <> h -> sameLastRun m (ri.SetLastRunCompleted h t m) a.
Proof. intros NE. repeat split; heap_cases a h. Qed.

Lemma SetLastRunPhase_phase h ph m : ri.LastRunPhase h (ri.SetLastRunPhase h ph m) = ph.
Proof. destruct h; simpl; now rewrite Nat.eqb_refl. Qed.

Lemma SetLastRunPhase_completedAt h ph m :
  ri.LastRunCompletedAt h (ri.SetLastRunPhase h ph m) = ri.LastRunCompletedAt h m.
Proof. destruct h; simpl; now rewrite Nat.eqb_refl. Qed.

Lemma SetLastRunCompleted_completedAt h t m :
  ri.LastRunCompletedAt h (ri.SetLastRunCompleted h t m) = t.
Proof. destruct h; simpl; now rewrite Nat.eqb_refl. Qed.

(* ===================================================================== *)
(** ** Running the engine: one step at a time *)
(* ===================================================================== *)

Ltac inv H := inversion H; subst; clear H.

Section EngineFacts.

Context {W ResourceList Waiter PodList : Type}.
Variable rt : action.Runtime W.
Variable cfg : action.Configuration W ResourceList Waiter PodList.

Local Abbreviation Ev := (Event ResourceList Waiter PodList).
Local Abbreviation Go := (M (action.State W) Ev).
Local Abbreviation Callbacks := (@action.hookExecutionCallbacks W ResourceList Waiter PodList).

Lemma bind_inv {A B} (m : Go A) (f : A -> Go B) s res s' tr :
  bind m f s = (res, s', tr) ->
  (exists a s1 t1 t2,
      m s = (Ok a, s1, t1) /\ f a s1 = (res, s', t2) /\ tr = t1 ++ t2)
  \/ (exists msg, m s = (Panic msg, s', tr) /\ res = Panic msg).
Proof.
  unfold bind. destruct (m s) as [[[a | msg] s1] t1].
  - destruct (f a s1) as [[r s2] t2] eqn:Ef. intros H. inv H.
    left. now exists a, s1, t1, t2.
  - intros H. inv H. right. now exists msg.
Qed.

Lemma buildResults_app (t1 t2 : list Ev) :
  action.buildResults (t1 ++ t2) = action.buildResults t1 ++ action.buildResults t2.
Proof. apply flat_map_app. Qed.

Lemma createResults_app (t1 t2 : list Ev) :
  action.createResults (t1 ++ t2) = action.createResults t1 ++ action.createResults t2.
Proof. apply flat_map_app. Qed.

Lemma waitResults_app (t1 t2 : list Ev) :
  action.waitResults (t1 ++ t2) = action.waitResults t1 ++ action.waitResults t2.
Proof. apply flat_map_app. Qed.

(** A computation that returns, leaves the hooks as they are, and neither
    builds for creation, nor creates, nor waits for readiness. *)
Definition quiet {A} (m : Go A) : Prop :=
  forall s res s' tr,
    m s = (res, s', tr) ->
    (exists a, res = Ok a) /\ action.heap s' = action.heap s
    /\ action.buildResults tr = [] /\ action.createResults tr = []
    /\ action.waitResults tr = [].

Lemma quiet_ret {A} (a : A) : quiet (ret a).
Proof. intros s res s' tr H. inv H. repeat split; eauto. Qed.

Lemma quiet_read {A} (f : ri.Heap -> A) : quiet (action.read f).
Proof. intros s res s' tr H. inv H. repeat split; eauto. Qed.

Lemma quiet_log msg : quiet (action.log_Printf msg).
Proof. intros s res s' tr H. inv H. repeat split; eauto. Qed.

Lemma quiet_call {A} (f : W -> A * W) (ev : A -> Ev) :
  (forall a, action.buildResults [ev a] = [] /\ action.createResults [ev a] = []
             /\ action.waitResults [ev a] = []) ->
  quiet (action.call f ev).
Proof.
  intros Hev s res s' tr H. unfold action.call in H.
  destruct (f (action.world s)) as [a w]. inv H.
  destruct (Hev a) as (Hb & Hc & Hw). repeat split; eauto.
Qed.

Lemma quiet_bind {A B} (m : Go A) (f : A -> Go B) :
  quiet m -> (forall a, quiet (f a)) -> quiet (bind m f).
Proof.
  intros Hm Hf s res s' tr H.
  apply bind_inv in H.
  destruct H as [(a & s1 & t1 & t2 & Em & Ef & ->) | (msg & Em & ->)].
  - destruct (Hm _ _ _ _ Em) as (_ & Hh & Hb & Hc & Hw).
    destruct (Hf a _ _ _ _ Ef) as (Hr & Hh' & Hb' & Hc' & Hw').
    rewrite buildResults_app, createResults_app, waitResults_app.
    rewrite Hb, Hc, Hw, Hb', Hc', Hw'. repeat split; auto. congruence.
  - destruct (Hm _ _ _ _ Em) as ((a & Ha) & _). discriminate.
Qed.

Ltac quiet_step :=
  first
    [ apply quiet_ret
    | apply quiet_read
    | apply quiet_log
    | apply quiet_call; intros; repeat split; reflexivity
    | apply quiet_bind; [| intros]
    | match goal with
      | |- quiet (if ?c then _ else _) => destruct c
      | |- quiet (match ?x with _ => _ end) => destruct x
      end ].

Lemma deleteHookByPolicyGeneric_quiet h policy ws timeout :
  quiet (action.deleteHookByPolicyGeneric rt cfg h policy ws timeout).
Proof.
  unfold action.deleteHookByPolicyGeneric, action.Build, action.Delete,
    action.GetWaiter, action.WaitForDelete.
  repeat quiet_step.
Qed.

Lemma deriveNamespaceGeneric_quiet h ns :
  quiet (action.deriveNamespaceGeneric (ResourceList := ResourceList)
           (Waiter := Waiter) (PodList := PodList) rt h ns).
Proof.
  unfold action.deriveNamespaceGeneric.
  apply quiet_bind; [apply quiet_read | intros manifest].
  destruct (action.yaml_Unmarshal rt manifest tmpZero) as [tmp [err |]];
    repeat quiet_step.
Qed.

Lemma outputLogsByPolicyGeneric_quiet h ns policy :
  quiet (action.outputLogsByPolicyGeneric rt cfg h ns policy).
Proof.
  unfold action.outputLogsByPolicyGeneric, action.outputContainerLogsForListOptions,
    action.GetPodList, action.OutputContainerLogsForPodList.
  apply quiet_bind; [apply quiet_read | intros has].
  destruct (negb has); [apply quiet_ret |].
  apply quiet_bind; [apply deriveNamespaceGeneric_quiet | intros [namespace [err |]]];
    repeat quiet_step.
Qed.

Lemma cfg_recordRelease_quiet rl : quiet (action.cfg_recordRelease cfg rl).
Proof. intros s res s' tr H. inv H. repeat split; eauto. Qed.

Lemma cfg_Releases_Update_quiet rl : quiet (action.cfg_Releases_Update cfg rl).
Proof.
  intros s res s' tr H. unfold action.cfg_Releases_Update in H.
  destruct (action.Releases_Update cfg rl (action.heap s) (action.world s)) as [r w].
  inv H. repeat split; eauto.
Qed.

(** The callbacks whose every member is quiet. *)
Definition quietCallbacks (cb : Callbacks) : Prop :=
  quiet (action.cb_recordRelease cb)
  /\ (forall h policy, quiet (action.deleteByPolicy cb h policy))
  /\ (forall h policy, quiet (action.outputLogsByPolicy cb h policy)).

Lemma engineCallbacks_quiet rl ws timeout :
  quietCallbacks (action.engineCallbacks rt cfg rl ws timeout).
Proof.
  destruct rl as [rl | rl]; (split; [| split]); simpl.
  - apply cfg_recordRelease_quiet.
  - intros. apply deleteHookByPolicyGeneric_quiet.
  - intros. apply outputLogsByPolicyGeneric_quiet.
  - apply quiet_bind; [apply cfg_Releases_Update_quiet | intros; apply quiet_ret].
  - intros. apply deleteHookByPolicyGeneric_quiet.
  - intros. apply outputLogsByPolicyGeneric_quiet.
Qed.

(** The two entry points are [execHookCore] on the hooks they select, with
    these callbacks. *)
Lemma execHookWithDelayedShutdown_core rl hook ws timeout ssa s :
  action.execHookWithDelayedShutdown rt cfg rl hook ws timeout ssa s
  = bind (action.read (action.executingHooksV1 rl hook))
         (fun executingHooks =>
            action.execHookCore rt cfg executingHooks hook (v1release.Namespace rl)
              ws timeout ssa (action.engineCallbacks rt cfg (inl rl) ws timeout)) s.
Proof. reflexivity. Qed.

Lemma execHookWithDelayedShutdownV3_core rl hook ws timeout ssa s :
  action.execHookWithDelayedShutdownV3 rt cfg rl hook ws timeout ssa s
  = bind (action.read (action.executingHooksV3 rl hook))
         (fun executingHooks =>
            action.execHookCore rt cfg executingHooks hook (v2release.Namespace rl)
              ws timeout ssa (action.engineCallbacks rt cfg (inr rl) ws timeout)) s.
Proof. reflexivity. Qed.

(** *** One iteration of the loop *)

(** Why the loop returned early: the pre-creation delete, the build, the
    creation, getting the waiter, or the readiness wait failed. *)
Inductive Stop : Type :=
| StopPreDelete (e : error)
| StopBuild (e : error)
| StopCreate (e : error)
| StopWaiter (e : error)
| StopWait (e : error).

Definition stopError (hookEvent path : string) (st : Stop) : error :=
  match st with
  | StopPreDelete e => e
  | StopBuild e =>
      Errorf_w ("unable to build kubernetes object for " ++ hookEvent ++ " hook "
                  ++ path ++ ": ") e
  | StopCreate e =>
      Errorf_w ("warning: Hook " ++ hookEvent ++ " " ++ path ++ " failed: ") e
  | StopWaiter e => Errorf_w "unable to get waiter: " e
  | StopWait e => e
  end.

Definition stopShutdown (cb : Callbacks) (hooks : list ri.HookAccessor) (i : nat)
           (h : ri.HookAccessor) (st : Stop) : Go (option error) :=
  match st with
  | StopWait e => action.failureShutdown cb hooks i h e
  | _ => action.shutdownNoOp
  end.

Definition stopBuilds (manifest : string) (st : Stop) : list (string * option error) :=
  match st with
  | StopPreDelete _ => []
  | StopBuild e => [(manifest, Some e)]
  | _ => [(manifest, None)]
  end.

Definition stopCreates (st : Stop) : list (option error) :=
  match st with
  | StopPreDelete _ | StopBuild _ => []
  | StopCreate e => [Some e]
  | _ => [None]
  end.

Definition stopWaits (st : Stop) : list (option error) :=
  match st with
  | StopWait e => [Some e]
  | _ => []
  end.

(** What else is known at each kind of stop: where the record of calls
    ends, and what became of the [LastRun] of the hooks outside [earlier],
    the ones that ran before. *)
Definition stopFacts (cb : Callbacks) (ws : kube.WaitStrategy)
           (h : ri.HookAccessor) (earlier : list ri.HookAccessor)
           (m m' : ri.Heap) (tr : list Ev) (st : Stop) : Prop :=
  match st with
  | StopPreDelete e =>
      (forall a, ~ In a earlier -> sameLastRun m m' a)
      /\ exists pre t s1 s2,
          tr = pre ++ t /\ fixedFields m (action.heap s1)
          /\ action.deleteByPolicy cb h ri.HookDeletePolicyBeforeCreation s1
             = (Ok (Some e), s2, t)
  | StopBuild e =>
      (forall a, ~ In a earlier -> sameLastRun m m' a)
      /\ exists pre, tr = pre ++ [EvBuild (ri.Manifest h m) true (inr e)]
  | StopCreate e =>
      exists pre resources opts now,
        tr = pre ++ [EvCreate resources opts (Some e); EvNow now]
        /\ ri.LastRunPhase h m' = "Failed"
        /\ ri.LastRunCompletedAt h m' = now
  | StopWaiter e => exists pre, tr = pre ++ [EvGetWaiter ws (inr e)]
  | StopWait _ => ri.LastRunPhase h m' = "Failed"
  end.

Ltac go_bind H Em :=
  apply bind_inv in H;
  destruct H as [(?a & ?s & ?t & ?t & Em & H & ?Htr) | (?msg & Em & ?Hres)];
  [subst | try discriminate Hres; subst].

(** A step that reads or writes the hooks, logs, or returns. *)
Ltac step_pure H :=
  let Em := fresh "Em" in
  go_bind H Em; inv Em.

(** A step that calls a collaborator. *)
Ltac step_call H :=
  let Em := fresh "Em" in
  go_bind H Em;
  unfold action.Now, action.Build, action.Create, action.GetWaiter,
    action.WatchUntilReady, action.call in Em;
  match type of Em with
  | (match ?x with _ => _ end) = _ => destruct x eqn:?; inv Em
  end.

(** A step that is quiet. *)
Ltac step_quiet H Hq :=
  let Em := fresh "Em" in
  let x := fresh "x" in
  let Hx := fresh "Hx" in
  go_bind H Em;
  destruct (Hq _ _ _ _ Em) as ((x & Hx) & ?Hh & ?Hb & ?Hc & ?Hw);
  [clear Em Hx x | discriminate Hx].

(** A step that reads the clock and writes the hook. *)
(** A step that is quiet, its run kept as [Em]. *)
Ltac step_quiet_keep H Hq Em :=
  let x := fresh "x" in
  let Hx := fresh "Hx" in
  go_bind H Em;
  destruct (Hq _ _ _ _ Em) as ((x & Hx) & ?Hh & ?Hb & ?Hc & ?Hw);
  [clear Hx x | discriminate Hx].

Ltac step_clock H :=
  let Em := fresh "Em" in
  go_bind H Em; step_call Em; inv Em.

Ltac case_on H :=
  match type of H with
  | (match ?x with _ => _ end) _ = _ => destruct x
  end.

(** A step that branches on a value and then logs or returns. *)
Ltac step_match H :=
  let Em := fresh "Em" in
  go_bind H Em; case_on Em; inv Em.

Ltac heap_simpl :=
  cbn [action.heap action.world] in *;
  repeat match goal with
         | H : action.heap ?s = _ |- _ => rewrite H in *; clear H
         end.

Ltac fixed_chain :=
  repeat (eapply fixedFields_trans;
          [| first [ apply SetLastRunPhase_fixed
                   | apply SetLastRunCompleted_fixed
                   | apply SetLastRunStarted_fixed
                   | apply SetDefaultDeletePolicy_fixed ] ]);
  apply fixedFields_refl.

Ltac lastRun_chain NE :=
  repeat (eapply sameLastRun_trans;
          [| first [ apply SetLastRunPhase_other; exact NE
                   | apply SetLastRunCompleted_other; exact NE
                   | apply SetLastRunStarted_other; exact NE
                   | apply SetDefaultDeletePolicy_lastRun ] ]);
  apply sameLastRun_refl.

Ltac obs_simpl :=
  rewrite ?buildResults_app, ?createResults_app, ?waitResults_app;
  repeat match goal with
         | H : action.buildResults _ = [] |- _ => rewrite H
         | H : action.createResults _ = [] |- _ => rewrite H
         | H : action.waitResults _ = [] |- _ => rewrite H
         end;
  cbn [action.buildResults action.createResults action.waitResults flat_map app
       action.errorOf].

Ltac stop_with st :=
  right; exists st;
  unfold stopShutdown, stopError, stopBuilds, stopCreates, stopWaits, stopFacts;
  obs_simpl.

(** The frame of an iteration, once its final store is known. *)
Ltac frame_then h tac :=
  match goal with
  | |- fixedFields ?m ?m' /\ _ =>
      let FF := fresh "FF" in
      let EP := fresh "EP" in
      let EM := fresh "EM" in
      assert (FF : fixedFields m m') by fixed_chain;
      destruct (FF h) as (EP & EM & _);
      split; [exact FF | split; [intros ?b ?NE; lastRun_chain NE | tac EP EM]]
  end.

(** *** What the cluster sees of a deletion by policy *)

(** A call on a hook's resources that failed. *)
Definition hookCallFailed (ev : Ev) : bool :=
  match ev with
  | EvBuild _ _ (inr _) => true
  | EvCreate _ _ (Some _) => true
  | EvDelete _ _ (_ :: _) => true
  | EvGetWaiter _ (inr _) => true
  | EvWatchUntilReady _ _ _ (Some _) => true
  | EvWaitForDelete _ _ _ (Some _) => true
  | _ => false
  end.

Definition okCall (ev : Ev) : Prop := hookCallFailed ev = false.

(** The hook is not a CustomResourceDefinition and carries the policy. *)
Definition dueForDeletion (m : ri.Heap) (h : ri.HookAccessor) (policy : string) : Prop :=
  ri.Kind h m <> "CustomResourceDefinition" /\ ri.HasDeletePolicy h policy m = true.

(** Deleting the resource of hook [h] by [policy], as the cluster sees
    it: the calls made, in order, and the error reported.  A hook that is
    due is built from its manifest without validation, deleted in the
    background, and waited for until it is gone; the first call that
    fails is the last one made. *)
Inductive deletion (m : ri.Heap) (ws : kube.WaitStrategy) (timeout : Duration)
          (h : ri.HookAccessor) (policy : string) : list Ev -> option error -> Prop :=
| deletion_exempt :
    ri.Kind h m = "CustomResourceDefinition" ->
    deletion m ws timeout h policy [] None
| deletion_not_asked :
    ri.HasDeletePolicy h policy m = false ->
    deletion m ws timeout h policy [] None
| deletion_unbuilt e :
    dueForDeletion m h policy ->
    deletion m ws timeout h policy
      [EvBuild (ri.Manifest h m) false (inr e)]
      (Some (Errorf_w ("unable to build kubernetes object for deleting hook "
                         ++ ri.Path h m ++ ": ") e))
| deletion_refused resources e errs :
    dueForDeletion m h policy ->
    deletion m ws timeout h policy
      [EvBuild (ri.Manifest h m) false (inl resources);
       EvDelete resources kube.DeletePropagationBackground (e :: errs)]
      (Some (action.joinErrors rt (e :: errs) "; "))
| deletion_no_waiter resources e :
    dueForDeletion m h policy ->
    deletion m ws timeout h policy
      [EvBuild (ri.Manifest h m) false (inl resources);
       EvDelete resources kube.DeletePropagationBackground [];
       EvGetWaiter ws (inr e)]
      (Some e)
| deletion_not_gone resources w e :
    dueForDeletion m h policy ->
    deletion m ws timeout h policy
      [EvBuild (ri.Manifest h m) false (inl resources);
       EvDelete resources kube.DeletePropagationBackground [];
       EvGetWaiter ws (inl w);
       EvWaitForDelete w resources timeout (Some e)]
      (Some e)
| deletion_done resources w :
    dueForDeletion m h policy ->
    deletion m ws timeout h policy
      [EvBuild (ri.Manifest h m) false (inl resources);
       EvDelete resources kube.DeletePropagationBackground [];
       EvGetWaiter ws (inl w);
       EvWaitForDelete w resources timeout None]
      None.

Ltac branch_on H E :=
  match type of H with
  | (if ?c then _ else _) _ = _ => destruct c eqn:E
  end.

Lemma deleteHookByPolicyGeneric_deletion h policy ws timeout (s s' : action.State W) res tr :
  action.deleteHookByPolicyGeneric rt cfg h policy ws timeout s = (res, s', tr) ->
  exists r,
    res = Ok r /\ action.heap s' = action.heap s
    /\ deletion (action.heap s) ws timeout h policy tr r.
Proof.
  intros H.
  unfold action.deleteHookByPolicyGeneric, action.Delete, action.WaitForDelete in H.
  step_pure H. branch_on H EK.
  { inv H. eexists. repeat split. apply deletion_exempt. now apply String.eqb_eq. }
  step_pure H. branch_on H EP.
  2: { inv H. eexists. repeat split. now apply deletion_not_asked. }
  assert (Hdue : dueForDeletion (action.heap s) h policy)
    by (split; [now apply String.eqb_neq | exact EP]).
  step_pure H. step_call H. case_on H.
  2: { step_pure H. inv H. eexists. repeat split. now apply deletion_unbuilt. }
  step_call H.
  match type of H with context [List.length ?l] => destruct l end;
    cbn [List.length Nat.ltb Nat.leb] in H.
  2: { inv H. eexists. repeat split. now apply deletion_refused. }
  step_call H. case_on H.
  2: { inv H. eexists. repeat split. now apply deletion_no_waiter. }
  step_call H. case_on H; inv H; eexists; repeat split.
  - now apply deletion_not_gone.
  - now apply deletion_done.
Qed.

Lemma execHookIteration_cases (cb : Callbacks) hooks hookEvent ws timeout ssa i h
      s res s' tr :
  quietCallbacks cb ->
  action.execHookIteration rt cfg hooks hookEvent ws timeout ssa cb i h s
  = (res, s', tr) ->
  fixedFields (action.heap s) (action.heap s')
  /\ (forall a, a <> h -> sameLastRun (action.heap s) (action.heap s') a)
  /\ ((res = Ok None
       /\ action.buildResults tr = [(ri.Manifest h (action.heap s), None)]
       /\ action.createResults tr = [None]
       /\ action.waitResults tr = [None])
      \/ exists st,
          res = Ok (Some (stopShutdown cb hooks i h st,
                          Some (stopError hookEvent (ri.Path h (action.heap s)) st)))
          /\ action.buildResults tr = stopBuilds (ri.Manifest h (action.heap s)) st
          /\ action.createResults tr = stopCreates st
          /\ action.waitResults tr = stopWaits st
          /\ stopFacts cb ws h [] (action.heap s) (action.heap s') tr st).
Proof.
  intros (Hrec & Hdel & Hout) H.
  destruct (SetDefaultDeletePolicy_fixed h (action.heap s) h) as (EP0 & EM0 & _).
  unfold action.execHookIteration in H.
  step_pure H.
  step_quiet_keep H (Hdel h ri.HookDeletePolicyBeforeCreation) Hrun.
  case_on H.
  { (* the pre-creation delete failed *)
    inv H. heap_simpl.
    frame_then h ltac:(fun EP EM =>
      stop_with (StopPreDelete e)).
    do 4 (split; [reflexivity |]).
    split; [intros; apply SetDefaultDeletePolicy_lastRun |].
    eexists [], t, _, s'. rewrite app_nil_r.
    split; [reflexivity |]. split; [| exact Hrun]. exact FF. }
  clear Hrun.
  step_pure H. step_call H.
  case_on H.
  2: { (* the build failed *)
    step_pure H. inv H. heap_simpl.
    frame_then h ltac:(fun EP EM =>
      stop_with (StopBuild e); rewrite ?EP0, ?EM0;
      repeat split; auto; try (intros; apply SetDefaultDeletePolicy_lastRun);
      exists t; reflexivity). }
  unfold action.SetLastRunStarted, action.SetLastRunPhase, action.SetLastRunCompleted in H.
  step_clock H.
  step_quiet H Hrec.
  step_pure H. step_call H.
  case_on H.
  { (* the creation failed *)
    step_clock H. step_pure H. step_pure H. inv H. heap_simpl.
    frame_then h ltac:(fun EP EM =>
      stop_with (StopCreate e); rewrite ?EP, ?EM0;
      repeat split; auto).
    eexists (t ++ _ :: _ :: t0), _, _, _. split; [| split].
    - rewrite <- app_assoc. reflexivity.
    - apply SetLastRunPhase_phase.
    - rewrite SetLastRunPhase_completedAt. apply SetLastRunCompleted_completedAt. }
  step_call H.
  case_on H.
  2: { (* no waiter *)
    inv H. heap_simpl.
    frame_then h ltac:(fun EP EM =>
      stop_with (StopWaiter e); rewrite ?EP, ?EM0).
    do 4 (split; [reflexivity |]).
    eexists (t ++ _ :: _ :: t0 ++ [_]).
    rewrite <- !app_assoc. cbn [app]. rewrite <- app_assoc. reflexivity. }
  step_call H. step_clock H.
  case_on H.
  { (* the wait failed *)
    step_pure H.
    step_quiet H (Hout h ri.HookOutputPolicyFailed).
    step_match H; inv H; heap_simpl;
      (frame_then h ltac:(fun EP EM =>
         stop_with (StopWait e); rewrite ?EP, ?EM0; repeat split; auto));
    apply SetLastRunPhase_phase. }
  step_pure H. inv H. heap_simpl.
  frame_then h ltac:(fun EP EM =>
    left; obs_simpl; rewrite ?EM0; repeat split; auto).
Qed.

(** *** The whole loop *)

Lemma stopFacts_later (cb : Callbacks) ws h h0 earlier m0 m1 m' (t1 tr : list Ev) st :
  fixedFields m0 m1 ->
  (forall a, a <> h0 -> sameLastRun m0 m1 a) ->
  stopFacts cb ws h earlier m1 m' tr st ->
  stopFacts cb ws h (h0 :: earlier) m0 m' (t1 ++ tr) st.
Proof.
  intros FF Hother Hst.
  assert (Hlr : forall a, ~ In a (h0 :: earlier) ->
                          (forall b, ~ In b earlier -> sameLastRun m1 m' b) ->
                          sameLastRun m0 m' a).
  { intros a Hn Hrest. eapply sameLastRun_trans.
    - apply Hother. intros ->. apply Hn. now left.
    - apply Hrest. intros Hin. apply Hn. now right. }
  destruct st as [e | e | e | e | e]; simpl in *.
  - destruct Hst as (Hrest & pre & t & s1 & s2 & -> & FF1 & Hrun). split.
    + intros a Hn. now apply Hlr.
    + exists (t1 ++ pre), t, s1, s2. rewrite app_assoc.
      split; [reflexivity |]. split; [| exact Hrun].
      eapply fixedFields_trans; eassumption.
  - destruct Hst as (Hrest & pre & ->). split.
    + intros a Hn. now apply Hlr.
    + exists (t1 ++ pre). destruct (FF h) as (_ & EM & _).
      rewrite <- EM. now rewrite app_assoc.
  - destruct Hst as (pre & resources & opts & now & -> & Hp & Hc).
    exists (t1 ++ pre), resources, opts, now. now rewrite app_assoc.
  - destruct Hst as (pre & ->). exists (t1 ++ pre). now rewrite app_assoc.
  - exact Hst.
Qed.

Lemma execLoop_cases (cb : Callbacks) hooks hookEvent ws timeout ssa :
  quietCallbacks cb ->
  forall todo i s res s' tr,
    forRange i todo (action.execHookIteration rt cfg hooks hookEvent ws timeout ssa cb) s
    = (res, s', tr) ->
    fixedFields (action.heap s) (action.heap s')
    /\ ((res = Ok None
         /\ action.buildResults tr
            = map (fun h => (ri.Manifest h (action.heap s), None)) todo
         /\ action.createResults tr = map (fun _ => None) todo
         /\ action.waitResults tr = map (fun _ => None) todo)
        \/ exists k h st,
            nth_error todo k = Some h
            /\ res = Ok (Some (stopShutdown cb hooks (i + k) h st,
                               Some (stopError hookEvent (ri.Path h (action.heap s)) st)))
            /\ action.buildResults tr
               = map (fun h => (ri.Manifest h (action.heap s), None)) (firstn k todo)
                   ++ stopBuilds (ri.Manifest h (action.heap s)) st
            /\ action.createResults tr
               = map (fun _ => None) (firstn k todo) ++ stopCreates st
            /\ action.waitResults tr
               = map (fun _ => None) (firstn k todo) ++ stopWaits st
            /\ stopFacts cb ws h (firstn k todo) (action.heap s) (action.heap s') tr st).
Proof.
  intros Hq todo. induction todo as [| h0 rest IH]; intros i s res s' tr H.
  - inv H. split; [apply fixedFields_refl |]. left. repeat split.
  - cbn [forRange] in H.
    apply bind_inv in H.
    destruct H as [(a & s1 & t1 & t2 & Em & H & ->) | (msg & Em & ->)].
    2: { eapply execHookIteration_cases in Em; [| exact Hq].
         destruct Em as (_ & _ & [(Hres & _) | (st & Hres & _)]); discriminate. }
    eapply execHookIteration_cases in Em; [| exact Hq].
    destruct Em as (FF & Hother & [(Hres & Hb & Hc & Hw) | (st & Hres & Hb & Hc & Hw & Hst)]).
    + inv Hres. apply IH in H.
      destruct H as (FF' & [(-> & Hb' & Hc' & Hw') | (k & h & st & Hk & -> & Hb' & Hc' & Hw' & Hst)]).
      * split; [eapply fixedFields_trans; eassumption |]. left.
        rewrite buildResults_app, createResults_app, waitResults_app.
        rewrite Hb, Hc, Hw, Hb', Hc', Hw'. cbn [map app].
        repeat split. f_equal. apply map_ext. intros b.
        destruct (FF b) as (_ & EM & _). now rewrite EM.
      * split; [eapply fixedFields_trans; eassumption |]. right.
        exists (S k), h, st.
        rewrite buildResults_app, createResults_app, waitResults_app.
        rewrite Hb, Hc, Hw, Hb', Hc', Hw'. cbn [map app firstn nth_error].
        destruct (FF h) as (EP & EM & _). rewrite EP, EM.
        rewrite <- Nat.add_succ_comm.
        repeat split; auto.
        -- f_equal. f_equal. apply map_ext. intros b.
           destruct (FF b) as (_ & EM' & _). now rewrite EM'.
        -- now apply stopFacts_later with (m1 := action.heap s1).
    + inv Hres. inv H. split; [exact FF |]. right.
      exists 0, h0, st. rewrite Nat.add_0_r, !app_nil_r.
      cbn [map app firstn nth_error]. repeat split; auto.
Qed.

(** *** The deferred cleanups against their specification *)

Lemma bind_ret_l {A B} (a : A) (f : A -> Go B) s : bind (ret a) f s = f a s.
Proof. unfold bind, ret. now destruct (f a s) as [[r s2] t2]. Qed.

Lemma bind_assoc {A B C} (m : Go A) (f : A -> Go B) (g : B -> Go C) s :
  bind (bind m f) g s = bind m (fun x => bind (f x) g) s.
Proof.
  unfold bind. destruct (m s) as [[[a | msg] s1] t1]; [| reflexivity].
  destruct (f a s1) as [[[b | msg] s2] t2]; [| reflexivity].
  destruct (g b s2) as [[r s3] t3]. now rewrite app_assoc.
Qed.

Lemma bind_ext {A B} (m : Go A) (f g : A -> Go B) s :
  (forall a s1, f a s1 = g a s1) -> bind m f s = bind m g s.
Proof.
  intros E. unfold bind. destruct (m s) as [[[a | msg] s1] t1]; [| reflexivity].
  now rewrite E.
Qed.

(** How a loop's early [return err] reads as a plain result. *)
Definition returned (r : option error) : option (option error) :=
  match r with
  | Some e => Some (Some e)
  | None => None
  end.

Lemma forUp_deleteEach (cb : Callbacks) policy hooks :
  forall n j s,
    j + n <= List.length hooks ->
    forUp n j (fun j =>
      bind (index hooks j) (fun hj =>
        bind (action.deleteByPolicy cb hj policy) (fun err =>
          match err with
          | Some err => ret (Some (Some err))
          | None => ret None
          end))) s
    = bind (action.deleteEachByPolicy cb policy (firstn n (skipn j hooks)))
           (fun r => ret (returned r)) s.
Proof.
  induction n as [| n IH]; intros j s Hlen.
  - cbn [forUp firstn action.deleteEachByPolicy]. now rewrite bind_ret_l.
  - destruct (nth_error hooks j) as [hj |] eqn:Ej.
    2: { apply nth_error_None in Ej. lia. }
    assert (Esk : skipn j hooks = hj :: skipn (S j) hooks).
    { clear - Ej. revert j Ej. induction hooks as [| x xs IHx]; intros [| j] Ej;
        simpl in *; try discriminate.
      - now inv Ej.
      - now apply IHx. }
    rewrite Esk. cbn [forUp firstn action.deleteEachByPolicy].
    unfold index at 1. rewrite Ej.
    rewrite !bind_assoc, bind_ret_l, !bind_assoc.
    apply bind_ext. intros [e |] s1.
    + now rewrite !bind_ret_l.
    + rewrite bind_ret_l. apply IH. lia.
Qed.

Lemma failureShutdown_refines (cb : Callbacks) hooks i h err s :
  i <= List.length hooks ->
  action.failureShutdown cb hooks i h err s
  = action.failureCleanupSpec cb h (firstn i hooks) err s.
Proof.
  intros Hi. unfold action.failureShutdown, action.failureCleanupSpec.
  apply bind_ext. intros errDeleting s1.
  apply bind_ext. intros _ s2.
  erewrite bind_ext; [| intros; reflexivity].
  transitivity
    (bind (bind (action.deleteEachByPolicy cb ri.HookDeletePolicySucceeded
                   (firstn i (skipn 0 hooks)))
                (fun r => ret (returned r)))
          (fun r => match r with
                    | Some x => ret x
                    | None => ret (Some err)
                    end) s2).
  - unfold bind at 1. unfold bind at 3.
    rewrite (forUp_deleteEach cb ri.HookDeletePolicySucceeded hooks i 0 s2); [reflexivity | lia].
  - rewrite bind_assoc. cbn [skipn]. apply bind_ext. intros [e |] s3;
      now rewrite bind_ret_l.
Qed.

Lemma firstn_snoc (hooks : list ri.HookAccessor) n hn :
  nth_error hooks n = Some hn -> firstn (S n) hooks = firstn n hooks ++ [hn].
Proof.
  revert n. induction hooks as [| x xs IH]; intros [| n] E; simpl in *; try discriminate.
  - now inv E.
  - f_equal. now apply IH.
Qed.

Lemma forDown_logAndDeleteEach (cb : Callbacks) hooks :
  forall n s,
    n <= List.length hooks ->
    forDown n (fun i =>
      bind (index hooks i) (fun h =>
        bind (action.outputLogsByPolicy cb h ri.HookOutputPolicySucceeded) (fun err =>
          bind (match err with
                | Some e =>
                    action.log_Printf
                      ("error outputting logs for hook success: " ++ Error e)
                | None => ret tt
                end) (fun _ =>
            bind (action.deleteByPolicy cb h ri.HookDeletePolicySucceeded) (fun err =>
              match err with
              | Some err => ret (Some (Some err))
              | None => ret None
              end))))) s
    = bind (action.logAndDeleteEach cb (rev (firstn n hooks)))
           (fun r => ret (returned r)) s.
Proof.
  induction n as [| n IH]; intros s Hlen.
  - cbn [forDown firstn rev action.logAndDeleteEach]. now rewrite bind_ret_l.
  - destruct (nth_error hooks n) as [hn |] eqn:En.
    2: { apply nth_error_None in En. lia. }
    rewrite (firstn_snoc hooks n En), rev_app_distr.
    cbn [forDown rev app action.logAndDeleteEach].
    unfold index at 1. rewrite En.
    rewrite !bind_assoc, bind_ret_l, !bind_assoc.
    apply bind_ext. intros errOut s1. rewrite !bind_assoc.
    apply bind_ext. intros _ s2. rewrite !bind_assoc.
    apply bind_ext. intros [e |] s3.
    + now rewrite !bind_ret_l.
    + rewrite bind_ret_l. apply IH. lia.
Qed.

Lemma successShutdown_refines (cb : Callbacks) hooks s :
  action.successShutdown cb hooks s = action.successCleanupSpec cb hooks s.
Proof.
  unfold action.successShutdown, action.successCleanupSpec.
  transitivity
    (bind (bind (action.logAndDeleteEach cb (rev (firstn (List.length hooks) hooks)))
                (fun r => ret (returned r)))
          (fun r => match r with
                    | Some x => ret x
                    | None => ret None
                    end) s).
  - unfold bind at 1. unfold bind at 6.
    rewrite forDown_logAndDeleteEach; [reflexivity | lia].
  - rewrite bind_assoc, firstn_all.
    transitivity (bind (action.logAndDeleteEach cb (rev hooks)) ret s).
    + apply bind_ext. intros [e |] s1; now rewrite bind_ret_l.
    + unfold bind, ret.
      destruct (action.logAndDeleteEach cb (rev hooks) s) as [[[a | msg] s1] t1];
        [now rewrite app_nil_r | reflexivity].
Qed.

(** *** [execHookCore] as a whole *)

(** The hooks in the order [execHookCore] runs them. *)
Definition sortedHooks (m : ri.Heap) (hooks : list ri.HookAccessor)
  : list ri.HookAccessor :=
  SliceStable (action.hookLess m) hooks.

(** The manifests of the first [k] hooks in run order, each built without
    error. *)
Definition builtOk (m : ri.Heap) (hs : list ri.HookAccessor)
  : list (string * option error) :=
  map (fun h => (ri.Manifest h m, @None error)) hs.

Lemma execHookCore_cases (cb : Callbacks) hooks hookEvent ns ws timeout ssa
      s res s' tr :
  quietCallbacks cb ->
  action.execHookCore rt cfg hooks hookEvent ns ws timeout ssa cb s = (res, s', tr) ->
  let sorted := sortedHooks (action.heap s) hooks in
  fixedFields (action.heap s) (action.heap s')
  /\ ((res = Ok (action.successShutdown cb sorted, None)
       /\ action.buildResults tr = builtOk (action.heap s) sorted
       /\ action.createResults tr = map (fun _ => None) sorted
       /\ action.waitResults tr = map (fun _ => None) sorted)
      \/ exists k h st,
          nth_error sorted k = Some h
          /\ res = Ok (stopShutdown cb sorted k h st,
                       Some (stopError hookEvent (ri.Path h (action.heap s)) st))
          /\ action.buildResults tr
             = builtOk (action.heap s) (firstn k sorted)
                 ++ stopBuilds (ri.Manifest h (action.heap s)) st
          /\ action.createResults tr
             = map (fun _ => None) (firstn k sorted) ++ stopCreates st
          /\ action.waitResults tr
             = map (fun _ => None) (firstn k sorted) ++ stopWaits st
          /\ stopFacts cb ws h (firstn k sorted) (action.heap s) (action.heap s') tr st).
Proof.
  intros Hq H. cbv zeta. unfold sortedHooks. unfold action.execHookCore in H.
  step_pure H.
  apply bind_inv in H.
  destruct H as [(a & s1 & t1 & t2 & Em & H & ->) | (msg & Em & ->)].
  2: { eapply execLoop_cases in Em; [| exact Hq].
       destruct Em as (_ & [(Hres & _) | (k & h & st & _ & Hres & _)]); discriminate. }
  eapply execLoop_cases in Em; [| exact Hq].
  destruct Em as (FF & [(Hres & Hb & Hc & Hw) | (k & h & st & Hk & Hres & Hb & Hc & Hw & Hst)]);
    inv Hres; inv H; cbn [app]; rewrite app_nil_r; (split; [exact FF |]).
  - left. repeat split; assumption.
  - right. exists k, h, st. repeat split; assumption.
Qed.

(** *** The failed calls of a run *)

(** Exactly one call on a hook's resources failed. *)
Definition oneFailure (tr : list Ev) : Prop :=
  exists pre ev post,
    tr = pre ++ ev :: post
    /\ Forall okCall pre /\ hookCallFailed ev = true /\ Forall okCall post.

Lemma oneFailure_here ev post :
  hookCallFailed ev = true -> Forall okCall post -> oneFailure (ev :: post).
Proof. intros Hev Hpost. exists [], ev, post. repeat split; auto. Qed.

Lemma oneFailure_cons_ok ev tr :
  hookCallFailed ev = false -> oneFailure tr -> oneFailure (ev :: tr).
Proof.
  intros Hev (pre & ev' & post & -> & Hpre & Hf & Hpost).
  exists (ev :: pre), ev', post. repeat split; auto.
Qed.

Lemma oneFailure_app_l t1 t2 :
  Forall okCall t1 -> oneFailure t2 -> oneFailure (t1 ++ t2).
Proof.
  intros H1 (pre & ev & post & -> & Hpre & Hf & Hpost).
  exists (t1 ++ pre), ev, post. rewrite app_assoc. repeat split; auto.
  apply Forall_app. now split.
Qed.

Lemma oneFailure_app_r t1 t2 :
  oneFailure t1 -> Forall okCall t2 -> oneFailure (t1 ++ t2).
Proof.
  intros (pre & ev & post & -> & Hpre & Hf & Hpost) H2.
  exists pre, ev, (post ++ t2). rewrite <- app_assoc. repeat split; auto.
  apply Forall_app. now split.
Qed.


(** The failed call of a run with one failure is that one. *)
Lemma oneFailure_unique tr ev :
  oneFailure tr -> In ev tr -> hookCallFailed ev = true ->
  exists pre post, tr = pre ++ ev :: post /\ Forall okCall pre /\ Forall okCall post.
Proof.
  intros (pre & ev' & post & -> & Hpre & Hf & Hpost) Hin Hev.
  assert (Hno : forall l, Forall okCall l -> ~ In ev l).
  { intros l Hl Hinl. rewrite Forall_forall in Hl. apply Hl in Hinl.
    unfold okCall in Hinl. congruence. }
  apply in_app_or in Hin. destruct Hin as [Hin | [<- | Hin]].
  - now apply Hno in Hin.
  - now exists pre, post.
  - now apply Hno in Hin.
Qed.

Lemma deletion_calls m ws timeout h policy t r :
  deletion m ws timeout h policy t r ->
  match r with
  | None => Forall okCall t
  | Some _ =>
      exists pre ev, t = pre ++ [ev] /\ Forall okCall pre /\ hookCallFailed ev = true
  end.
Proof.
  intros H. destruct H.
  - constructor.
  - constructor.
  - exists [], (EvBuild (ri.Manifest h m) false (inr e)). repeat split; constructor.
  - eexists [_], _. repeat split; repeat constructor.
  - eexists [_; _], _. repeat split; repeat constructor.
  - eexists [_; _; _], _. repeat split; repeat constructor.
  - repeat constructor.
Qed.

(** A computation that makes no failing call on a hook's resources. *)
Definition callFree {A} (m : Go A) : Prop :=
  forall s res s' tr, m s = (res, s', tr) -> Forall okCall tr.

Lemma callFree_ret {A} (a : A) : callFree (ret a).
Proof. intros s res s' tr H. inv H. constructor. Qed.

Lemma callFree_read {A} (f : ri.Heap -> A) : callFree (action.read f).
Proof. intros s res s' tr H. inv H. constructor. Qed.

Lemma callFree_log msg : callFree (action.log_Printf msg).
Proof. intros s res s' tr H. inv H. repeat constructor. Qed.

Lemma callFree_call {A} (f : W -> A * W) (ev : A -> Ev) :
  (forall a, hookCallFailed (ev a) = false) -> callFree (action.call f ev).
Proof.
  intros Hev s res s' tr H. unfold action.call in H.
  destruct (f (action.world s)) as [a w]. inv H.
  constructor; [apply Hev | constructor].
Qed.

Lemma callFree_bind {A B} (m : Go A) (f : A -> Go B) :
  callFree m -> (forall a, callFree (f a)) -> callFree (bind m f).
Proof.
  intros Hm Hf s res s' tr H.
  apply bind_inv in H.
  destruct H as [(a & s1 & t1 & t2 & Em & Ef & ->) | (msg & Em & ->)].
  - apply Forall_app. split; [eapply Hm | eapply Hf]; eassumption.
  - eapply Hm; eassumption.
Qed.

Ltac callFree_step :=
  first
    [ apply callFree_ret
    | apply callFree_read
    | apply callFree_log
    | apply callFree_call; intros; reflexivity
    | apply callFree_bind; [| intros]
    | match goal with
      | |- callFree (if ?c then _ else _) => destruct c
      | |- callFree (match ?x with _ => _ end) => destruct x
      end ].

Lemma outputLogsByPolicyGeneric_callFree h ns policy :
  callFree (action.outputLogsByPolicyGeneric rt cfg h ns policy).
Proof.
  unfold action.outputLogsByPolicyGeneric, action.deriveNamespaceGeneric,
    action.outputContainerLogsForListOptions, action.GetPodList,
    action.OutputContainerLogsForPodList.
  repeat callFree_step.
Qed.

Lemma engine_recordRelease_callFree rl ws timeout :
  callFree (action.cb_recordRelease (action.engineCallbacks rt cfg rl ws timeout)).
Proof.
  destruct rl as [rl | rl]; cbn [action.engineCallbacks action.cb_recordRelease].
  - intros s res s' tr H. inv H. repeat constructor.
  - apply callFree_bind; [| intros; apply callFree_ret].
    intros s res s' tr H. unfold action.cfg_Releases_Update in H.
    destruct (action.Releases_Update cfg rl (action.heap s) (action.world s)) as [r w].
    inv H. repeat constructor.
Qed.

Lemma engine_deleteByPolicy rl ws timeout h policy :
  action.deleteByPolicy (action.engineCallbacks rt cfg rl ws timeout) h policy
  = action.deleteHookByPolicyGeneric rt cfg h policy ws timeout.
Proof. now destruct rl. Qed.

Lemma engine_outputLogsByPolicy rl ws timeout h policy :
  action.outputLogsByPolicy (action.engineCallbacks rt cfg rl ws timeout) h policy
  = action.outputLogsByPolicyGeneric rt cfg h
      match rl with
      | inl rl => v1release.Namespace rl
      | inr rl => v2release.Namespace rl
      end policy.
Proof. now destruct rl. Qed.

Ltac calls_ok :=
  cbn [app];
  repeat first
    [ assumption
    | apply Forall_nil
    | apply Forall_cons; [reflexivity |]
    | apply Forall_app; split ].

Ltac one_failure :=
  cbn [app];
  repeat first
    [ assumption
    | apply oneFailure_here; [reflexivity | solve [calls_ok]]
    | apply oneFailure_cons_ok; [reflexivity |]
    | apply oneFailure_app_l; [solve [calls_ok] |] ].

(** One iteration either goes on, having made no failing call, or stops
    with exactly one. *)
Lemma execHookIteration_calls rl hooks hookEvent ws timeout ssa i h
      (s s' : action.State W) res tr :
  action.execHookIteration rt cfg hooks hookEvent ws timeout ssa
    (action.engineCallbacks rt cfg rl ws timeout) i h s = (res, s', tr) ->
  (res = Ok None /\ Forall okCall tr)
  \/ ((exists c e, res = Ok (Some (c, Some e))) /\ oneFailure tr).
Proof.
  intros H.
  destruct (engineCallbacks_quiet rl ws timeout) as (Hrec & Hdel & Hout).
  pose proof (engine_recordRelease_callFree rl ws timeout) as Frec.
  unfold action.execHookIteration in H.
  step_pure H.
  step_quiet_keep H (Hdel h ri.HookDeletePolicyBeforeCreation) Hrun.
  rewrite engine_deleteByPolicy in Hrun.
  apply deleteHookByPolicyGeneric_deletion in Hrun.
  destruct Hrun as (r0 & Er0 & _ & Hdeln). inv Er0.
  apply deletion_calls in Hdeln.
  case_on H.
  { inv H. right. split; [eauto |].
    destruct Hdeln as (pre & ev & -> & Hpre & Hev).
    rewrite app_nil_r. exists pre, ev, []. repeat split; auto. }
  step_pure H. step_call H.
  case_on H.
  2: { step_pure H. inv H. right. split; [eauto |]. one_failure. }
  unfold action.SetLastRunStarted, action.SetLastRunPhase, action.SetLastRunCompleted in H.
  step_clock H.
  let Em := fresh "Em" in go_bind H Em; [apply Frec in Em | apply Hrec in Em; destruct Em as ((x & Hx) & _); discriminate Hx].
  step_pure H. step_call H.
  case_on H.
  { step_clock H. step_pure H. step_pure H. inv H. right. split; [eauto |]. one_failure. }
  step_call H.
  case_on H.
  2: { inv H. right. split; [eauto |]. one_failure. }
  step_call H. step_clock H.
  case_on H.
  { step_pure H.
    let Em := fresh "Em" in
    go_bind H Em;
      [rewrite engine_outputLogsByPolicy in Em;
       apply outputLogsByPolicyGeneric_callFree in Em
      | apply Hout in Em; destruct Em as ((x & Hx) & _); discriminate Hx].
    step_match H; inv H; right; (split; [eauto |]); one_failure. }
  step_pure H. inv H. left. split; [reflexivity |]. calls_ok.
Qed.

Lemma execLoop_calls rl hooks hookEvent ws timeout ssa :
  forall todo i (s s' : action.State W) res tr,
    forRange i todo
      (action.execHookIteration rt cfg hooks hookEvent ws timeout ssa
         (action.engineCallbacks rt cfg rl ws timeout)) s
    = (res, s', tr) ->
    (res = Ok None /\ Forall okCall tr)
    \/ ((exists c e, res = Ok (Some (c, Some e))) /\ oneFailure tr).
Proof.
  induction todo as [| h0 rest IH]; intros i s s' res tr H.
  - inv H. left. split; [reflexivity | constructor].
  - cbn [forRange] in H.
    apply bind_inv in H.
    destruct H as [(a & s1 & t1 & t2 & Em & H & ->) | (msg & Em & ->)].
    2: { apply execHookIteration_calls in Em.
         destruct Em as [(Hres & _) | ((c & e & Hres) & _)]; discriminate. }
    apply execHookIteration_calls in Em.
    destruct Em as [(Hres & Hok) | ((c & e & Hres) & Hone)].
    + inv Hres. apply IH in H.
      destruct H as [(-> & Hok') | (Hx & Hone)].
      * left. split; [reflexivity |]. apply Forall_app. now split.
      * right. split; [exact Hx |]. now apply oneFailure_app_l.
    + inv Hres. inv H. right. split; [eauto |]. now rewrite app_nil_r.
Qed.

(** A run that returns a nil error made no failing call on a hook's
    resources; a run that returns an error made exactly one. *)
Lemma execHookCore_calls rl hooks hookEvent ns ws timeout ssa
      (s s' : action.State W) res tr :
  action.execHookCore rt cfg hooks hookEvent ns ws timeout ssa
    (action.engineCallbacks rt cfg rl ws timeout) s = (res, s', tr) ->
  ((exists cleanup, res = Ok (cleanup, None)) /\ Forall okCall tr)
  \/ ((exists cleanup err, res = Ok (cleanup, Some err)) /\ oneFailure tr).
Proof.
  intros H.
  unfold action.execHookCore in H.
  step_pure H. cbv zeta in H.
  apply bind_inv in H.
  destruct H as [(a & s1 & t1 & t2 & Em & H & ->) | (msg & Em & ->)].
  2: { apply execLoop_calls in Em.
       destruct Em as [(Hres & _) | ((c & e & Hres) & _)]; discriminate. }
  apply execLoop_calls in Em.
  destruct Em as [(Ea & Hok) | ((c & e & Ea) & Hone)]; inv Ea; inv H; rewrite app_nil_r.
  - left. split; [eauto | exact Hok].
  - right. split; [eauto | exact Hone].
Qed.

Lemma In_waitResults (tr : list Ev) w resources timeout r :
  In (EvWatchUntilReady w resources timeout r) tr -> In r (action.waitResults tr).
Proof.
  intros Hin. apply in_flat_map. eexists. split; [exact Hin |]. now left.
Qed.

Lemma In_createResults (tr : list Ev) resources opts r :
  In (EvCreate resources opts r) tr -> In r (action.createResults tr).
Proof.
  intros Hin. apply in_flat_map. eexists. split; [exact Hin |]. now left.
Qed.

Lemma In_buildResults (tr : list Ev) manifest r :
  In (EvBuild manifest true r) tr ->
  In (manifest, action.errorOf r) (action.buildResults tr).
Proof.
  intros Hin. apply in_flat_map. eexists. split; [exact Hin |]. now left.
Qed.

Lemma map_None_repeat {A B} (l : list A) :
  map (fun _ => @None B) l = repeat None (List.length l).
Proof. induction l as [| x xs IH]; simpl; [reflexivity | now rewrite IH]. Qed.

Lemma not_In_map_None {A B} (l : list A) (e : B) : ~ In (Some e) (map (fun _ => None) l).
Proof. intros Hin. apply in_map_iff in Hin. destruct Hin as (x & Hx & _). discriminate. Qed.

Lemma not_In_builtOk m hs manifest e : ~ In (manifest, Some e) (builtOk m hs).
Proof. intros Hin. apply in_map_iff in Hin. destruct Hin as (x & Hx & _). discriminate. Qed.

Lemma firstn_length_nth {A} (l : list A) k x :
  nth_error l k = Some x -> List.length (firstn k l) = k.
Proof.
  intros E. apply firstn_length_le.
  assert (k < List.length l) by (apply nth_error_Some; congruence). lia.
Qed.

Lemma builtOk_snoc m hs k h :
  nth_error hs k = Some h ->
  builtOk m (firstn k hs) ++ [(ri.Manifest h m, None)] = builtOk m (firstn (S k) hs).
Proof.
  intros E. rewrite (firstn_snoc hs k E). unfold builtOk. now rewrite map_app.
Qed.

Lemma NoDup_nth_not_earlier {A} (l : list A) k x :
  NoDup l -> nth_error l k = Some x -> ~ In x (firstn k l).
Proof.
  intros ND. revert k. induction ND as [| y ys Hy ND IH]; intros [| k] E; simpl in *;
    try discriminate; [tauto |].
  intros [-> | Hin].
  - apply Hy. eapply nth_error_In. exact E.
  - eapply IH; eassumption.
Qed.

(* ===================================================================== *)
(** ** The cleanups, as the cluster sees them *)
(* ===================================================================== *)

Definition logNamespace (tmp : tmpDoc) (releaseNamespace : string) : string :=
  if String.eqb (Namespace (Metadata tmp)) "" then releaseNamespace
  else Namespace (Metadata tmp).

Definition logSelector (kind name : string) : option kube.ListOptions :=
  if String.eqb kind "Job"
  then Some {| kube.LabelSelector := "job-name=" ++ name; kube.FieldSelector := "" |}
  else if String.eqb kind "Pod"
  then Some {| kube.LabelSelector := ""; kube.FieldSelector := "metadata.name=" ++ name |}
  else None.

Lemma deriveNamespaceGeneric_run h releaseNamespace (s : action.State W) :
  action.deriveNamespaceGeneric (ResourceList := ResourceList) (Waiter := Waiter)
    (PodList := PodList) rt h releaseNamespace s
  = match action.yaml_Unmarshal rt (ri.Manifest h (action.heap s)) tmpZero with
    | (_, Some err) =>
        (Ok ("", Some (Errorf_w
               ("unable to parse metadata.namespace from kubernetes manifest for output logs hook "
                  ++ ri.Path h (action.heap s) ++ ": ") err)), s, [])
    | (tmp, None) => (Ok (logNamespace tmp releaseNamespace, None), s, [])
    end.
Proof.
  unfold action.deriveNamespaceGeneric, bind, action.read, ret, logNamespace.
  cbv beta iota.
  destruct (action.yaml_Unmarshal rt _ tmpZero) as [tmp [err |]]; cbv beta iota;
    [reflexivity |].
  now destruct (String.eqb _ "").
Qed.

(** Emitting the logs of hook [h] by [policy], as the cluster sees it: a
    hook that carries the policy, whose manifest decodes and whose kind is
    Job or Pod has its pods listed and, when the listing succeeds, their
    logs output. *)
Inductive logging (m : ri.Heap) (releaseNamespace : string)
          (h : ri.HookAccessor) (policy : string) : list Ev -> option error -> Prop :=
| logging_not_asked :
    ri.HasOutputLogPolicy h policy m = false ->
    logging m releaseNamespace h policy [] None
| logging_undecodable tmp e :
    ri.HasOutputLogPolicy h policy m = true ->
    action.yaml_Unmarshal rt (ri.Manifest h m) tmpZero = (tmp, Some e) ->
    logging m releaseNamespace h policy []
      (Some (Errorf_w
               ("unable to parse metadata.namespace from kubernetes manifest for output logs hook "
                  ++ ri.Path h m ++ ": ") e))
| logging_no_pods tmp :
    ri.HasOutputLogPolicy h policy m = true ->
    action.yaml_Unmarshal rt (ri.Manifest h m) tmpZero = (tmp, None) ->
    logSelector (ri.Kind h m) (ri.Name h m) = None ->
    logging m releaseNamespace h policy [] None
| logging_unlisted tmp opts e :
    ri.HasOutputLogPolicy h policy m = true ->
    action.yaml_Unmarshal rt (ri.Manifest h m) tmpZero = (tmp, None) ->
    logSelector (ri.Kind h m) (ri.Name h m) = Some opts ->
    logging m releaseNamespace h policy
      [EvGetPodList (logNamespace tmp releaseNamespace) opts (inr e)] (Some e)
| logging_output tmp opts pods r :
    ri.HasOutputLogPolicy h policy m = true ->
    action.yaml_Unmarshal rt (ri.Manifest h m) tmpZero = (tmp, None) ->
    logSelector (ri.Kind h m) (ri.Name h m) = Some opts ->
    logging m releaseNamespace h policy
      [EvGetPodList (logNamespace tmp releaseNamespace) opts (inl pods);
       EvOutputLogs pods (logNamespace tmp releaseNamespace) r] r.

Lemma outputLogsByPolicyGeneric_logging h releaseNamespace policy
      (s s' : action.State W) res tr :
  action.outputLogsByPolicyGeneric rt cfg h releaseNamespace policy s = (res, s', tr) ->
  exists r,
    res = Ok r /\ action.heap s' = action.heap s
    /\ logging (action.heap s) releaseNamespace h policy tr r.
Proof.
  intros H.
  unfold action.outputLogsByPolicyGeneric in H.
  step_pure H.
  match type of H with
  | context [negb ?c] => destruct c eqn:Ehas
  end; cbn [negb] in H.
  2: { inv H. eexists. repeat split. now apply logging_not_asked. }
  match type of H with
  | bind ?m _ _ = _ => let Em := fresh "Em" in go_bind H Em
  end.
  2: { apply deriveNamespaceGeneric_quiet in Em.
       destruct Em as ((x & Hx) & _). discriminate. }
  rewrite deriveNamespaceGeneric_run in Em.
  destruct (action.yaml_Unmarshal rt _ tmpZero) as [tmp [err |]] eqn:Edec; inv Em.
  { inv H. eexists. repeat split. now apply logging_undecodable with (tmp := tmp). }
  cbv beta iota in H. step_pure H.
  unfold action.outputContainerLogsForListOptions, action.GetPodList,
    action.OutputContainerLogsForPodList in H.
  match goal with
  | |- context [logging (action.heap ?s0) _ _ _ _ _] =>
      destruct (logSelector (ri.Kind h (action.heap s0)) (ri.Name h (action.heap s0)))
        as [opts |] eqn:Esel
  end; unfold logSelector in Esel;
    match type of H with
    | (if ?c then _ else _) _ = _ => destruct c eqn:EJ
    end;
    try match type of H with
        | (if ?c then _ else _) _ = _ => destruct c eqn:EP
        end;
    try discriminate Esel.
  3: { inv H. eexists. repeat split. apply logging_no_pods with (tmp := tmp); auto.
       unfold logSelector. now rewrite EJ, EP. }
  all: inv Esel; step_pure H; step_call H; case_on H.
  all: try (inv H; eexists; repeat split;
            apply logging_unlisted with (tmp := tmp); auto;
            unfold logSelector; now rewrite ?EJ, ?EP).
  all: unfold action.call in H;
    match type of H with
    | (match ?x with _ => _ end) = _ => destruct x eqn:?; inv H
    end;
    eexists; repeat split;
    apply logging_output with (tmp := tmp); auto;
    unfold logSelector; now rewrite ?EJ, ?EP.
Qed.

(** What is logged when a best-effort step fails. *)
Definition errorLog (prefix : string) (r : option error) : list Ev :=
  match r with
  | Some e => [EvLog (prefix ++ Error e)]
  | None => []
  end.

(** Deleting the hooks of a list by [policy], first to last, as the
    cluster sees it: the first deletion that reports an error is the last
    one made. *)
Inductive deletions (m : ri.Heap) (ws : kube.WaitStrategy) (timeout : Duration)
          (policy : string) : list ri.HookAccessor -> list Ev -> option error -> Prop :=
| deletions_nil : deletions m ws timeout policy [] [] None
| deletions_stop h rest t e :
    deletion m ws timeout h policy t (Some e) ->
    deletions m ws timeout policy (h :: rest) t (Some e)
| deletions_next h rest t t' r :
    deletion m ws timeout h policy t None ->
    deletions m ws timeout policy rest t' r ->
    deletions m ws timeout policy (h :: rest) (t ++ t') r.

(** The cleanup after a failed wait, as the cluster sees it: the failed
    hook is deleted by "hook-failed", an error there is logged; then the
    hooks that succeeded are deleted by "hook-succeeded" in their order;
    the result is the first error of these deletions, else the wait
    error. *)
Definition failureCleanupCalls (m : ri.Heap) (ws : kube.WaitStrategy) (timeout : Duration)
           (failed : ri.HookAccessor) (succeeded : list ri.HookAccessor)
           (waitErr : error) (tr : list Ev) (r : option error) : Prop :=
  exists tf rf tp rp,
    tr = tf ++ errorLog "error deleting the hook resource on hook failure: " rf ++ tp
    /\ deletion m ws timeout failed "hook-failed" tf rf
    /\ deletions m ws timeout "hook-succeeded" succeeded tp rp
    /\ r = Some match rp with
                | Some e => e
                | None => waitErr
                end.

(** The cleanup after a run without failure, as the cluster sees it, over
    the hooks in the order they are walked: for each, its logs by
    "hook-succeeded" (an error there is logged), then its deletion by
    "hook-succeeded"; the first deletion that reports an error ends the
    walk. *)
Inductive successWalk (m : ri.Heap) (ws : kube.WaitStrategy) (timeout : Duration)
          (releaseNamespace : string)
  : list ri.HookAccessor -> list Ev -> option error -> Prop :=
| successWalk_nil : successWalk m ws timeout releaseNamespace [] [] None
| successWalk_stop h rest tl lr td e :
    logging m releaseNamespace h "hook-succeeded" tl lr ->
    deletion m ws timeout h "hook-succeeded" td (Some e) ->
    successWalk m ws timeout releaseNamespace (h :: rest)
      (tl ++ errorLog "error outputting logs for hook success: " lr ++ td) (Some e)
| successWalk_next h rest tl lr td t' r :
    logging m releaseNamespace h "hook-succeeded" tl lr ->
    deletion m ws timeout h "hook-succeeded" td None ->
    successWalk m ws timeout releaseNamespace rest t' r ->
    successWalk m ws timeout releaseNamespace (h :: rest)
      (tl ++ errorLog "error outputting logs for hook success: " lr ++ td ++ t') r.

Definition releaseNamespace (rl : v1release.Release + v2release.Release) : string :=
  match rl with
  | inl rl => v1release.Namespace rl
  | inr rl => v2release.Namespace rl
  end.

Lemma deleteEachByPolicy_deletions rl ws timeout policy hs :
  forall (s s' : action.State W) res tr,
    action.deleteEachByPolicy (action.engineCallbacks rt cfg rl ws timeout) policy hs s
    = (res, s', tr) ->
    exists r,
      res = Ok r /\ action.heap s' = action.heap s
      /\ deletions (action.heap s) ws timeout policy hs tr r.
Proof.
  induction hs as [| h rest IH]; intros s s' res tr H.
  - inv H. eexists. repeat split. constructor.
  - cbn [action.deleteEachByPolicy] in H.
    apply bind_inv in H.
    destruct H as [(a & s1 & t1 & t2 & Em & H & ->) | (msg & Em & ->)];
      rewrite engine_deleteByPolicy in Em;
      apply deleteHookByPolicyGeneric_deletion in Em;
      destruct Em as (r0 & Er0 & Hh & Hd); inv Er0.
    destruct r0 as [e |].
    + inv H. rewrite app_nil_r. eexists. repeat split; [exact Hh |].
      now apply deletions_stop.
    + apply IH in H. destruct H as (r & -> & Hh' & Hds).
      exists r. rewrite Hh in Hh'. repeat split; [exact Hh' |].
      apply deletions_next; [exact Hd |]. now rewrite <- Hh.
Qed.

Lemma failureCleanupSpec_calls rl ws timeout failed succeeded waitErr
      (s s' : action.State W) res tr :
  action.failureCleanupSpec (action.engineCallbacks rt cfg rl ws timeout)
    failed succeeded waitErr s = (res, s', tr) ->
  action.heap s' = action.heap s
  /\ exists r,
      res = Ok r
      /\ failureCleanupCalls (action.heap s) ws timeout failed succeeded waitErr tr r.
Proof.
  intros H. unfold action.failureCleanupSpec in H.
  apply bind_inv in H.
  destruct H as [(a & s1 & t1 & t2 & Em & H & ->) | (msg & Em & ->)];
    rewrite engine_deleteByPolicy in Em;
    apply deleteHookByPolicyGeneric_deletion in Em;
    destruct Em as (rf & Erf & Hh1 & Hd); inv Erf.
  apply bind_inv in H.
  destruct H as [(u & s2 & t3 & t4 & Em & H & ->) | (msg & Em & ->)].
  2: { destruct rf; inv Em. }
  assert (Hlog : t3 = errorLog "error deleting the hook resource on hook failure: " rf
                 /\ action.heap s2 = action.heap s1)
    by (destruct rf; inv Em; split; reflexivity).
  destruct Hlog as (-> & Hh2). clear Em.
  apply bind_inv in H.
  destruct H as [(rp & s3 & t5 & t6 & Em & H & ->) | (msg & Em & ->)];
    apply deleteEachByPolicy_deletions in Em;
    destruct Em as (rp' & Erp & Hh3 & Hds); inv Erp.
  rewrite Hh2, Hh1 in Hds, Hh3.
  assert (Hfin : res = Ok (Some match rp' with Some e => e | None => waitErr end)
                 /\ s' = s3 /\ t6 = [])
    by (destruct rp'; inv H; repeat split).
  destruct Hfin as (-> & -> & ->).
  split; [exact Hh3 |]. eexists. split; [reflexivity |].
  exists t1, rf, t5, rp'. rewrite app_nil_r. repeat split; assumption.
Qed.

Lemma logAndDeleteEach_walk rl ws timeout hs :
  forall (s s' : action.State W) res tr,
    action.logAndDeleteEach (action.engineCallbacks rt cfg rl ws timeout) hs s
    = (res, s', tr) ->
    action.heap s' = action.heap s
    /\ exists r,
        res = Ok r
        /\ successWalk (action.heap s) ws timeout (releaseNamespace rl) hs tr r.
Proof.
  induction hs as [| h rest IH]; intros s s' res tr H.
  - inv H. split; [reflexivity |]. eexists. split; [reflexivity | constructor].
  - cbn [action.logAndDeleteEach] in H.
    apply bind_inv in H.
    destruct H as [(lr & s1 & t1 & t2 & Em & H & ->) | (msg & Em & ->)];
      rewrite engine_outputLogsByPolicy in Em;
      apply outputLogsByPolicyGeneric_logging in Em;
      destruct Em as (lr' & Elr & Hh1 & Hl); inv Elr.
    apply bind_inv in H.
    destruct H as [(u & s2 & t3 & t4 & Em & H & ->) | (msg & Em & ->)].
    2: { destruct lr'; inv Em. }
    assert (Hlog : t3 = errorLog "error outputting logs for hook success: " lr'
                   /\ action.heap s2 = action.heap s1)
      by (destruct lr'; inv Em; split; reflexivity).
    destruct Hlog as (-> & Hh2). clear Em.
    apply bind_inv in H.
    destruct H as [(rd & s3 & t5 & t6 & Em & H & ->) | (msg & Em & ->)];
      rewrite engine_deleteByPolicy in Em;
      apply deleteHookByPolicyGeneric_deletion in Em;
      destruct Em as (rd' & Erd & Hh3 & Hd); inv Erd.
    rewrite Hh2, Hh1 in Hd, Hh3.
    destruct rd' as [e |].
    + inv H. rewrite app_nil_r. split; [exact Hh3 |].
      eexists. split; [reflexivity |]. now apply successWalk_stop.
    + apply IH in H. destruct H as (Hh4 & r & -> & Hwalk).
      rewrite Hh3 in Hh4, Hwalk. split; [exact Hh4 |].
      exists r. split; [reflexivity |]. now apply successWalk_next.
Qed.

(* ===================================================================== *)
(** ** The hook execution engine: order, failures and cleanups *)
(* ===================================================================== *)

(** C1. When a readiness wait fails, it is the wait of some hook [i] of the
    run order, every wait before it succeeded, and nothing after hook [i]
    was built or created.  [execHookCore] returns that wait error and a
    cleanup which, run in any later state, deletes hook [i] by "hook-failed"
    (its error logged, not returned), then hooks [0..i-1] in forward order
    by "hook-succeeded", returning the first deletion error, else the wait
    error.  The calls the cleanup makes on the cluster are those
    deletions: for hook [i], when it is due by "hook-failed", the build of
    its manifest, the background delete and the wait until it is gone;
    then the same for each of hooks [0..i-1] that is due by
    "hook-succeeded", up to the first deletion that fails; no hook is
    changed. *)
Theorem execHookCore_wait_failure_cleanup :
  forall rl hooks hookEvent ns ws timeout ssa s res s' tr,
    let cb := action.engineCallbacks rt cfg rl ws timeout in
    let sorted := sortedHooks (action.heap s) hooks in
    action.execHookCore rt cfg hooks hookEvent ns ws timeout ssa cb s = (res, s', tr) ->
    forall w resources t waitErr,
      In (EvWatchUntilReady w resources t (Some waitErr)) tr ->
      exists i h cleanup,
        nth_error sorted i = Some h
        /\ res = Ok (cleanup, Some waitErr)
        /\ action.waitResults tr = repeat None i ++ [Some waitErr]
        /\ action.buildResults tr = builtOk (action.heap s) (firstn (S i) sorted)
        /\ action.createResults tr = repeat None (S i)
        /\ (forall s2,
              cleanup s2 = action.failureCleanupSpec cb h (firstn i sorted) waitErr s2)
        /\ (forall s2 res2 s3 t3,
              cleanup s2 = (res2, s3, t3) ->
              action.heap s3 = action.heap s2
              /\ exists r,
                  res2 = Ok r
                  /\ failureCleanupCalls (action.heap s2) ws timeout h (firstn i sorted)
                       waitErr t3 r).
Proof.
  intros rl hooks hookEvent ns ws timeout ssa s res s' tr cb sorted H w resources t
         waitErr Hin.
  apply In_waitResults in Hin.
  eapply execHookCore_cases in H; [| apply engineCallbacks_quiet].
  fold sorted in H.
  destruct H as (FF & [(_ & _ & _ & Hw) | (k & h & st & Hk & Hres & Hb & Hc & Hw & _)]).
  - rewrite Hw in Hin. now apply not_In_map_None in Hin.
  - rewrite Hw in Hin. apply in_app_or in Hin.
    destruct Hin as [Hin | Hin]; [now apply not_In_map_None in Hin |].
    destruct st as [e | e | e | e | e]; simpl in Hin; try contradiction.
    destruct Hin as [E | []]. inv E.
    exists k, h, (action.failureShutdown cb sorted k h waitErr).
    cbn [stopShutdown stopError stopBuilds stopCreates stopWaits] in *.
    rewrite Hb, Hc, Hw, !map_None_repeat, (firstn_length_nth _ _ Hk).
    assert (Hk' : k <= List.length sorted).
    { assert (k < List.length sorted) by (apply nth_error_Some; congruence). lia. }
    repeat match goal with |- _ /\ _ => split end; auto.
    + now apply builtOk_snoc.
    + change [@None error] with (repeat (@None error) 1).
      rewrite <- repeat_app. f_equal. lia.
    + intros s2. now apply failureShutdown_refines.
    + intros s2 res2 s3 t3 Hrun.
      rewrite failureShutdown_refines in Hrun by exact Hk'.
      now apply failureCleanupSpec_calls in Hrun.
Qed.

(** C3. When the readiness wait of every hook succeeded, [execHookCore]
    returns a nil error and a cleanup which, run in any later state, walks
    the executed hooks in reverse run order: for each, it emits the
    "hook-succeeded" logs (an error there is logged, not returned) and then
    deletes it by "hook-succeeded"; the first deletion error ends the walk
    and is returned.  The calls the cleanup makes on the cluster are, hook
    by hook in reverse run order, the listing of the hook's pods and the
    output of their logs (for a Job or Pod that carries the output
    policy), then the build of its manifest, the background delete and
    the wait until it is gone (for a hook due by "hook-succeeded"); no
    hook is changed. *)
Theorem execHookCore_success_cleanup :
  forall rl hooks hookEvent ns ws timeout ssa s res s' tr,
    let cb := action.engineCallbacks rt cfg rl ws timeout in
    let sorted := sortedHooks (action.heap s) hooks in
    action.execHookCore rt cfg hooks hookEvent ns ws timeout ssa cb s = (res, s', tr) ->
    action.waitResults tr = repeat None (List.length hooks) ->
    exists cleanup,
      res = Ok (cleanup, None)
      /\ action.buildResults tr = builtOk (action.heap s) sorted
      /\ (forall s2, cleanup s2 = action.successCleanupSpec cb sorted s2)
      /\ (forall s2 res2 s3 t3,
            cleanup s2 = (res2, s3, t3) ->
            action.heap s3 = action.heap s2
            /\ exists r,
                res2 = Ok r
                /\ successWalk (action.heap s2) ws timeout (releaseNamespace rl)
                     (rev sorted) t3 r).
Proof.
  intros rl hooks hookEvent ns ws timeout ssa s res s' tr cb sorted H Hall.
  assert (Hlen : List.length sorted = List.length hooks)
    by (apply Permutation_length, SliceStable_perm).
  eapply execHookCore_cases in H; [| apply engineCallbacks_quiet].
  fold sorted in H.
  destruct H as (FF & [(Hres & Hb & _ & _) | (k & h & st & Hk & _ & _ & _ & Hw & _)]).
  - exists (action.successShutdown cb sorted).
    repeat match goal with |- _ /\ _ => split end; auto.
    + intros s2. apply successShutdown_refines.
    + intros s2 res2 s3 t3 Hrun.
      rewrite successShutdown_refines in Hrun.
      unfold action.successCleanupSpec in Hrun.
      now apply logAndDeleteEach_walk in Hrun.
  - exfalso.
    assert (Hk' : k < List.length hooks)
      by (rewrite <- Hlen; apply nth_error_Some; congruence).
    rewrite Hall, map_None_repeat, (firstn_length_nth _ _ Hk) in Hw.
    destruct st as [e | e | e | e | e]; cbn [stopWaits] in Hw;
      try (rewrite app_nil_r in Hw; apply (f_equal (@List.length _)) in Hw;
           rewrite !repeat_length in Hw; lia).
    assert (Hin : In (Some e) (repeat None (List.length hooks)))
      by (rewrite Hw; apply in_or_app; right; now left).
    apply repeat_spec in Hin. discriminate.
Qed.

(** C6. When a creation fails, it is the creation of some hook [i] of the
    run order; the last two calls of the run are that creation and the
    reading of the clock; the hook's [LastRun] has phase "Failed" and that
    reading as completion time; [execHookCore] returns the creation error,
    wrapped, with [shutdownNoOp], which does nothing; no later hook is
    built. *)
Theorem execHookCore_create_failure :
  forall rl hooks hookEvent ns ws timeout ssa s res s' tr,
    let cb := action.engineCallbacks rt cfg rl ws timeout in
    let sorted := sortedHooks (action.heap s) hooks in
    action.execHookCore rt cfg hooks hookEvent ns ws timeout ssa cb s = (res, s', tr) ->
    forall resources opts createErr,
      In (EvCreate resources opts (Some createErr)) tr ->
      exists i h pre resources' opts' now,
        nth_error sorted i = Some h
        /\ tr = pre ++ [EvCreate resources' opts' (Some createErr); EvNow now]
        /\ ri.LastRunPhase h (action.heap s') = "Failed"
        /\ ri.LastRunCompletedAt h (action.heap s') = now
        /\ res = Ok (action.shutdownNoOp,
                     Some (wrapError
                             ("warning: Hook " ++ hookEvent ++ " "
                                ++ ri.Path h (action.heap s) ++ " failed: "
                                ++ Error createErr) createErr))
        /\ (forall s2 : action.State W,
              action.shutdownNoOp (ResourceList := ResourceList) (Waiter := Waiter)
                (PodList := PodList) s2 = (Ok None, s2, []))
        /\ action.buildResults tr = builtOk (action.heap s) (firstn (S i) sorted)
        /\ action.waitResults tr = repeat None i.
Proof.
  intros rl hooks hookEvent ns ws timeout ssa s res s' tr cb sorted H resources opts
         createErr Hin.
  apply In_createResults in Hin.
  eapply execHookCore_cases in H; [| apply engineCallbacks_quiet].
  fold sorted in H.
  destruct H as (FF & [(_ & _ & Hc & _) | (k & h & st & Hk & Hres & Hb & Hc & Hw & Hst)]).
  - rewrite Hc in Hin. now apply not_In_map_None in Hin.
  - rewrite Hc in Hin. apply in_app_or in Hin.
    destruct Hin as [Hin | Hin]; [now apply not_In_map_None in Hin |].
    destruct st as [e | e | e | e | e]; simpl in Hin;
      try contradiction; try (destruct Hin as [E | []]; discriminate).
    destruct Hin as [E | []]. inv E.
    cbn [stopShutdown stopError stopBuilds stopCreates stopWaits stopFacts] in *.
    destruct Hst as (pre & resources' & opts' & now & Htr & Hp & Hcompl).
    exists k, h, pre, resources', opts', now.
    rewrite Hb, Hw, app_nil_r, map_None_repeat, (firstn_length_nth _ _ Hk).
    repeat split; auto.
    + unfold Errorf_w. now rewrite !string_append_assoc.
    + now apply builtOk_snoc.
Qed.

Lemma waitResults_In (tr : list Ev) r :
  In r (action.waitResults tr) ->
  exists w resources timeout, In (EvWatchUntilReady w resources timeout r) tr.
Proof.
  intros Hin. apply in_flat_map in Hin. destruct Hin as (ev & Hev & Hr).
  destruct ev; simpl in Hr; try contradiction.
  destruct Hr as [<- | []]. eauto.
Qed.

Lemma oneFailure_same tr ev1 ev2 :
  oneFailure tr ->
  In ev1 tr -> hookCallFailed ev1 = true ->
  In ev2 tr -> hookCallFailed ev2 = true -> ev1 = ev2.
Proof.
  intros (pre & ev & post & -> & Hpre & _ & Hpost) H1 F1 H2 F2.
  assert (Hmid : forall x, In x (pre ++ ev :: post) -> hookCallFailed x = true -> x = ev).
  { intros x Hx Fx. rewrite Forall_forall in Hpre, Hpost.
    apply in_app_or in Hx. destruct Hx as [Hx | [<- | Hx]]; [| reflexivity |].
    - apply Hpre in Hx. unfold okCall in Hx. congruence.
    - apply Hpost in Hx. unfold okCall in Hx. congruence. }
  rewrite (Hmid ev1 H1 F1). symmetry. now apply Hmid.
Qed.

(** The text before the build error in the error returned: the build
    for creation names the hook event and the path, the build made to
    delete a stale instance before creation names the path only. *)
Definition buildFailureText (validate : bool) (hookEvent path : string) : string :=
  if validate
  then "unable to build kubernetes object for " ++ hookEvent ++ " hook " ++ path ++ ": "
  else "unable to build kubernetes object for deleting hook " ++ path ++ ": ".

(** C7. When a build of a hook's manifest fails, it is the build of some
    hook [i] of the run order and the last call of the run;
    [execHookCore] returns [shutdownNoOp] and an error that wraps the
    build error.  When the failing build is the one for creation, the
    text carries the hook event and the hook's path; when it is the one
    made to delete a stale instance before creation (the hook is due for
    deletion by "before-hook-creation" at that time), the text carries the
    path but not the event.  Nothing was created for that hook or any
    later one; the [LastRun] of every hook other than those that ran
    before hook [i] is what it was before the run, and so is the failing
    hook's when the hooks passed are distinct objects. *)
Theorem execHookCore_build_failure :
  forall rl hooks hookEvent ns ws timeout ssa s res s' tr,
    let cb := action.engineCallbacks rt cfg rl ws timeout in
    let sorted := sortedHooks (action.heap s) hooks in
    action.execHookCore rt cfg hooks hookEvent ns ws timeout ssa cb s = (res, s', tr) ->
    forall manifest validate buildErr,
      In (EvBuild manifest validate (inr buildErr)) tr ->
      exists i h pre,
        nth_error sorted i = Some h
        /\ ri.Manifest h (action.heap s) = manifest
        /\ tr = pre ++ [EvBuild manifest validate (inr buildErr)]
        /\ res = Ok (action.shutdownNoOp,
                     Some (wrapError
                             (buildFailureText validate hookEvent
                                (ri.Path h (action.heap s)) ++ Error buildErr)
                             buildErr))
        /\ action.buildResults tr
           = builtOk (action.heap s) (firstn i sorted)
               ++ (if validate then [(manifest, Some buildErr)] else [])
        /\ action.createResults tr = repeat None i
        /\ (validate = false ->
            exists m1, fixedFields (action.heap s) m1
                       /\ dueForDeletion m1 h "before-hook-creation")
        /\ (forall a, ~ In a (firstn i sorted) ->
                      sameLastRun (action.heap s) (action.heap s') a)
        /\ (NoDup hooks -> sameLastRun (action.heap s) (action.heap s') h).
Proof.
  intros rl hooks hookEvent ns ws timeout ssa s res s' tr cb sorted H manifest
         validate buildErr Hin.
  pose proof H as Hcalls. apply execHookCore_calls in Hcalls.
  destruct Hcalls as [(_ & Hok) | ((c & e0 & Herr) & Hone)].
  { exfalso. rewrite Forall_forall in Hok. apply Hok in Hin.
    unfold okCall in Hin. discriminate Hin. }
  assert (Hsame : forall ev, In ev tr -> hookCallFailed ev = true ->
                             ev = EvBuild manifest validate (inr buildErr)).
  { intros ev Hev Fev. eapply oneFailure_same; [exact Hone | | | |]; auto. }
  eapply execHookCore_cases in H; [| apply engineCallbacks_quiet].
  fold sorted in H.
  destruct H as (FF & [(Hres & _) | (k & h & st & Hk & Hres & Hb & Hc & Hw & Hst)]).
  { rewrite Herr in Hres. discriminate Hres. }
  assert (Hdistinct : forall Hlr : (forall a, ~ In a (firstn k sorted) ->
                                      sameLastRun (action.heap s) (action.heap s') a),
             NoDup hooks -> sameLastRun (action.heap s) (action.heap s') h).
  { intros Hlr ND. apply Hlr. apply NoDup_nth_not_earlier; [| exact Hk].
    eapply Permutation_NoDup; [apply Permutation_sym, SliceStable_perm | exact ND]. }
  destruct st as [e | e | e | e | e];
    cbn [stopShutdown stopError stopBuilds stopCreates stopWaits stopFacts] in *.
  - (* the build made for the deletion before creation *)
    destruct Hst as (Hlr & pre & t & s1 & s2 & -> & FF1 & Hrun).
    unfold cb in Hrun. rewrite engine_deleteByPolicy in Hrun.
    apply deleteHookByPolicyGeneric_deletion in Hrun.
    destruct Hrun as (r & Er & _ & Hd). inv Er.
    destruct (FF1 h) as (EP & EM & _).
    inversion Hd as [| | e1 Hdue | rs e1 errs Hdue | rs e1 Hdue | rs w e1 Hdue |]; subst;
      match goal with
      | Hs : forall ev, In ev (pre ++ ?l) -> _ |- _ =>
          let E := fresh "E" in
          assert (E : last l (EvNow 0%Z) = EvBuild manifest validate (inr buildErr))
            by (apply Hs; [apply in_or_app; right; cbn; auto 6 | reflexivity]);
          cbn in E; try discriminate E
      end.
    inv E. clear Hin Hsame Hd. rewrite EM in Hb, Hc |- *. exists k, h, pre.
    rewrite Hb, Hc, !app_nil_r, map_None_repeat, (firstn_length_nth _ _ Hk).
    split; [exact Hk |]. split; [reflexivity |]. split; [reflexivity |].
    split; [unfold Errorf_w, buildFailureText; rewrite EP; reflexivity |].
    split; [reflexivity |]. split; [reflexivity |].
    split; [intros _; now exists (action.heap s1) |].
    split; [exact Hlr | now apply Hdistinct].
  - (* the build for creation *)
    destruct Hst as (Hlr & pre & ->).
    assert (E : EvBuild (ri.Manifest h (action.heap s)) true (inr e)
                = EvBuild manifest validate (inr buildErr))
      by (apply Hsame; [apply in_or_app; right; now left | reflexivity]).
    inv E. exists k, h, pre.
    rewrite Hb, Hc, app_nil_r, map_None_repeat, (firstn_length_nth _ _ Hk).
    split; [exact Hk |]. split; [reflexivity |]. split; [reflexivity |].
    split; [unfold Errorf_w, buildFailureText; now rewrite !string_append_assoc |].
    split; [reflexivity |]. split; [reflexivity |].
    split; [discriminate |].
    split; [exact Hlr | now apply Hdistinct].
  - exfalso. destruct Hst as (pre & rs & opts & now & -> & _).
    assert (E : EvCreate rs opts (Some e) = EvBuild manifest validate (inr buildErr))
      by (apply Hsame; [apply in_or_app; right; now left | reflexivity]).
    discriminate E.
  - exfalso. destruct Hst as (pre & ->).
    assert (E : EvGetWaiter ws (inr e) = EvBuild manifest validate (inr buildErr))
      by (apply Hsame; [apply in_or_app; right; now left | reflexivity]).
    discriminate E.
  - exfalso.
    assert (Hin' : In (Some e) (action.waitResults tr))
      by (rewrite Hw; apply in_or_app; right; now left).
    apply waitResults_In in Hin'. destruct Hin' as (w & rs & t & Hin').
    assert (E : EvWatchUntilReady w rs t (Some e)
                = EvBuild manifest validate (inr buildErr))
      by (apply Hsame; [exact Hin' | reflexivity]).
    discriminate E.
Qed.


(* ===================================================================== *)
(** ** Deleting and logging, call by call *)
(* ===================================================================== *)

Definition succeeded (ev : Ev) : Prop := action.failedEvent ev = false.

(** X1. A hook that does not carry the policy asked for is left alone:
    [deleteHookByPolicyGeneric] returns nil, changes nothing and issues no
    call. *)
Theorem deleteHookByPolicyGeneric_without_policy :
  forall h policy ws timeout (s : action.State W),
    ri.HasDeletePolicy h policy (action.heap s) = false ->
    action.deleteHookByPolicyGeneric rt cfg h policy ws timeout s = (Ok None, s, []).
Proof.
  intros h policy ws timeout s Hno.
  unfold action.deleteHookByPolicyGeneric, bind, action.read. cbv beta iota.
  destruct (String.eqb _ _); [reflexivity |].
  cbv beta iota. rewrite Hno. reflexivity.
Qed.


(** The namespace the logs are read in, and the pods selected, by kind. *)
(** X3. [outputLogsByPolicyGeneric] makes no call and changes nothing when
    there is nothing to fetch: without the output policy it returns nil;
    with it, a hook whose kind is neither "Job" nor "Pod" returns nil when
    its manifest decodes, and any hook whose manifest does not decode gets
    the namespace error, whatever its kind. *)
Theorem outputLogsByPolicyGeneric_silent :
  forall h releaseNamespace policy (s : action.State W),
    let run := action.outputLogsByPolicyGeneric rt cfg h releaseNamespace policy s in
    let decoded := action.yaml_Unmarshal rt (ri.Manifest h (action.heap s)) tmpZero in
    (ri.HasOutputLogPolicy h policy (action.heap s) = false -> run = (Ok None, s, []))
    /\ (forall tmp,
          ri.HasOutputLogPolicy h policy (action.heap s) = true ->
          decoded = (tmp, None) ->
          logSelector (ri.Kind h (action.heap s)) (ri.Name h (action.heap s)) = None ->
          run = (Ok None, s, []))
    /\ (forall tmp err,
          ri.HasOutputLogPolicy h policy (action.heap s) = true ->
          decoded = (tmp, Some err) ->
          run = (Ok (Some (wrapError
                      ("unable to parse metadata.namespace from kubernetes manifest for output logs hook "
                         ++ ri.Path h (action.heap s) ++ ": " ++ Error err) err)),
                 s, [])).
Proof.
  intros h releaseNamespace policy s run decoded. subst run decoded.
  unfold action.outputLogsByPolicyGeneric, action.deriveNamespaceGeneric, bind,
    action.read, ret. cbv beta iota.
  split; [| split].
  - intros ->. reflexivity.
  - intros tmp Hhas Hdec Hsel. rewrite Hhas. cbn [negb]. cbv beta iota.
    rewrite Hdec. cbv beta iota.
    unfold logSelector in Hsel.
    destruct (String.eqb (Namespace (Metadata tmp)) ""); cbv beta iota;
      destruct (String.eqb (ri.Kind h (action.heap s)) "Job"); try discriminate;
      destruct (String.eqb (ri.Kind h (action.heap s)) "Pod"); try discriminate;
      reflexivity.
  - intros tmp err Hhas Hdec. rewrite Hhas. cbn [negb]. cbv beta iota.
    rewrite Hdec. cbv beta iota.
    unfold Errorf_w. now rewrite !string_append_assoc.
Qed.

(** X4. When [outputLogsByPolicyGeneric] does call the cluster, it lists
    the pods once, in the namespace decoded from the hook's manifest (the
    release's when none is declared), selected by label "job-name=<name>"
    for a Job and by field "metadata.name=<name>" for a Pod; a listing
    error is returned and no logs are output; otherwise the logs of the
    listed pods are output once, in the same namespace, and that call's
    result is returned.  No hook is changed. *)
Theorem outputLogsByPolicyGeneric_calls :
  forall h releaseNamespace policy (s s' : action.State W) res tr,
    action.outputLogsByPolicyGeneric rt cfg h releaseNamespace policy s = (res, s', tr) ->
    action.heap s' = action.heap s
    /\ (tr = []
        \/ exists tmp opts listed,
            action.yaml_Unmarshal rt (ri.Manifest h (action.heap s)) tmpZero = (tmp, None)
            /\ logSelector (ri.Kind h (action.heap s)) (ri.Name h (action.heap s))
               = Some opts
            /\ match listed with
               | inr e =>
                   tr = [EvGetPodList (logNamespace tmp releaseNamespace) opts (inr e)]
                   /\ res = Ok (Some e)
               | inl pods =>
                   exists r,
                     tr = [EvGetPodList (logNamespace tmp releaseNamespace) opts (inl pods);
                           EvOutputLogs pods (logNamespace tmp releaseNamespace) r]
                     /\ res = Ok r
               end).
Proof.
  intros h releaseNamespace policy s s' res tr H.
  unfold action.outputLogsByPolicyGeneric in H.
  step_pure H. case_on H; [inv H; auto |].
  match type of H with
  | bind ?m _ _ = _ => let Em := fresh "Em" in go_bind H Em
  end.
  2: { apply deriveNamespaceGeneric_quiet in Em.
       destruct Em as ((x & Hx) & _). discriminate. }
  rewrite deriveNamespaceGeneric_run in Em.
  destruct (action.yaml_Unmarshal rt _ tmpZero) as [tmp [err |]] eqn:Edec; inv Em.
  { inv H. auto. }
  cbv beta iota in H. step_pure H.
  unfold action.outputContainerLogsForListOptions, action.GetPodList,
    action.OutputContainerLogsForPodList in H.
  match type of H with
  | (if ?c then _ else _) _ = _ => destruct c eqn:EJ
  end.
  2: match type of H with
     | (if ?c then _ else _) _ = _ => destruct c eqn:EP
     end.
  3: { inv H. auto. }
  all: step_pure H; step_call H; case_on H.
  all: try (inv H; cbn [action.heap]; split; [reflexivity |]; right;
            eexists tmp, _, (inr _); unfold logSelector; rewrite ?EJ, ?EP;
            repeat split; reflexivity).
  all: unfold action.call in H;
    match type of H with
    | (match ?x with _ => _ end) = _ => destruct x eqn:?; inv H
    end;
    cbn [action.heap]; (split; [reflexivity |]); right;
    eexists tmp, _, (inl _); unfold logSelector; rewrite ?EJ, ?EP;
    split; [reflexivity | split; [reflexivity |]];
    eexists; split; reflexivity.
Qed.

(* ===================================================================== *)
(** ** The engine as a whole: what it never does *)
(* ===================================================================== *)

Lemma deleteEachByPolicy_quiet (cb : Callbacks) policy hs :
  quietCallbacks cb -> quiet (action.deleteEachByPolicy cb policy hs).
Proof.
  intros (_ & Hdel & _). induction hs as [| h0 rest IH]; cbn [action.deleteEachByPolicy].
  - apply quiet_ret.
  - apply quiet_bind; [apply Hdel | intros [e |]; [apply quiet_ret | exact IH]].
Qed.

Lemma logAndDeleteEach_quiet (cb : Callbacks) hs :
  quietCallbacks cb -> quiet (action.logAndDeleteEach cb hs).
Proof.
  intros (_ & Hdel & Hout). induction hs as [| h0 rest IH]; cbn [action.logAndDeleteEach].
  - apply quiet_ret.
  - apply quiet_bind; [apply Hout | intros errOut].
    apply quiet_bind; [destruct errOut; [apply quiet_log | apply quiet_ret] | intros _].
    apply quiet_bind; [apply Hdel | intros [e |]; [apply quiet_ret | exact IH]].
Qed.

Lemma failureShutdown_quiet (cb : Callbacks) hooks i h err :
  quietCallbacks cb -> i <= List.length hooks ->
  quiet (action.failureShutdown cb hooks i h err).
Proof.
  intros Hq Hi s res s' tr H. rewrite failureShutdown_refines in H by exact Hi.
  revert s res s' tr H. change (quiet (action.failureCleanupSpec cb h (firstn i hooks) err)).
  unfold action.failureCleanupSpec. pose proof Hq as (Hrec & Hdel & Hout).
  apply quiet_bind; [apply Hdel | intros errDeleting].
  apply quiet_bind; [destruct errDeleting; [apply quiet_log | apply quiet_ret] | intros _].
  apply quiet_bind; [apply deleteEachByPolicy_quiet; exact Hq |].
  intros [e |]; apply quiet_ret.
Qed.

Lemma successShutdown_quiet (cb : Callbacks) hooks :
  quietCallbacks cb -> quiet (action.successShutdown cb hooks).
Proof.
  intros Hq s res s' tr H. rewrite successShutdown_refines in H.
  revert s res s' tr H. change (quiet (action.successCleanupSpec cb hooks)).
  now apply logAndDeleteEach_quiet.
Qed.

Lemma stopShutdown_quiet (cb : Callbacks) hooks k h st :
  quietCallbacks cb -> k <= List.length hooks -> quiet (stopShutdown cb hooks k h st).
Proof.
  intros Hq Hk. destruct st; cbn [stopShutdown]; try apply quiet_ret.
  now apply failureShutdown_quiet.
Qed.

(** X5. The loop of [execHookCore] and the two cleanup closures index the
    sorted slice within range.  Given accessors over existing hooks and
    collaborator calls that return, [execHookCore] yields its pair, and
    the cleanup of that pair yields a result in whatever state it is run:
    neither [executingHooks[j]] for [j < i] nor the countdown from
    [len(executingHooks) - 1] leaves the slice.  The cleanup only deletes
    and logs: it changes no hook and builds nothing for creation, creates
    nothing and waits for no readiness. *)
Theorem execHookCore_indices_in_range :
  forall rl hooks hookEvent ns ws timeout ssa (s : action.State W),
    exists cleanup err s' tr,
      action.execHookCore rt cfg hooks hookEvent ns ws timeout ssa
        (action.engineCallbacks rt cfg rl ws timeout) s
      = (Ok (cleanup, err), s', tr)
      /\ forall s2 res2 s3 t3,
          cleanup s2 = (res2, s3, t3) ->
          (exists r, res2 = Ok r)
          /\ action.heap s3 = action.heap s2
          /\ action.buildResults t3 = [] /\ action.createResults t3 = []
          /\ action.waitResults t3 = [].
Proof.
  intros rl hooks hookEvent ns ws timeout ssa s.
  pose proof (engineCallbacks_quiet rl ws timeout) as Hq.
  destruct (action.execHookCore rt cfg hooks hookEvent ns ws timeout ssa
              (action.engineCallbacks rt cfg rl ws timeout) s) as [[res s'] tr] eqn:H.
  eapply execHookCore_cases in H; [| exact Hq].
  destruct H as (_ & [(-> & _) | (k & h & st & Hk & -> & _)]).
  - do 4 eexists. split; [reflexivity |]. now apply successShutdown_quiet.
  - do 4 eexists. split; [reflexivity |]. apply stopShutdown_quiet; [exact Hq |].
    assert (k < List.length (sortedHooks (action.heap s) hooks))
      by (apply nth_error_Some; congruence).
    lia.
Qed.

(** X6. The cleanup returned after a failed readiness wait reports an
    error every time it is run, in whatever state: it never returns nil. *)
Theorem execHookCore_wait_failure_cleanup_reports :
  forall rl hooks hookEvent ns ws timeout ssa (s s' : action.State W) res tr,
    action.execHookCore rt cfg hooks hookEvent ns ws timeout ssa
      (action.engineCallbacks rt cfg rl ws timeout) s
    = (res, s', tr) ->
    forall w resources t waitErr,
      In (EvWatchUntilReady w resources t (Some waitErr)) tr ->
      exists cleanup err,
        res = Ok (cleanup, Some err)
        /\ forall s2, exists e s3 t3, cleanup s2 = (Ok (Some e), s3, t3).
Proof.
  intros rl hooks hookEvent ns ws timeout ssa s s' res tr H w resources t
         waitErr Hin.
  pose proof (engineCallbacks_quiet rl ws timeout) as Hq.
  apply In_waitResults in Hin.
  eapply execHookCore_cases in H; [| exact Hq].
  destruct H as (_ & [(_ & _ & _ & Hw) | (k & h & st & Hk & Hres & _ & _ & Hw & _)]).
  { rewrite Hw in Hin. now apply not_In_map_None in Hin. }
  rewrite Hw in Hin. apply in_app_or in Hin.
  destruct Hin as [Hin | Hin]; [now apply not_In_map_None in Hin |].
  destruct st as [e | e | e | e | e]; simpl in Hin; try contradiction.
  subst res. do 2 eexists. split; [reflexivity |]. intros s2. cbn [stopShutdown].
  assert (Hk' : k <= List.length (sortedHooks (action.heap s) hooks)).
  { assert (k < List.length (sortedHooks (action.heap s) hooks))
      by (apply nth_error_Some; congruence). lia. }
  destruct (action.failureShutdown (action.engineCallbacks rt cfg rl ws timeout)
              (sortedHooks (action.heap s) hooks) k h e s2) as [[res2 s3] t3] eqn:Hrun.
  pose proof (failureShutdown_quiet _ _ _ Hq Hk' _ Hrun) as ((r & ->) & _).
  rewrite failureShutdown_refines in Hrun by exact Hk'.
  unfold action.failureCleanupSpec in Hrun.
  let Em := fresh "Em" in go_bind Hrun Em; clear Em.
  let Em := fresh "Em" in go_bind Hrun Em; clear Em.
  let Em := fresh "Em" in go_bind Hrun Em; clear Em.
  case_on Hrun; inv Hrun; eauto.
Qed.

Lemma Forall_removelast {A} (P : A -> Prop) (l : list A) :
  Forall P l -> Forall P (removelast l).
Proof.
  induction 1 as [| x xs Hx Hxs IH]; [constructor |].
  destruct xs; [constructor | cbn [removelast]]. constructor; assumption.
Qed.

Lemma Forall_builtOk m hs : Forall (fun x => snd x = @None error) (builtOk m hs).
Proof. unfold builtOk. apply Forall_forall. intros x Hx. apply in_map_iff in Hx.
       destruct Hx as (h & <- & _). reflexivity. Qed.

Lemma Forall_map_None {A B} (l : list A) :
  Forall (fun r => r = @None B) (map (fun _ => None) l).
Proof. apply Forall_forall. intros x Hx. apply in_map_iff in Hx.
       now destruct Hx as (h & <- & _). Qed.

Lemma Forall_removelast_app1 {A} (P : A -> Prop) (l tl : list A) :
  Forall P l -> List.length tl <= 1 -> Forall P (removelast (l ++ tl)).
Proof.
  intros Hl Htl. destruct tl as [| x [| y tl]]; [| | simpl in Htl; lia].
  - rewrite app_nil_r. now apply Forall_removelast.
  - now rewrite removelast_last.
Qed.

(** X7. [execHookCore] stops at the first failure.  In every run: no hook
    is created without having been built, none is waited for without
    having been created, and at most as many hooks are built as were
    passed; every build for creation, every creation and every readiness
    wait except possibly the last one made succeeded; and the error
    returned is nil exactly when the readiness wait of every hook passed
    succeeded. *)
Theorem execHookCore_stops_at_first_failure :
  forall rl hooks hookEvent ns ws timeout ssa (s s' : action.State W) res tr,
    action.execHookCore rt cfg hooks hookEvent ns ws timeout ssa
      (action.engineCallbacks rt cfg rl ws timeout) s
    = (res, s', tr) ->
    (List.length (action.waitResults tr) <= List.length (action.createResults tr)
     /\ List.length (action.createResults tr) <= List.length (action.buildResults tr)
     /\ List.length (action.buildResults tr) <= List.length hooks)
    /\ Forall (fun x => snd x = None) (removelast (action.buildResults tr))
    /\ Forall (fun r => r = None) (removelast (action.createResults tr))
    /\ Forall (fun r => r = None) (removelast (action.waitResults tr))
    /\ ((exists cleanup, res = Ok (cleanup, None))
        <-> action.waitResults tr = repeat None (List.length hooks)).
Proof.
  intros rl hooks hookEvent ns ws timeout ssa s s' res tr H.
  assert (Hlen : List.length (sortedHooks (action.heap s) hooks) = List.length hooks)
    by (apply Permutation_length, SliceStable_perm).
  eapply execHookCore_cases in H; [| apply engineCallbacks_quiet].
  destruct H as (_ & [(-> & Hb & Hc & Hw) | (k & h & st & Hk & -> & Hb & Hc & Hw & _)]).
  - rewrite Hb, Hc, Hw. unfold builtOk at 1 2. rewrite !length_map, Hlen.
    split; [lia |]. split; [apply Forall_removelast, Forall_builtOk |].
    split; [apply Forall_removelast, Forall_map_None |].
    split; [apply Forall_removelast, Forall_map_None |].
    split; [intros _; now rewrite map_None_repeat, Hlen | eauto].
  - assert (Hk' : k < List.length hooks)
      by (rewrite <- Hlen; apply nth_error_Some; congruence).
    pose proof (firstn_length_nth _ _ Hk) as Hfk.
    rewrite Hb, Hc, Hw. unfold builtOk at 1 2.
    rewrite !length_app, !length_map, Hfk.
    split; [destruct st; cbn; lia |].
    split; [apply Forall_removelast_app1;
            [apply Forall_builtOk | destruct st; cbn; lia] |].
    split; [apply Forall_removelast_app1;
            [apply Forall_map_None | destruct st; cbn; lia] |].
    split; [apply Forall_removelast_app1;
            [apply Forall_map_None | destruct st; cbn; lia] |].
    split.
    + intros (cleanup & E). inv E.
    + intros Hall. exfalso. rewrite map_None_repeat, Hfk in Hall.
      destruct st as [e | e | e | e | e]; cbn [stopWaits] in Hall;
        try (rewrite app_nil_r in Hall; apply (f_equal (@List.length _)) in Hall;
             rewrite !repeat_length in Hall; lia).
      assert (Hin : In (Some e) (repeat None (List.length hooks)))
        by (rewrite <- Hall; apply in_or_app; right; now left).
      apply repeat_spec in Hin. discriminate.
Qed.


(* ===================================================================== *)
(** ** The phase each hook is left in *)
(* ===================================================================== *)

(** The phase of a hook after a run, from the phase it had before and from
    what its creation and its readiness wait returned, if they were
    reached. *)
Definition phaseOf (before : string) (created waited : option (option error)) : string :=
  match created, waited with
  | None, _ => before
  | Some (Some _), _ => ri.HookPhaseFailed
  | Some None, None => ri.HookPhaseUnknown
  | Some None, Some (Some _) => ri.HookPhaseFailed
  | Some None, Some None => ri.HookPhaseSucceeded
  end.

Lemma execHookIteration_phase (cb : Callbacks) hooks hookEvent ws timeout ssa i h
      s res s' tr :
  quietCallbacks cb ->
  action.execHookIteration rt cfg hooks hookEvent ws timeout ssa cb i h s
  = (res, s', tr) ->
  ri.LastRunPhase h (action.heap s')
  = phaseOf (ri.LastRunPhase h (action.heap s))
            (nth_error (action.createResults tr) 0)
            (nth_error (action.waitResults tr) 0).
Proof.
  intros (Hrec & Hdel & Hout) H.
  unfold action.execHookIteration in H.
  step_pure H.
  step_quiet H (Hdel h ri.HookDeletePolicyBeforeCreation).
  case_on H.
  { inv H. heap_simpl. obs_simpl. apply SetDefaultDeletePolicy_lastRun. }
  step_pure H. step_call H.
  case_on H.
  2: { step_pure H. inv H. heap_simpl. obs_simpl. apply SetDefaultDeletePolicy_lastRun. }
  unfold action.SetLastRunStarted, action.SetLastRunPhase, action.SetLastRunCompleted in H.
  step_clock H.
  step_quiet H Hrec.
  step_pure H. step_call H.
  case_on H.
  { step_clock H. step_pure H. step_pure H. inv H. heap_simpl. obs_simpl.
    apply SetLastRunPhase_phase. }
  step_call H.
  case_on H.
  2: { inv H. heap_simpl. obs_simpl. apply SetLastRunPhase_phase. }
  step_call H. step_clock H.
  case_on H.
  { step_pure H.
    step_quiet H (Hout h ri.HookOutputPolicyFailed).
    step_match H; inv H; heap_simpl; obs_simpl; apply SetLastRunPhase_phase. }
  step_pure H. inv H. heap_simpl. obs_simpl. apply SetLastRunPhase_phase.
Qed.

Lemma execLoop_phase (cb : Callbacks) hooks hookEvent ws timeout ssa :
  quietCallbacks cb ->
  forall todo i s res s' tr,
    NoDup todo ->
    forRange i todo (action.execHookIteration rt cfg hooks hookEvent ws timeout ssa cb) s
    = (res, s', tr) ->
    (forall a, ~ In a todo -> sameLastRun (action.heap s) (action.heap s') a)
    /\ forall j a,
        nth_error todo j = Some a ->
        ri.LastRunPhase a (action.heap s')
        = phaseOf (ri.LastRunPhase a (action.heap s))
                  (nth_error (action.createResults tr) j)
                  (nth_error (action.waitResults tr) j).
Proof.
  intros Hq todo. induction todo as [| h0 rest IH]; intros i s res s' tr ND H.
  - inv H. split; [intros; apply sameLastRun_refl | intros [| j] a E; discriminate].
  - inversion ND as [| ? ? Hh0 NDrest]; subst.
    cbn [forRange] in H. apply bind_inv in H.
    destruct H as [(r & s1 & t1 & t2 & Em & H & ->) | (msg & Em & ->)].
    2: { eapply execHookIteration_cases in Em; [| exact Hq].
         destruct Em as (_ & _ & [(Hres & _) | (st & Hres & _)]); discriminate. }
    pose proof Em as Hph. eapply execHookIteration_phase in Hph; [| exact Hq].
    eapply execHookIteration_cases in Em; [| exact Hq].
    destruct Em as (_ & Hother & [(Hres & _ & Hc & Hw) | (st & Hres & _ & Hc & Hw & _)]).
    + inv Hres. destruct (IH _ _ _ _ _ NDrest H) as (Hout & Hin).
      split.
      * intros a Hn. eapply sameLastRun_trans.
        -- apply Hother. intros ->. apply Hn. now left.
        -- apply Hout. intros Hr. apply Hn. now right.
      * intros j a E. rewrite createResults_app, waitResults_app, Hc, Hw.
        destruct j as [| j]; cbn [nth_error app] in *.
        -- inv E. destruct (Hout a Hh0) as (-> & _). rewrite Hph.
           rewrite Hc, Hw. reflexivity.
        -- rewrite (Hin j a E).
           assert (NE : a <> h0)
             by (intros ->; apply Hh0; eapply nth_error_In; exact E).
           destruct (Hother a NE) as (-> & _). reflexivity.
    + inv Hres. inv H. rewrite !app_nil_r. split.
      * intros a Hn. apply Hother. intros ->. apply Hn. now left.
      * intros [| j] a E; cbn [nth_error] in *.
        -- inv E. exact Hph.
        -- assert (NE : a <> h0)
             by (intros ->; apply Hh0; eapply nth_error_In; exact E).
           destruct (Hother a NE) as (-> & _). rewrite Hc, Hw.
           destruct st, j; reflexivity.
Qed.

(** X9. After any run of [execHookCore] over distinct hooks, the phase of
    each hook tells how far it got: a hook whose creation was not reached
    keeps the phase it had; one whose creation failed is "Failed"; one
    created but never waited for (no waiter could be had) is "Unknown";
    one whose wait failed is "Failed"; one whose wait succeeded is
    "Succeeded".  A hook that was not passed keeps its whole [LastRun]. *)
Theorem execHookCore_phases :
  forall rl hooks hookEvent ns ws timeout ssa (s s' : action.State W) res tr,
    NoDup hooks ->
    action.execHookCore rt cfg hooks hookEvent ns ws timeout ssa
      (action.engineCallbacks rt cfg rl ws timeout) s
    = (res, s', tr) ->
    (forall j a,
        nth_error (sortedHooks (action.heap s) hooks) j = Some a ->
        ri.LastRunPhase a (action.heap s')
        = phaseOf (ri.LastRunPhase a (action.heap s))
                  (nth_error (action.createResults tr) j)
                  (nth_error (action.waitResults tr) j))
    /\ (forall a, ~ In a hooks -> sameLastRun (action.heap s) (action.heap s') a).
Proof.
  intros rl hooks hookEvent ns ws timeout ssa s s' res tr ND H.
  pose proof (engineCallbacks_quiet rl ws timeout) as Hq.
  assert (NDs : NoDup (sortedHooks (action.heap s) hooks))
    by (eapply Permutation_NoDup; [apply Permutation_sym, SliceStable_perm | exact ND]).
  unfold action.execHookCore in H.
  apply bind_inv in H.
  destruct H as [(m & s0 & t0 & t1 & Em & H & ->) | (msg & Em & ->)]; [| inv Em].
  inv Em. apply bind_inv in H. fold (sortedHooks (action.heap s0) hooks) in H.
  destruct H as [(r & s1 & t1' & t2 & Em & H & ->) | (msg & Em & ->)].
  - eapply execLoop_phase in Em; [| exact Hq | exact NDs]. destruct Em as (Hout & Hin).
    assert (E : s' = s1 /\ t2 = []) by (destruct r; now inv H).
    destruct E as (-> & ->). cbn [app]. rewrite app_nil_r. split; [exact Hin |].
    intros a Hn. apply Hout. intros Hs. apply Hn.
    eapply Permutation_in; [apply SliceStable_perm | exact Hs].
  - eapply execLoop_phase in Em; [| exact Hq | exact NDs]. destruct Em as (Hout & Hin).
    cbn [app]. split; [exact Hin |].
    intros a Hn. apply Hout. intros Hs. apply Hn.
    eapply Permutation_in; [apply SliceStable_perm | exact Hs].
Qed.

(* ===================================================================== *)
(** ** Selecting the hooks of an event, and [execHook] end to end *)
(* ===================================================================== *)

(** How often [hook] is listed in [events]. *)
Definition listed (events : list string) (hook : string) : nat :=
  count_occ string_dec events hook.

Lemma select_events (A : Type) (a : A) hook events :
  forall acc,
    fold_left (fun executingHooks e =>
                 if String.eqb e hook then executingHooks ++ [a] else executingHooks)
              events acc
    = acc ++ repeat a (listed events hook).
Proof.
  unfold listed. induction events as [| e rest IH]; intros acc; cbn [fold_left count_occ].
  - now rewrite app_nil_r.
  - rewrite IH. destruct (String.eqb_spec e hook) as [-> | NE];
      destruct (string_dec _ hook) as [E | NE']; try congruence.
    cbn [repeat]. now rewrite <- app_assoc.
Qed.

Lemma select_hooks (A : Type) (acc0 : list A) (hooks : list ptr)
      (events : ptr -> list string) (mk : ptr -> A) hook :
  fold_left
    (fun executingHooks h =>
       fold_left (fun executingHooks e =>
                    if String.eqb e hook then executingHooks ++ [mk h]
                    else executingHooks)
                 (events h) executingHooks)
    hooks acc0
  = acc0 ++ flat_map (fun h => repeat (mk h) (listed (events h) hook)) hooks.
Proof.
  revert acc0. induction hooks as [| h rest IH]; intros acc0; cbn [fold_left flat_map].
  - now rewrite app_nil_r.
  - rewrite IH, select_events. now rewrite <- app_assoc.
Qed.

Lemma listed_containsString events hook :
  containsString events hook = negb (Nat.eqb (listed events hook) 0).
Proof.
  unfold listed. induction events as [| e rest IH]; cbn [containsString count_occ];
    [reflexivity |].
  destruct (String.eqb_spec e hook) as [-> | NE];
    destruct (string_dec _ hook) as [E | NE']; try congruence; reflexivity.
Qed.

Lemma listed_NoDup events hook :
  NoDup events -> listed events hook = if containsString events hook then 1 else 0.
Proof.
  intros ND. rewrite listed_containsString. unfold listed.
  pose proof (proj1 (NoDup_count_occ string_dec events) ND hook) as Hle.
  destruct (count_occ string_dec events hook) as [| [| n]]; cbn; try reflexivity; lia.
Qed.

Lemma flat_map_select (A : Type) (mk : ptr -> A) (n : ptr -> nat) (has : ptr -> bool)
      (hooks : list ptr) :
  (forall h, In h hooks -> n h = if has h then 1 else 0) ->
  flat_map (fun h => repeat (mk h) (n h)) hooks = map mk (filter has hooks).
Proof.
  induction hooks as [| h rest IH]; intros Hn; cbn [flat_map filter map]; [reflexivity |].
  rewrite IH by (intros; apply Hn; now right).
  rewrite (Hn h (or_introl eq_refl)). now destruct (has h).
Qed.

(** X10. The hooks either entry point selects are, in the release's order,
    one accessor per listing of the event in each hook's event list.  When
    no hook lists an event twice, they are exactly the hooks for which
    [HasEvent] answers true, each once, in the release's order. *)
Theorem executingHooks_selection :
  (forall rl hook m,
      action.executingHooksV1 rl hook m
      = flat_map (fun h => repeat (ri.v1HookAccessor h)
                             (listed (v1release.Events (ri.v1hooks m h)) hook))
                 (v1release.Hooks rl)
      /\ ((forall h, In h (v1release.Hooks rl) ->
                     NoDup (v1release.Events (ri.v1hooks m h))) ->
          action.executingHooksV1 rl hook m
          = map ri.v1HookAccessor
              (filter (fun h => ri.HasEvent (ri.v1HookAccessor h) hook m)
                      (v1release.Hooks rl))))
  /\ (forall rl hook m,
      action.executingHooksV3 rl hook m
      = flat_map (fun h => repeat (ri.v2HookAccessor h)
                             (listed (v2release.Events (ri.v2hooks m h)) hook))
                 (v2release.Hooks rl)
      /\ ((forall h, In h (v2release.Hooks rl) ->
                     NoDup (v2release.Events (ri.v2hooks m h))) ->
          action.executingHooksV3 rl hook m
          = map ri.v2HookAccessor
              (filter (fun h => ri.HasEvent (ri.v2HookAccessor h) hook m)
                      (v2release.Hooks rl)))).
Proof.
  split; intros rl hook m.
  - assert (E : action.executingHooksV1 rl hook m
                = flat_map (fun h => repeat (ri.v1HookAccessor h)
                                       (listed (v1release.Events (ri.v1hooks m h)) hook))
                           (v1release.Hooks rl)).
    { unfold action.executingHooksV1.
      now rewrite (select_hooks [] (v1release.Hooks rl)
                     (fun h => v1release.Events (ri.v1hooks m h)) ri.v1HookAccessor hook). }
    split; [exact E |]. intros ND. rewrite E.
    apply flat_map_select. intros h Hin. cbn [ri.HasEvent].
    now apply listed_NoDup, ND.
  - assert (E : action.executingHooksV3 rl hook m
                = flat_map (fun h => repeat (ri.v2HookAccessor h)
                                       (listed (v2release.Events (ri.v2hooks m h)) hook))
                           (v2release.Hooks rl)).
    { unfold action.executingHooksV3.
      now rewrite (select_hooks [] (v2release.Hooks rl)
                     (fun h => v2release.Events (ri.v2hooks m h)) ri.v2HookAccessor hook). }
    split; [exact E |]. intros ND. rewrite E.
    apply flat_map_select. intros h Hin. cbn [ri.HasEvent].
    now apply listed_NoDup, ND.
Qed.

Lemma bind_read {A B} (f : ri.Heap -> A) (k : A -> Go B) s :
  bind (action.read f) k s = k (f (action.heap s)) s.
Proof. unfold bind, action.read. now destruct (k (f (action.heap s)) s) as [[r s2] t2]. Qed.

Lemma bind_same {A B} (m m' : Go A) (k : A -> Go B) s :
  m s = m' s -> bind m k s = bind m' k s.
Proof. intros E. unfold bind. now rewrite E. Qed.

Lemma no_listing_no_hooks (A : Type) (mk : ptr -> A) (events : ptr -> list string)
      hook (hooks : list ptr) :
  (forall h, In h hooks -> containsString (events h) hook = false) ->
  flat_map (fun h => repeat (mk h) (listed (events h) hook)) hooks = [].
Proof.
  induction hooks as [| h rest IH]; intros Hno; cbn [flat_map]; [reflexivity |].
  rewrite IH by (intros; apply Hno; now right).
  pose proof (Hno h (or_introl eq_refl)) as Hh.
  rewrite listed_containsString in Hh.
  destruct (listed (events h) hook); [reflexivity | discriminate].
Qed.

(** X11. An event no hook of the release is bound to is a no-op for both
    entry points and for [execHook] / [execHookV3]: nil is returned, no
    call is made, nothing changes, and the cleanup handed back does
    nothing. *)
Theorem execHook_without_hooks :
  (forall rl hook ws timeout ssa (s : action.State W),
      (forall h, In h (v1release.Hooks rl) ->
                 ri.HasEvent (ri.v1HookAccessor h) hook (action.heap s) = false) ->
      action.execHook rt cfg rl hook ws timeout ssa s = (Ok None, s, [])
      /\ exists cleanup,
          action.execHookWithDelayedShutdown rt cfg rl hook ws timeout ssa s
          = (Ok (cleanup, None), s, [])
          /\ forall s2, cleanup s2 = (Ok None, s2, []))
  /\ (forall rl hook ws timeout ssa (s : action.State W),
      (forall h, In h (v2release.Hooks rl) ->
                 ri.HasEvent (ri.v2HookAccessor h) hook (action.heap s) = false) ->
      action.execHookV3 rt cfg rl hook ws timeout ssa s = (Ok None, s, [])
      /\ exists cleanup,
          action.execHookWithDelayedShutdownV3 rt cfg rl hook ws timeout ssa s
          = (Ok (cleanup, None), s, [])
          /\ forall s2, cleanup s2 = (Ok None, s2, [])).
Proof.
  split; intros rl hook ws timeout ssa s Hno.
  - assert (Esel : action.executingHooksV1 rl hook (action.heap s) = []).
    { unfold action.executingHooksV1.
      rewrite (select_hooks [] (v1release.Hooks rl)
                 (fun h => v1release.Events (ri.v1hooks (action.heap s) h))
                 ri.v1HookAccessor hook).
      now apply no_listing_no_hooks. }
    assert (Erun : action.execHookWithDelayedShutdown rt cfg rl hook ws timeout ssa s
                   = (Ok (action.successShutdown
                            (action.engineCallbacks rt cfg (inl rl) ws timeout) [],
                          None), s, [])).
    { unfold action.execHookWithDelayedShutdown. rewrite bind_read, Esel. reflexivity. }
    split.
    + unfold action.execHook, bind. rewrite Erun. reflexivity.
    + eexists. split; [exact Erun | reflexivity].
  - assert (Esel : action.executingHooksV3 rl hook (action.heap s) = []).
    { unfold action.executingHooksV3.
      rewrite (select_hooks [] (v2release.Hooks rl)
                 (fun h => v2release.Events (ri.v2hooks (action.heap s) h))
                 ri.v2HookAccessor hook).
      now apply no_listing_no_hooks. }
    assert (Erun : action.execHookWithDelayedShutdownV3 rt cfg rl hook ws timeout ssa s
                   = (Ok (action.successShutdown
                            (action.engineCallbacks rt cfg (inr rl) ws timeout) [],
                          None), s, [])).
    { unfold action.execHookWithDelayedShutdownV3. rewrite bind_read, Esel. reflexivity. }
    split.
    + unfold action.execHookV3, bind. rewrite Erun. reflexivity.
    + eexists. split; [exact Erun | reflexivity].
Qed.

Lemma runShutdown_after_core rl hooks hookEvent ns ws timeout ssa (s : action.State W) :
  exists r s' tr,
    bind (action.execHookCore rt cfg hooks hookEvent ns ws timeout ssa
            (action.engineCallbacks rt cfg rl ws timeout))
         (fun r => action.runShutdown (Some (fst r)) (snd r)) s
    = (Ok r, s', tr)
    /\ (r = None ->
        action.buildResults tr = builtOk (action.heap s) (sortedHooks (action.heap s) hooks)
        /\ action.createResults tr = repeat None (List.length hooks)
        /\ action.waitResults tr = repeat None (List.length hooks)).
Proof.
  pose proof (engineCallbacks_quiet rl ws timeout) as Hq.
  assert (Hlen : List.length (sortedHooks (action.heap s) hooks) = List.length hooks)
    by (apply Permutation_length, SliceStable_perm).
  unfold bind at 1.
  destruct (action.execHookCore rt cfg hooks hookEvent ns ws timeout ssa
              (action.engineCallbacks rt cfg rl ws timeout) s) as [[res s1] t1] eqn:H.
  eapply execHookCore_cases in H; [| exact Hq].
  destruct H as (_ & [(-> & Hb & Hc & Hw) | (k & h & st & Hk & -> & _)]).
  - cbn [fst snd action.runShutdown].
    destruct (action.successShutdown _ _ s1) as [[res2 s2] t2] eqn:Hsd.
    assert (Hqs : quiet (action.successShutdown
                           (action.engineCallbacks rt cfg rl ws timeout)
                           (sortedHooks (action.heap s) hooks)))
      by (apply successShutdown_quiet; exact Hq).
    destruct (Hqs _ _ _ _ Hsd) as ((r & Er) & _ & Hb2 & Hc2 & Hw2). subst res2.
    do 3 eexists. split; [reflexivity |]. intros _.
    rewrite buildResults_app, createResults_app, waitResults_app.
    rewrite Hb, Hc, Hw, Hb2, Hc2, Hw2, !app_nil_r, !map_None_repeat, Hlen. auto.
  - cbn [fst snd action.runShutdown].
    assert (Hk' : k <= List.length (sortedHooks (action.heap s) hooks)).
    { assert (k < List.length (sortedHooks (action.heap s) hooks))
        by (apply nth_error_Some; congruence). lia. }
    unfold bind at 1.
    destruct (stopShutdown _ _ k h st s1) as [[res2 s2] t2] eqn:Hsd.
    assert (Hqs : quiet (stopShutdown (action.engineCallbacks rt cfg rl ws timeout)
                           (sortedHooks (action.heap s) hooks) k h st))
      by (apply stopShutdown_quiet; assumption).
    destruct (Hqs _ _ _ _ Hsd) as ((r & Er) & _). subst res2.
    destruct r as [e |]; cbn; do 3 eexists; (split; [reflexivity | discriminate]).
Qed.

(** X12. [execHook] and [execHookV3] return nil only when every hook
    selected for the event was built, created and awaited with success:
    whenever a build, a creation or a readiness wait failed, an error
    comes back, also when the cleanup that follows succeeds. *)
Theorem execHook_nil_means_all_ready :
  (forall rl hook ws timeout ssa (s s' : action.State W) tr,
      action.execHook rt cfg rl hook ws timeout ssa s = (Ok None, s', tr) ->
      let hooks := action.executingHooksV1 rl hook (action.heap s) in
      action.buildResults tr
      = builtOk (action.heap s) (sortedHooks (action.heap s) hooks)
      /\ action.createResults tr = repeat None (List.length hooks)
      /\ action.waitResults tr = repeat None (List.length hooks))
  /\ (forall rl hook ws timeout ssa (s s' : action.State W) tr,
      action.execHookV3 rt cfg rl hook ws timeout ssa s = (Ok None, s', tr) ->
      let hooks := action.executingHooksV3 rl hook (action.heap s) in
      action.buildResults tr
      = builtOk (action.heap s) (sortedHooks (action.heap s) hooks)
      /\ action.createResults tr = repeat None (List.length hooks)
      /\ action.waitResults tr = repeat None (List.length hooks)).
Proof.
  split; intros rl hook ws timeout ssa s s' tr H hooks.
  - destruct (runShutdown_after_core (inl rl) hooks hook (v1release.Namespace rl)
                ws timeout ssa s) as (r & s1 & tr1 & Hrun & Hnil).
    assert (E : action.execHook rt cfg rl hook ws timeout ssa s = (Ok r, s1, tr1)).
    { rewrite <- Hrun. unfold action.execHook. apply bind_same.
      rewrite execHookWithDelayedShutdown_core. apply bind_read. }
    rewrite E in H. inv H. now apply Hnil.
  - destruct (runShutdown_after_core (inr rl) hooks hook (v2release.Namespace rl)
                ws timeout ssa s) as (r & s1 & tr1 & Hrun & Hnil).
    assert (E : action.execHookV3 rt cfg rl hook ws timeout ssa s = (Ok r, s1, tr1)).
    { rewrite <- Hrun. unfold action.execHookV3. apply bind_same.
      rewrite execHookWithDelayedShutdownV3_core. apply bind_read. }
    rewrite E in H. inv H. now apply Hnil.
Qed.

(** *** The comparison of the sort *)

Lemma string_ltb_trans (a b c : string) :
  String.ltb a b = true -> String.ltb b c = true -> String.ltb a c = true.
Proof.
  unfold String.ltb. intros Hab Hbc.
  destruct (String.compare a b) eqn:Eab; try discriminate.
  destruct (String.compare b c) eqn:Ebc; try discriminate.
  apply String_as_OT.cmp_lt in Eab. apply String_as_OT.cmp_lt in Ebc.
  pose proof (String_as_OT.lt_trans _ _ _ Eab Ebc) as Hac.
  apply String_as_OT.cmp_lt in Hac. unfold String_as_OT.cmp in Hac.
  now rewrite Hac.
Qed.

Lemma string_ltb_total (a b : string) :
  String.ltb a b = false -> String.ltb b a = false -> a = b.
Proof.
  unfold String.ltb. rewrite (String.compare_antisym b a).
  destruct (String.compare a b) eqn:E; simpl; try discriminate.
  intros _ _. now apply String_as_OT.cmp_eq.
Qed.

Lemma hookLess_same_key m a b :
  action.hookLess m a b = false /\ action.hookLess m b a = false
  <-> ri.Weight a m = ri.Weight b m /\ ri.Name a m = ri.Name b m.
Proof.
  unfold action.hookLess. split.
  - intros [Hab Hba].
    destruct (Z.eqb_spec (ri.Weight a m) (ri.Weight b m)) as [E | NE].
    + rewrite E, Z.eqb_refl in Hba. split; [exact E |].
      now apply string_ltb_total.
    + destruct (Z.eqb_spec (ri.Weight b m) (ri.Weight a m)) as [E' | _]; [congruence |].
      rewrite Z.ltb_ge in Hab, Hba. lia.
  - intros [EW EN]. rewrite EW, EN, Z.eqb_refl. split; apply string_ltb_irrefl.
Qed.

(** X13. The comparison [execHookCore] hands to [sort.SliceStable] is a
    strict weak order on the hooks as they are when the sort runs: no hook
    is before itself, before is transitive, and two hooks are unordered
    exactly when they agree on weight and on name. *)
Theorem hookLess_strict_weak_order :
  forall m : ri.Heap,
    (forall a, action.hookLess m a a = false)
    /\ (forall a b c, action.hookLess m a b = true -> action.hookLess m b c = true ->
                      action.hookLess m a c = true)
    /\ (forall a b, action.hookLess m a b = false /\ action.hookLess m b a = false
                    <-> ri.Weight a m = ri.Weight b m /\ ri.Name a m = ri.Name b m).
Proof.
  intros m. split; [| split].
  - intros a. unfold action.hookLess. rewrite Z.eqb_refl. apply string_ltb_irrefl.
  - intros a b c. unfold action.hookLess.
    destruct (Z.eqb_spec (ri.Weight a m) (ri.Weight b m)) as [Eab | Nab];
      destruct (Z.eqb_spec (ri.Weight b m) (ri.Weight c m)) as [Ebc | Nbc];
      destruct (Z.eqb_spec (ri.Weight a m) (ri.Weight c m)) as [Eac | Nac];
      rewrite ?Z.ltb_lt; try lia.
    apply string_ltb_trans.
  - intros a b. apply hookLess_same_key.
Qed.

(** X14. [hookByWeight.Less] is the comparison of [execHookCore] on the
    hooks the slice points to, whenever both indices are inside the slice
    and neither pointer is nil; it panics exactly when an index is outside
    the slice or the pointer at one of them is nil. *)
Theorem hookByWeight_Less_is_hookLess :
  forall (x : action.hookByWeight) (i j : nat) (m : ri.Heap),
    (forall xi xj, nth_error x i = Some (Some xi) -> nth_error x j = Some (Some xj) ->
        action.hookByWeight_Less x i j m
        = Ok (action.hookLess m (ri.v1HookAccessor xi) (ri.v1HookAccessor xj)))
    /\ ((exists msg, action.hookByWeight_Less x i j m = Panic msg)
        <-> List.length x <= i \/ List.length x <= j
            \/ nth_error x i = Some None \/ nth_error x j = Some None).
Proof.
  intros x i j m.
  unfold action.hookByWeight_Less, action.hookByWeight_at, action.hookLess. split.
  - intros xi xj Ei Ej. rewrite Ei, Ej. reflexivity.
  - destruct (nth_error x i) as [[xi |] |] eqn:Ei.
    + assert (Hi : i < List.length x) by (apply nth_error_Some; congruence).
      destruct (nth_error x j) as [[xj |] |] eqn:Ej.
      * assert (Hj : j < List.length x) by (apply nth_error_Some; congruence).
        split; [intros [msg Hm]; discriminate |].
        intros [H | [H | [H | H]]]; [lia | lia | discriminate | discriminate].
      * split; [intros _; now right; right; right | intros _; eauto].
      * apply nth_error_None in Ej. split; [intros _; now right; left | intros _; eauto].
    + split; [intros _; now right; right; left | intros _; eauto].
    + apply nth_error_None in Ei. split; [intros _; now left | intros _; eauto].
Qed.

(** *** The run order is a function of the keys *)

Lemma sorted_perm_unique (R : ri.HookAccessor -> ri.HookAccessor -> Prop)
      (l1 : list ri.HookAccessor) :
  forall l2,
    (forall a b, In a l1 -> In b l1 -> R a b -> R b a -> a = b) ->
    StronglySorted R l1 -> StronglySorted R l2 -> Permutation l1 l2 -> l1 = l2.
Proof.
  induction l1 as [| x xs IH]; intros l2 Hanti S1 S2 HP.
  - apply Permutation_nil in HP. now subst.
  - destruct l2 as [| y ys]; [apply Permutation_sym, Permutation_nil in HP; discriminate |].
    apply StronglySorted_inv in S1. destruct S1 as [S1 F1].
    apply StronglySorted_inv in S2. destruct S2 as [S2 F2].
    assert (Exy : x = y).
    { assert (Hx : In x (y :: ys)) by (eapply Permutation_in; [exact HP | now left]).
      assert (Hy : In y (x :: xs))
        by (eapply Permutation_in; [apply Permutation_sym; exact HP | now left]).
      destruct Hx as [E | Hx]; [now symmetry |].
      destruct Hy as [E | Hy]; [now symmetry |].
      rewrite Forall_forall in F1, F2.
      apply Hanti; [now left | | now apply F1 | now apply F2].
      eapply Permutation_in; [apply Permutation_sym; exact HP | now left]. }
    subst y. f_equal. apply IH; try assumption.
    + intros a b Ha Hb. apply Hanti; now right.
    + eapply Permutation_cons_inv. exact HP.
Qed.

Lemma hookLe_antisym m a b :
  hookLe m a b -> hookLe m b a ->
  ri.Weight a m = ri.Weight b m /\ ri.Name a m = ri.Name b m.
Proof.
  intros Hab Hba. apply hookLess_same_key.
  split; [apply (proj2 (hookLess_notAfter m b a)) | apply (proj2 (hookLess_notAfter m a b))];
    assumption.
Qed.

Lemma sortedHooks_perm m hooks hooks' :
  Permutation hooks hooks' ->
  (forall a b, In a hooks -> In b hooks ->
     ri.Weight a m = ri.Weight b m -> ri.Name a m = ri.Name b m -> a = b) ->
  sortedHooks m hooks = sortedHooks m hooks'.
Proof.
  intros HP Hkey. unfold sortedHooks.
  apply (sorted_perm_unique (R := hookLe m)).
  - intros a b Ha Hb Hab Hba.
    destruct (hookLe_antisym Hab Hba) as [EW EN].
    apply Hkey; try assumption.
    + eapply Permutation_in; [apply SliceStable_perm | exact Ha].
    + eapply Permutation_in; [apply SliceStable_perm | exact Hb].
  - apply sortedHooks_StronglySorted.
  - apply sortedHooks_StronglySorted.
  - eapply Permutation_trans; [apply SliceStable_perm |].
    eapply Permutation_trans; [exact HP |].
    apply Permutation_sym, SliceStable_perm.
Qed.

(** X15. When no two of the hooks passed share both weight and name, the
    order in which they are passed is irrelevant: [execHookCore] on any
    rearrangement of the slice makes the same calls, leaves the same state
    and returns the same error and the same cleanup. *)
Theorem execHookCore_order_of_input_irrelevant :
  forall (cb : Callbacks) hooks hooks' hookEvent ns ws timeout ssa (s : action.State W),
    Permutation hooks hooks' ->
    (forall a b, In a hooks -> In b hooks ->
       ri.Weight a (action.heap s) = ri.Weight b (action.heap s) ->
       ri.Name a (action.heap s) = ri.Name b (action.heap s) -> a = b) ->
    action.execHookCore rt cfg hooks hookEvent ns ws timeout ssa cb s
    = action.execHookCore rt cfg hooks' hookEvent ns ws timeout ssa cb s.
Proof.
  intros cb hooks hooks' hookEvent ns ws timeout ssa s HP Hkey.
  pose proof (@sortedHooks_perm (action.heap s) hooks hooks' HP Hkey) as E.
  unfold sortedHooks in E.
  unfold action.execHookCore. rewrite !bind_read. cbv zeta. now rewrite E.
Qed.

End EngineFacts.

(* ===================================================================== *)
(** ** The engine on the scripted cluster *)
(* ===================================================================== *)

(** [execHookCore] on [hooks] from [s], with the callbacks of the first
    entry point. *)
Local Abbreviation run hooks s :=
  (action.execHookCore fake.rt fake.cfg hooks "pre-install" "default" "watcher" 300%Z
     true (action.engineCallbacks fake.rt fake.cfg (inl fake.release) "watcher" 300%Z) s).

Lemma triple_eta {A B C} (r : A * B * C) : r = (fst (fst r), snd (fst r), snd r).
Proof. now destruct r as [[a b] c]. Qed.

Ltac in_list := vm_compute; repeat (first [left; reflexivity | right]).

Lemma execHookCore_wait_failure_cleanup_witness :
  let s := fake.start [fake.hookB; fake.hookNeverReady; fake.hookC] [] in
  let r := run fake.three s in
  let cb := action.engineCallbacks fake.rt fake.cfg (inl fake.release) "watcher" 300%Z in
  let sorted := sortedHooks (action.heap s) fake.three in
  let waitErr := errorString "timed out waiting for the condition" in
  In (EvWatchUntilReady tt "never ready" 300%Z (Some waitErr)) (snd r)
  /\ (exists i h cleanup,
        nth_error sorted i = Some h
        /\ fst (fst r) = Ok (cleanup, Some waitErr)
        /\ action.waitResults (snd r) = repeat None i ++ [Some waitErr]
        /\ action.buildResults (snd r) = builtOk (action.heap s) (firstn (S i) sorted)
        /\ action.createResults (snd r) = repeat None (S i)
        /\ (forall s2,
              cleanup s2 = action.failureCleanupSpec cb h (firstn i sorted) waitErr s2)
        /\ (forall s2 res2 s3 t3,
              cleanup s2 = (res2, s3, t3) ->
              action.heap s3 = action.heap s2
              /\ exists r2,
                  res2 = Ok r2
                  /\ failureCleanupCalls fake.rt (action.heap s2) "watcher" 300%Z h
                       (firstn i sorted) waitErr t3 r2))
  /\ match fst (fst r) with
     | Ok (cleanup, _) =>
         fst (fst (cleanup (snd (fst r)))) = Ok (Some waitErr)
         /\ snd (cleanup (snd (fst r)))
            = [EvBuild "never ready" false (inl "never ready");
               EvDelete "never ready" "Background" [];
               EvGetWaiter "watcher" (inl tt);
               EvWaitForDelete tt "never ready" 300%Z None;
               EvBuild "job a" false (inl "job a");
               EvDelete "job a" "Background" [];
               EvGetWaiter "watcher" (inl tt);
               EvWaitForDelete tt "job a" 300%Z None]
     | Panic _ => False
     end.
Proof.
  intros s r cb sorted waitErr.
  assert (Hin : In (EvWatchUntilReady tt "never ready" 300%Z (Some waitErr)) (snd r))
    by in_list.
  split; [exact Hin | split].
  - exact (@execHookCore_wait_failure_cleanup _ _ _ _ fake.rt fake.cfg (inl fake.release)
             fake.three "pre-install" "default" "watcher" 300%Z true s
             (fst (fst r)) (snd (fst r)) (snd r) (triple_eta r)
             tt "never ready" 300%Z waitErr Hin).
  - vm_compute. split; reflexivity.
Defined.

Lemma execHookCore_success_cleanup_witness :
  let s := fake.start [fake.hookALogged; fake.hookBLogged; fake.hookCLogged] [] in
  let r := run fake.three s in
  let cb := action.engineCallbacks fake.rt fake.cfg (inl fake.release) "watcher" 300%Z in
  let sorted := sortedHooks (action.heap s) fake.three in
  let byJob name := {| kube.LabelSelector := "job-name=" ++ name; kube.FieldSelector := "" |} in
  action.waitResults (snd r) = repeat None (List.length fake.three)
  /\ (exists cleanup,
        fst (fst r) = Ok (cleanup, None)
        /\ action.buildResults (snd r) = builtOk (action.heap s) sorted
        /\ (forall s2, cleanup s2 = action.successCleanupSpec cb sorted s2)
        /\ (forall s2 res2 s3 t3,
              cleanup s2 = (res2, s3, t3) ->
              action.heap s3 = action.heap s2
              /\ exists r2,
                  res2 = Ok r2
                  /\ successWalk fake.rt (action.heap s2) "watcher" 300%Z "default"
                       (rev sorted) t3 r2))
  /\ match fst (fst r) with
     | Ok (cleanup, _) =>
         fst (fst (cleanup (snd (fst r)))) = Ok None
         /\ snd (cleanup (snd (fst r)))
            = [EvGetPodList "default" (byJob "c") (inl tt);
               EvOutputLogs tt "default" None;
               EvBuild "job c" false (inl "job c");
               EvDelete "job c" "Background" [];
               EvGetWaiter "watcher" (inl tt);
               EvWaitForDelete tt "job c" 300%Z None;
               EvGetPodList "default" (byJob "b") (inl tt);
               EvOutputLogs tt "default" None;
               EvBuild "job b" false (inl "job b");
               EvDelete "job b" "Background" [];
               EvGetWaiter "watcher" (inl tt);
               EvWaitForDelete tt "job b" 300%Z None;
               EvGetPodList "default" (byJob "a") (inl tt);
               EvOutputLogs tt "default" None;
               EvBuild "job a" false (inl "job a");
               EvDelete "job a" "Background" [];
               EvGetWaiter "watcher" (inl tt);
               EvWaitForDelete tt "job a" 300%Z None]
     | Panic _ => False
     end.
Proof.
  intros s r cb sorted byJob.
  assert (Hall : action.waitResults (snd r) = repeat None (List.length fake.three))
    by (vm_compute; reflexivity).
  split; [exact Hall | split].
  - exact (@execHookCore_success_cleanup _ _ _ _ fake.rt fake.cfg (inl fake.release)
             fake.three "pre-install" "default" "watcher" 300%Z true s
             (fst (fst r)) (snd (fst r)) (snd r) (triple_eta r) Hall).
  - vm_compute. split; reflexivity.
Defined.

Lemma execHookCore_create_failure_witness :
  let s := fake.start [fake.hookB; fake.hookRejected; fake.hookC] [] in
  let r := run fake.three s in
  let sorted := sortedHooks (action.heap s) fake.three in
  let createErr := errorString "admission denied" in
  In (EvCreate "rejected" (true, false) (Some createErr)) (snd r)
  /\ exists i h pre resources' opts' now,
      nth_error sorted i = Some h
      /\ snd r = pre ++ [EvCreate resources' opts' (Some createErr); EvNow now]
      /\ ri.LastRunPhase h (action.heap (snd (fst r))) = "Failed"
      /\ ri.LastRunCompletedAt h (action.heap (snd (fst r))) = now
      /\ fst (fst r)
         = Ok (action.shutdownNoOp,
               Some (wrapError
                       ("warning: Hook " ++ "pre-install" ++ " "
                          ++ ri.Path h (action.heap s) ++ " failed: "
                          ++ Error createErr) createErr))
      /\ (forall s2 : action.State nat,
            action.shutdownNoOp (ResourceList := string) (Waiter := unit)
              (PodList := unit) s2 = (Ok None, s2, []))
      /\ action.buildResults (snd r) = builtOk (action.heap s) (firstn (S i) sorted)
      /\ action.waitResults (snd r) = repeat None i.
Proof.
  intros s r sorted createErr.
  assert (Hin : In (EvCreate "rejected" (true, false) (Some createErr)) (snd r))
    by in_list.
  split; [exact Hin |].
  exact (@execHookCore_create_failure _ _ _ _ fake.rt fake.cfg (inl fake.release)
           fake.three "pre-install" "default" "watcher" 300%Z true s
           (fst (fst r)) (snd (fst r)) (snd r) (triple_eta r)
           "rejected" (true, false) createErr Hin).
Defined.

Lemma three_NoDup : NoDup fake.three.
Proof.
  unfold fake.three.
  repeat (constructor; [simpl; intuition discriminate |]). constructor.
Qed.

Lemma execHookCore_build_failure_witness :
  let s := fake.start [fake.hookB; fake.hookNotYaml; fake.hookC] [] in
  let r := run fake.three s in
  let s0 := fake.start [fake.hookB; fake.hookNotYamlDefault; fake.hookC] [] in
  let r0 := run fake.three s0 in
  let buildErr := errorString "yaml: did not find expected key" in
  NoDup fake.three
  /\ (In (EvBuild "not yaml" true (inr buildErr)) (snd r)
      /\ exists i h pre,
          nth_error (sortedHooks (action.heap s) fake.three) i = Some h
          /\ ri.Manifest h (action.heap s) = "not yaml"
          /\ snd r = pre ++ [EvBuild "not yaml" true (inr buildErr)]
          /\ fst (fst r)
             = Ok (action.shutdownNoOp,
                   Some (wrapError
                           (buildFailureText true "pre-install"
                              (ri.Path h (action.heap s)) ++ Error buildErr) buildErr))
          /\ action.buildResults (snd r)
             = builtOk (action.heap s) (firstn i (sortedHooks (action.heap s) fake.three))
                 ++ [("not yaml", Some buildErr)]
          /\ action.createResults (snd r) = repeat None i
          /\ sameLastRun (action.heap s) (action.heap (snd (fst r))) h)
  /\ (In (EvBuild "not yaml" false (inr buildErr)) (snd r0)
      /\ exists i h pre,
          nth_error (sortedHooks (action.heap s0) fake.three) i = Some h
          /\ ri.Manifest h (action.heap s0) = "not yaml"
          /\ snd r0 = pre ++ [EvBuild "not yaml" false (inr buildErr)]
          /\ fst (fst r0)
             = Ok (action.shutdownNoOp,
                   Some (wrapError
                           (buildFailureText false "pre-install"
                              (ri.Path h (action.heap s0)) ++ Error buildErr) buildErr))
          /\ action.buildResults (snd r0)
             = builtOk (action.heap s0) (firstn i (sortedHooks (action.heap s0) fake.three))
                 ++ []
          /\ action.createResults (snd r0) = repeat None i
          /\ (exists m1, fixedFields (action.heap s0) m1
                         /\ dueForDeletion m1 h "before-hook-creation")
          /\ sameLastRun (action.heap s0) (action.heap (snd (fst r0))) h).
Proof.
  intros s r s0 r0 buildErr.
  assert (Hin : In (EvBuild (ResourceList := string) (Waiter := unit) (PodList := unit)
                      "not yaml" true (inr buildErr)) (snd r))
    by in_list.
  assert (Hin0 : In (EvBuild (ResourceList := string) (Waiter := unit) (PodList := unit)
                       "not yaml" false (inr buildErr)) (snd r0))
    by in_list.
  split; [exact three_NoDup | split].
  - split; [exact Hin |].
    destruct (@execHookCore_build_failure _ _ _ _ fake.rt fake.cfg (inl fake.release)
                fake.three "pre-install" "default" "watcher" 300%Z true s
                (fst (fst r)) (snd (fst r)) (snd r) (triple_eta r)
                "not yaml" true buildErr Hin)
      as (i & h & pre & H1 & H2 & H3 & H4 & H5 & H6 & _ & _ & H7).
    exists i, h, pre. repeat split; auto; apply H7, three_NoDup.
  - split; [exact Hin0 |].
    destruct (@execHookCore_build_failure _ _ _ _ fake.rt fake.cfg (inl fake.release)
                fake.three "pre-install" "default" "watcher" 300%Z true s0
                (fst (fst r0)) (snd (fst r0)) (snd r0) (triple_eta r0)
                "not yaml" false buildErr Hin0)
      as (i & h & pre & H1 & H2 & H3 & H4 & H5 & H6 & H8 & _ & H7).
    exists i, h, pre.
    split; [exact H1 |]. split; [exact H2 |]. split; [exact H3 |].
    split; [exact H4 |]. split; [exact H5 |]. split; [exact H6 |].
    split; [exact (H8 eq_refl) | exact (H7 three_NoDup)].
Defined.

(** C7 as the specification states it fails on a hook that has no delete
    policy of its own: its manifest fails to build for the deletion before
    creation, and the error returned carries the path but not the hook
    event.  And when the same hook object is passed twice and its second
    build for creation fails, its [LastRun] is no longer what it was
    before the pass. *)
Lemma build_failure_for_deletion_omits_event :
  let s := fake.start [fake.hookB; fake.hookNotYamlDefault; fake.hookC] [] in
  let r := run fake.three s in
  let parseErr := errorString "yaml: did not find expected key" in
  let err :=
    wrapError
      "unable to build kubernetes object for deleting hook templates/b.yaml: yaml: did not find expected key"
      parseErr in
  let twice := [ri.v1HookAccessor 0; ri.v1HookAccessor 0] in
  let s1 := fake.start [fake.hookA] [] in
  let r1 :=
    action.execHookCore fake.rt fake.cfgFlaky twice "pre-install" "default" "watcher"
      300%Z true
      (action.engineCallbacks fake.rt fake.cfgFlaky (inl fake.releaseOne) "watcher" 300%Z)
      s1 in
  (In (EvBuild "not yaml" false (inr parseErr)) (snd r)
   /\ fst (fst r) = Ok (action.shutdownNoOp, Some err)
   /\ mentions "templates/b.yaml" (Error err) = true
   /\ mentions "pre-install" (Error err) = false)
  /\ (In (EvBuild "job b" true (inr (errorString "schema unavailable"))) (snd r1)
      /\ ri.LastRunPhase (ri.v1HookAccessor 0) (action.heap s1) = ""
      /\ ri.LastRunPhase (ri.v1HookAccessor 0) (action.heap (snd (fst r1))) = "Succeeded").
Proof.
  intros s r parseErr err twice s1 r1. split.
  - split; [in_list |]. vm_compute. repeat split.
  - split; [in_list |]. vm_compute. split; reflexivity.
Qed.


(* ===================================================================== *)
(** ** Selecting the hooks of an event *)
(* ===================================================================== *)

(** C10 fails on the code: a hook whose event list names the event twice is
    selected twice, by either entry point, and [execHookCore] then creates
    its resource twice. *)
Theorem duplicate_event_runs_hook_twice :
  let s := fake.start [fake.hookTwice] [fake.hookTwiceV2] in
  action.executingHooksV1 fake.releaseOne "pre-install" (action.heap s)
  = [ri.v1HookAccessor 0; ri.v1HookAccessor 0]
  /\ action.executingHooksV3 fake.releaseV2 "pre-install" (action.heap s)
     = [ri.v2HookAccessor 0; ri.v2HookAccessor 0]
  /\ action.createResults
       (snd (action.execHookWithDelayedShutdown fake.rt fake.cfg fake.releaseOne
               "pre-install" "watcher" 300%Z true s))
     = [None; None]
  /\ action.createResults
       (snd (action.execHookWithDelayedShutdownV3 fake.rt fake.cfg fake.releaseV2
               "pre-install" "watcher" 300%Z true s))
     = [None; None].
Proof. vm_compute. repeat split. Qed.

(* ===================================================================== *)
(** ** The scheduler: isolated nodes go last *)
(* ===================================================================== *)

Section SchedulerFacts.

Variable dag : sequencing.SubchartDAG.

Lemma peel_total fuel :
  forall placed remaining,
    List.length remaining <= fuel ->
    sequencing.peel dag fuel placed remaining <> None.
Proof.
  induction fuel as [| fuel IH]; intros placed remaining Hlen.
  - destruct remaining; [discriminate | simpl in Hlen; lia].
  - destruct remaining as [| x xs]; [discriminate |].
    cbn [sequencing.peel].
    pose proof (filter_length
                  (fun n => forallb (fun p => containsString placed p)
                                    (sequencing.predecessors dag n)) (x :: xs)) as Hsum.
    cbv beta in Hsum.
    destruct (filter _ (x :: xs)) as [| y ys] eqn:Etier; [discriminate |].
    cbv beta iota.
    match goal with
    | |- context [sequencing.peel dag fuel ?p ?r] =>
        specialize (IH p r);
        destruct (sequencing.peel dag fuel p r) as [[e | tiers] |]
    end; [discriminate | discriminate |].
    exfalso. apply IH; [| reflexivity]. cbn [List.length] in Hsum, Hlen. lia.
Qed.

Lemma peel_within fuel :
  forall placed remaining tiers,
    sequencing.peel dag fuel placed remaining = Some (inr tiers) ->
    forall tier n, In tier tiers -> In n tier -> In n remaining.
Proof.
  induction fuel as [| fuel IH]; intros placed remaining tiers H tier n Htier Hn.
  - destruct remaining; [| discriminate]. inv H. contradiction.
  - destruct remaining as [| x xs]; [inv H; contradiction |].
    cbn [sequencing.peel] in H.
    destruct (filter _ (x :: xs)) as [| y ys] eqn:Etier; [discriminate |].
    cbv beta iota in H.
    match type of H with
    | context [sequencing.peel dag fuel ?p ?r] =>
        destruct (sequencing.peel dag fuel p r) as [[e | rest] |] eqn:Erest
    end; try discriminate.
    inv H. destruct Htier as [<- | Htier].
    + rewrite <- Etier in Hn. apply filter_In in Hn. tauto.
    + specialize (IH _ _ _ Erest tier n Htier Hn).
      apply filter_In in IH. tauto.
Qed.

End SchedulerFacts.

(** C5. The documented graph gives the documented tiers; the scheduler
    always returns (tiers or a cycle error); and whenever it returns tiers,
    every isolated node is in the final tier, next to the owning chart's own
    resources, and in no earlier tier. *)
Theorem isolated_nodes_join_final_tier :
  sequencing.GetInstallationBatches
    (sequencing.buildHierarchicalDAG
       [ {| sequencing.Name := "nginx"; sequencing.DependsOn := [] |};
         {| sequencing.Name := "rabbitmq"; sequencing.DependsOn := [] |};
         {| sequencing.Name := "bar"; sequencing.DependsOn := ["nginx"; "rabbitmq"] |};
         {| sequencing.Name := "orphaned"; sequencing.DependsOn := [] |} ])
    "foo"
  = Some (inr [ [sequencing.Sub "nginx"; sequencing.Sub "rabbitmq"];
                [sequencing.Sub "bar"];
                [sequencing.Sub "orphaned"; sequencing.Own "foo"] ])
  /\ (forall dag owner, sequencing.GetInstallationBatches dag owner <> None)
  /\ (forall dag owner tiers n,
        sequencing.GetInstallationBatches dag owner = Some (inr tiers) ->
        In n (sequencing.nodes dag) ->
        sequencing.isolated dag n = true ->
        In (sequencing.Sub n) (last tiers [])
        /\ In (sequencing.Own owner) (last tiers [])
        /\ forall tier, In tier (removelast tiers) -> ~ In (sequencing.Sub n) tier).
Proof.
  split; [vm_compute; reflexivity | split].
  - intros dag owner. unfold sequencing.GetInstallationBatches.
    pose proof (@peel_total dag
                  (List.length (filter (fun n => negb (sequencing.isolated dag n))
                                       (sequencing.nodes dag)))
                  [] _ (le_n _)) as Htot.
    destruct (sequencing.peel dag _ [] _) as [[e | tiers] |]; cbn; congruence.
  - intros dag owner tiers n H Hn Hiso.
    unfold sequencing.GetInstallationBatches in H.
    destruct (sequencing.peel dag _ [] _) as [[e | peeled] |] eqn:Epeel; try discriminate.
    inv H. rewrite last_last, removelast_last. split; [| split].
    + apply in_or_app. left. apply in_map. apply filter_In. now split.
    + apply in_or_app. right. now left.
    + intros tier Htier Hin.
      apply in_map_iff in Htier. destruct Htier as (ptier & <- & Hptier).
      apply in_map_iff in Hin. destruct Hin as (n' & E & Hn').
      inv E.
      pose proof (@peel_within _ _ _ _ _ Epeel _ _ Hptier Hn') as Hconn.
      apply filter_In in Hconn. destruct Hconn as (_ & Hneg).
      rewrite Hiso in Hneg. discriminate.
Qed.

Lemma isolated_nodes_join_final_tier_witness :
  let dag :=
    sequencing.buildHierarchicalDAG
      [ {| sequencing.Name := "nginx"; sequencing.DependsOn := [] |};
        {| sequencing.Name := "rabbitmq"; sequencing.DependsOn := [] |};
        {| sequencing.Name := "bar"; sequencing.DependsOn := ["nginx"; "rabbitmq"] |};
        {| sequencing.Name := "orphaned"; sequencing.DependsOn := [] |} ] in
  let tiers := [ [sequencing.Sub "nginx"; sequencing.Sub "rabbitmq"];
                 [sequencing.Sub "bar"];
                 [sequencing.Sub "orphaned"; sequencing.Own "foo"] ] in
  sequencing.GetInstallationBatches dag "foo" = Some (inr tiers)
  /\ In "orphaned" (sequencing.nodes dag)
  /\ sequencing.isolated dag "orphaned" = true
  /\ In (sequencing.Sub "orphaned") (last tiers [])
  /\ In (sequencing.Own "foo") (last tiers [])
  /\ forall tier, In tier (removelast tiers) -> ~ In (sequencing.Sub "orphaned") tier.
Proof.
  intros dag tiers.
  assert (H : sequencing.GetInstallationBatches dag "foo" = Some (inr tiers))
    by (vm_compute; reflexivity).
  assert (Hn : In "orphaned" (sequencing.nodes dag)) by (vm_compute; tauto).
  assert (Hiso : sequencing.isolated dag "orphaned" = true) by (vm_compute; reflexivity).
  split; [exact H | split; [exact Hn | split; [exact Hiso |]]].
  exact (proj2 (proj2 isolated_nodes_join_final_tier) dag "foo" tiers "orphaned" H Hn Hiso).
Defined.

(* ===================================================================== *)
(** ** Further facts about the accessors and the dependency graph *)
(* ===================================================================== *)

Section AccessorQueries.

Lemma storeV1_other m p q h : q <> p -> ri.v1hooks (ri.storeV1 m p h) q = ri.v1hooks m q.
Proof. intros NE. simpl. destruct (Nat.eqb_spec q p); [contradiction | reflexivity]. Qed.

Lemma storeV2_other m p q h : q <> p -> ri.v2hooks (ri.storeV2 m p h) q = ri.v2hooks m q.
Proof. intros NE. simpl. destruct (Nat.eqb_spec q p); [contradiction | reflexivity]. Qed.

(** X16. What the queries answer once [SetDefaultDeletePolicy] ran on a
    hook: that hook has a delete policy exactly when it listed it before,
    or listed none and the policy is [before-hook-creation]; the events and
    the output-log policies of every hook, and the delete policies of every
    other hook, are answered as before. *)
Theorem HasDeletePolicy_after_default :
  forall (a b : ri.HookAccessor) (policy : string) (m : ri.Heap),
    ri.HasDeletePolicy a policy (ri.SetDefaultDeletePolicy a m)
    = match ri.DeletePolicies a m with
      | [] => String.eqb "before-hook-creation" policy
      | _ :: _ => ri.HasDeletePolicy a policy m
      end
    /\ ri.HasEvent b policy (ri.SetDefaultDeletePolicy a m) = ri.HasEvent b policy m
    /\ ri.HasOutputLogPolicy b policy (ri.SetDefaultDeletePolicy a m)
       = ri.HasOutputLogPolicy b policy m
    /\ (b <> a ->
        ri.HasDeletePolicy b policy (ri.SetDefaultDeletePolicy a m)
        = ri.HasDeletePolicy b policy m).
Proof.
  intros a b policy m. split; [| split; [| split]].
  - destruct a as [p | p]; unfold ri.HasDeletePolicy, ri.DeletePolicies, ri.SetDefaultDeletePolicy;
      cbv zeta.
    + destruct (v1release.DeletePolicies (ri.v1hooks m p)) eqn:E;
        cbn [List.length Nat.eqb]; [| now rewrite E].
      rewrite storeV1_same. cbn [v1release.DeletePolicies v1release.withDeletePolicies
                                  containsString].
      unfold v1release.HookBeforeHookCreation.
      now destruct (String.eqb "before-hook-creation" policy).
    + destruct (v2release.DeletePolicies (ri.v2hooks m p)) eqn:E;
        cbn [List.length Nat.eqb]; [| now rewrite E].
      rewrite storeV2_same. cbn [v2release.DeletePolicies v2release.withDeletePolicies
                                  containsString].
      unfold v2release.HookBeforeHookCreation.
      now destruct (String.eqb "before-hook-creation" policy).
  - unfold ri.SetDefaultDeletePolicy, ri.HasEvent. heap_cases a b.
  - unfold ri.SetDefaultDeletePolicy, ri.HasOutputLogPolicy. heap_cases a b.
  - intros NE. unfold ri.SetDefaultDeletePolicy, ri.HasDeletePolicy. heap_cases a b.
Qed.

(** X17. The three [LastRun] setters in the order [execHookCore] calls
    them: [SetLastRunStarted] replaces the whole record, so an earlier
    completion time and phase are gone (zero time, [Running]); the phase
    and the completion time set afterwards leave the start time, and the
    record ends as start, completion, phase, whatever it held before.
    No other hook's record is touched. *)
Theorem LastRun_setters_compose :
  forall (a b : ri.HookAccessor) (started completed : Time) (phase : string) (m : ri.Heap),
    let m1 := ri.SetLastRunStarted a started m in
    let m3 := ri.SetLastRunCompleted a completed (ri.SetLastRunPhase a phase m1) in
    (ri.LastRunStartedAt a m1 = started
     /\ ri.LastRunCompletedAt a m1 = 0%Z
     /\ ri.LastRunPhase a m1 = "Running")
    /\ (ri.LastRunStartedAt a m3 = started
        /\ ri.LastRunCompletedAt a m3 = completed
        /\ ri.LastRunPhase a m3 = phase)
    /\ (b <> a -> sameLastRun m m3 b).
Proof.
  intros a b started completed phase m m1 m3. subst m1 m3.
  split; [| split].
  - destruct a as [p | p]; simpl; rewrite Nat.eqb_refl; auto.
  - destruct a as [p | p]; simpl; rewrite !Nat.eqb_refl; simpl; auto.
  - intros NE.
    eapply sameLastRun_trans; [apply SetLastRunStarted_other; exact NE |].
    eapply sameLastRun_trans; [apply SetLastRunPhase_other; exact NE |].
    apply SetLastRunCompleted_other; exact NE.
Qed.

End AccessorQueries.

Section GraphFacts.

(** X18. The edges [buildHierarchicalDAG] adds: [dep] precedes [sub]
    exactly when [sub] is a direct subchart that names [dep] in its
    depends-on list and [dep] is itself a direct subchart.  So every edge
    joins two nodes of the graph, and a name that is no direct subchart
    adds no edge. *)
Theorem buildHierarchicalDAG_edges :
  forall (subcharts : list sequencing.Subchart) (dep sub : string),
    let dag := sequencing.buildHierarchicalDAG subcharts in
    (In (dep, sub) (sequencing.edges dag)
     <-> In dep (sequencing.nodes dag)
         /\ exists c, In c subcharts /\ sequencing.Name c = sub
                      /\ In dep (sequencing.DependsOn c))
    /\ (In (dep, sub) (sequencing.edges dag) ->
        In dep (sequencing.nodes dag) /\ In sub (sequencing.nodes dag)).
Proof.
  intros subcharts dep sub dag.
  assert (Hfind : forall n, sequencing.findSubchartByName subcharts n = true
                            <-> In n (sequencing.nodes dag)).
  { intros n. unfold sequencing.findSubchartByName. rewrite existsb_exists.
    subst dag. cbn [sequencing.nodes sequencing.buildHierarchicalDAG]. rewrite in_map_iff.
    split; intros (c & H1 & H2).
    - exists c. split; [now apply String.eqb_eq | exact H1].
    - exists c. split; [exact H2 | now apply String.eqb_eq]. }
  assert (Hiff : In (dep, sub) (sequencing.edges dag)
                 <-> In dep (sequencing.nodes dag)
                     /\ exists c, In c subcharts /\ sequencing.Name c = sub
                                  /\ In dep (sequencing.DependsOn c)).
  { subst dag. cbn [sequencing.edges sequencing.buildHierarchicalDAG].
    rewrite in_flat_map. split.
    - intros (c & Hc & Hin). apply in_flat_map in Hin. destruct Hin as (d & Hd & Hin).
      destruct (sequencing.findSubchartByName subcharts d) eqn:Ef; [| contradiction].
      destruct Hin as [E | []]. inversion E; subst d sub.
      split; [now apply Hfind | exists c; auto].
    - intros (Hdep & c & Hc & En & Hd). exists c. split; [exact Hc |].
      apply in_flat_map. exists dep. split; [exact Hd |].
      apply Hfind in Hdep. rewrite Hdep. left. now rewrite En. }
  split; [exact Hiff |].
  intros Hin. apply Hiff in Hin. destruct Hin as (Hdep & c & Hc & En & _).
  split; [exact Hdep |].
  subst dag. cbn [sequencing.nodes sequencing.buildHierarchicalDAG].
  apply in_map_iff. exists c. auto.
Qed.

End GraphFacts.

(* ===================================================================== *)
(** ** The further facts on the scripted cluster *)
(* ===================================================================== *)

Lemma deleteHookByPolicyGeneric_without_policy_witness :
  let s := fake.start [fake.hookA] [] in
  ri.HasDeletePolicy (ri.v1HookAccessor 0) "before-hook-creation" (action.heap s) = false
  /\ action.deleteHookByPolicyGeneric fake.rt fake.cfg (ri.v1HookAccessor 0)
       "before-hook-creation" "watcher" 300%Z s = (Ok None, s, []).
Proof.
  intros s.
  assert (K : ri.HasDeletePolicy (ri.v1HookAccessor 0) "before-hook-creation"
                (action.heap s) = false) by reflexivity.
  split; [exact K |].
  exact (@deleteHookByPolicyGeneric_without_policy _ _ _ _ fake.rt fake.cfg
           (ri.v1HookAccessor 0) "before-hook-creation" "watcher" 300%Z s K).
Defined.


Lemma outputLogsByPolicyGeneric_silent_witness :
  let s := fake.start [fake.hookA; fake.hookLoggedConfigMap; fake.hookLoggedBroken] [] in
  let decodeErr := errorString "yaml: did not find expected key" in
  action.outputLogsByPolicyGeneric fake.rt fake.cfg (ri.v1HookAccessor 0)
    "default" "hook-succeeded" s = (Ok None, s, [])
  /\ action.outputLogsByPolicyGeneric fake.rt fake.cfg (ri.v1HookAccessor 1)
       "default" "hook-succeeded" s = (Ok None, s, [])
  /\ action.outputLogsByPolicyGeneric fake.rt fake.cfg (ri.v1HookAccessor 2)
       "default" "hook-succeeded" s
     = (Ok (Some (wrapError
          ("unable to parse metadata.namespace from kubernetes manifest for output logs hook "
             ++ ri.Path (ri.v1HookAccessor 2) (action.heap s) ++ ": " ++ Error decodeErr)
          decodeErr)), s, []).
Proof.
  intros s decodeErr.
  split; [| split].
  - refine (proj1 (@outputLogsByPolicyGeneric_silent _ _ _ _ fake.rt fake.cfg
                     (ri.v1HookAccessor 0) "default" "hook-succeeded" s) _).
    reflexivity.
  - refine (proj1 (proj2 (@outputLogsByPolicyGeneric_silent _ _ _ _ fake.rt fake.cfg
                     (ri.v1HookAccessor 1) "default" "hook-succeeded" s)) tmpZero _ _ _);
      reflexivity.
  - refine (proj2 (proj2 (@outputLogsByPolicyGeneric_silent _ _ _ _ fake.rt fake.cfg
                     (ri.v1HookAccessor 2) "default" "hook-succeeded" s))
              tmpZero decodeErr _ _);
      reflexivity.
Defined.

Lemma outputLogsByPolicyGeneric_calls_witness :
  let s := fake.start [fake.hookLoggedJob] [] in
  let h := ri.v1HookAccessor 0 in
  let r := action.outputLogsByPolicyGeneric fake.rt fake.cfg h "default" "hook-succeeded" s in
  action.heap (snd (fst r)) = action.heap s
  /\ (snd r = []
      \/ exists tmp opts listed,
          action.yaml_Unmarshal fake.rt (ri.Manifest h (action.heap s)) tmpZero = (tmp, None)
          /\ logSelector (ri.Kind h (action.heap s)) (ri.Name h (action.heap s)) = Some opts
          /\ match listed with
             | inr e =>
                 snd r = [EvGetPodList (logNamespace tmp "default") opts (inr e)]
                 /\ fst (fst r) = Ok (Some e)
             | inl pods =>
                 exists res,
                   snd r = [EvGetPodList (logNamespace tmp "default") opts (inl pods);
                            EvOutputLogs pods (logNamespace tmp "default") res]
                   /\ fst (fst r) = Ok res
             end).
Proof.
  intros s h r.
  exact (@outputLogsByPolicyGeneric_calls _ _ _ _ fake.rt fake.cfg h "default"
           "hook-succeeded" s (snd (fst r)) (fst (fst r)) (snd r) (triple_eta r)).
Defined.

Lemma execHookCore_wait_failure_cleanup_reports_witness :
  let s := fake.start [fake.hookB; fake.hookNeverReady; fake.hookC] [] in
  let r := run fake.three s in
  let waitErr := errorString "timed out waiting for the condition" in
  In (EvWatchUntilReady tt "never ready" 300%Z (Some waitErr)) (snd r)
  /\ exists cleanup err,
      fst (fst r) = Ok (cleanup, Some err)
      /\ forall s2, exists e s3 t3, cleanup s2 = (Ok (Some e), s3, t3).
Proof.
  intros s r waitErr.
  assert (Hin : In (EvWatchUntilReady tt "never ready" 300%Z (Some waitErr)) (snd r))
    by in_list.
  split; [exact Hin |].
  exact (@execHookCore_wait_failure_cleanup_reports _ _ _ _ fake.rt fake.cfg
           (inl fake.release) fake.three "pre-install" "default" "watcher" 300%Z true s
           (snd (fst r)) (fst (fst r)) (snd r) (triple_eta r)
           tt "never ready" 300%Z waitErr Hin).
Defined.

Lemma execHookCore_stops_at_first_failure_witness :
  let s := fake.start [fake.hookB; fake.hookRejected; fake.hookC] [] in
  let r := run fake.three s in
  (List.length (action.waitResults (snd r)) <= List.length (action.createResults (snd r))
   /\ List.length (action.createResults (snd r)) <= List.length (action.buildResults (snd r))
   /\ List.length (action.buildResults (snd r)) <= List.length fake.three)
  /\ Forall (fun x => snd x = None) (removelast (action.buildResults (snd r)))
  /\ Forall (fun x => x = None) (removelast (action.createResults (snd r)))
  /\ Forall (fun x => x = None) (removelast (action.waitResults (snd r)))
  /\ ((exists cleanup, fst (fst r) = Ok (cleanup, None))
      <-> action.waitResults (snd r) = repeat None (List.length fake.three)).
Proof.
  intros s r.
  exact (@execHookCore_stops_at_first_failure _ _ _ _ fake.rt fake.cfg
           (inl fake.release) fake.three "pre-install" "default" "watcher" 300%Z true s
           (snd (fst r)) (fst (fst r)) (snd r) (triple_eta r)).
Defined.


Lemma execHookCore_phases_witness :
  let s := fake.start [fake.hookB; fake.hookNeverReady; fake.hookC] [] in
  let r := run fake.three s in
  NoDup fake.three
  /\ (forall j a,
        nth_error (sortedHooks (action.heap s) fake.three) j = Some a ->
        ri.LastRunPhase a (action.heap (snd (fst r)))
        = phaseOf (ri.LastRunPhase a (action.heap s))
                  (nth_error (action.createResults (snd r)) j)
                  (nth_error (action.waitResults (snd r)) j))
  /\ (forall a, ~ In a fake.three ->
                sameLastRun (action.heap s) (action.heap (snd (fst r))) a).
Proof.
  intros s r.
  split; [exact three_NoDup |].
  exact (@execHookCore_phases _ _ _ _ fake.rt fake.cfg
           (inl fake.release) fake.three "pre-install" "default" "watcher" 300%Z true s
           (snd (fst r)) (fst (fst r)) (snd r) three_NoDup (triple_eta r)).
Defined.

Lemma release_events_NoDup :
  forall h, In h (v1release.Hooks fake.release) ->
    NoDup (v1release.Events
             (ri.v1hooks (fake.heapOf [fake.hookA; fake.hookB; fake.hookC] []) h)).
Proof.
  intros h [<- | [<- | [<- | []]]];
    (constructor; [intros [] | constructor]).
Defined.

Lemma releaseV2_events_NoDup :
  forall h, In h (v2release.Hooks fake.releaseV2) ->
    NoDup (v2release.Events
             (ri.v2hooks (fake.heapOf [] [fake.hookV2 "a" "Job" 0 "job a" ["pre-install"] []])
                         h)).
Proof.
  intros h [<- | []]. constructor; [intros [] | constructor].
Defined.

Lemma executingHooks_selection_witness :
  let m := fake.heapOf [fake.hookA; fake.hookB; fake.hookC] [] in
  let m2 := fake.heapOf [] [fake.hookV2 "a" "Job" 0 "job a" ["pre-install"] []] in
  action.executingHooksV1 fake.release "pre-install" m
  = map ri.v1HookAccessor
      (filter (fun h => ri.HasEvent (ri.v1HookAccessor h) "pre-install" m)
              (v1release.Hooks fake.release))
  /\ action.executingHooksV3 fake.releaseV2 "pre-install" m2
     = map ri.v2HookAccessor
         (filter (fun h => ri.HasEvent (ri.v2HookAccessor h) "pre-install" m2)
                 (v2release.Hooks fake.releaseV2)).
Proof.
  intros m m2. split.
  - exact (proj2 (proj1 executingHooks_selection fake.release "pre-install" m)
             release_events_NoDup).
  - exact (proj2 (proj2 executingHooks_selection fake.releaseV2 "pre-install" m2)
             releaseV2_events_NoDup).
Defined.

Lemma release_no_post_delete :
  forall h, In h (v1release.Hooks fake.release) ->
    ri.HasEvent (ri.v1HookAccessor h) "post-delete"
      (action.heap (fake.start [fake.hookA; fake.hookB; fake.hookC] [])) = false.
Proof. intros h [<- | [<- | [<- | []]]]; reflexivity. Defined.

Lemma releaseV2_no_post_delete :
  forall h, In h (v2release.Hooks fake.releaseV2) ->
    ri.HasEvent (ri.v2HookAccessor h) "post-delete"
      (action.heap (fake.start [] [fake.hookV2 "a" "Job" 0 "job a" ["pre-install"] []]))
    = false.
Proof. intros h [<- | []]; reflexivity. Defined.

Lemma execHook_without_hooks_witness :
  let s := fake.start [fake.hookA; fake.hookB; fake.hookC] [] in
  let s2 := fake.start [] [fake.hookV2 "a" "Job" 0 "job a" ["pre-install"] []] in
  (action.execHook fake.rt fake.cfg fake.release "post-delete" "watcher" 300%Z true s
   = (Ok None, s, [])
   /\ exists cleanup,
       action.execHookWithDelayedShutdown fake.rt fake.cfg fake.release "post-delete"
         "watcher" 300%Z true s = (Ok (cleanup, None), s, [])
       /\ forall s3, cleanup s3 = (Ok None, s3, []))
  /\ (action.execHookV3 fake.rt fake.cfg fake.releaseV2 "post-delete" "watcher" 300%Z true s2
      = (Ok None, s2, [])
      /\ exists cleanup,
          action.execHookWithDelayedShutdownV3 fake.rt fake.cfg fake.releaseV2 "post-delete"
            "watcher" 300%Z true s2 = (Ok (cleanup, None), s2, [])
          /\ forall s3, cleanup s3 = (Ok None, s3, [])).
Proof.
  intros s s2. split.
  - exact (proj1 (@execHook_without_hooks _ _ _ _ fake.rt fake.cfg) fake.release
             "post-delete" "watcher" 300%Z true s release_no_post_delete).
  - exact (proj2 (@execHook_without_hooks _ _ _ _ fake.rt fake.cfg) fake.releaseV2
             "post-delete" "watcher" 300%Z true s2 releaseV2_no_post_delete).
Defined.

Lemma run_ok_eta {A B C} (r : Result A * B * C) (a : A) :
  fst (fst r) = Ok a -> r = (Ok a, snd (fst r), snd r).
Proof. destruct r as [[x b] c]. cbn. now intros ->. Defined.

Lemma execHook_nil_means_all_ready_witness :
  let s := fake.start [fake.hookA; fake.hookB; fake.hookC] [] in
  let r := action.execHook fake.rt fake.cfg fake.release "pre-install" "watcher" 300%Z
             true s in
  let hooks := action.executingHooksV1 fake.release "pre-install" (action.heap s) in
  let s2 := fake.start [] [fake.hookV2 "a" "Job" 0 "job a" ["pre-install"] []] in
  let r2 := action.execHookV3 fake.rt fake.cfg fake.releaseV2 "pre-install" "watcher" 300%Z
              true s2 in
  let hooks2 := action.executingHooksV3 fake.releaseV2 "pre-install" (action.heap s2) in
  (fst (fst r) = Ok None
   /\ action.buildResults (snd r)
      = builtOk (action.heap s) (sortedHooks (action.heap s) hooks)
   /\ action.createResults (snd r) = repeat None (List.length hooks)
   /\ action.waitResults (snd r) = repeat None (List.length hooks))
  /\ (fst (fst r2) = Ok None
      /\ action.buildResults (snd r2)
         = builtOk (action.heap s2) (sortedHooks (action.heap s2) hooks2)
      /\ action.createResults (snd r2) = repeat None (List.length hooks2)
      /\ action.waitResults (snd r2) = repeat None (List.length hooks2)).
Proof.
  intros s r hooks s2 r2 hooks2.
  assert (E : fst (fst r) = Ok None) by (vm_compute; reflexivity).
  assert (E2 : fst (fst r2) = Ok None) by (vm_compute; reflexivity).
  split.
  - split; [exact E |].
    exact (proj1 (@execHook_nil_means_all_ready _ _ _ _ fake.rt fake.cfg)
             fake.release "pre-install" "watcher" 300%Z true s
             (snd (fst r)) (snd r) (run_ok_eta r E)).
  - split; [exact E2 |].
    exact (proj2 (@execHook_nil_means_all_ready _ _ _ _ fake.rt fake.cfg)
             fake.releaseV2 "pre-install" "watcher" 300%Z true s2
             (snd (fst r2)) (snd r2) (run_ok_eta r2 E2)).
Defined.

Lemma hookLess_strict_weak_order_witness :
  let m := fake.heapOf [fake.hookA; fake.hookB; fake.hookC] [] in
  let a := ri.v1HookAccessor 1 in
  let b := ri.v1HookAccessor 0 in
  let c := ri.v1HookAccessor 2 in
  action.hookLess m a b = true /\ action.hookLess m b c = true
  /\ action.hookLess m a c = true.
Proof.
  intros m a b c.
  assert (Hab : action.hookLess m a b = true) by reflexivity.
  assert (Hbc : action.hookLess m b c = true) by reflexivity.
  split; [exact Hab | split; [exact Hbc |]].
  exact (proj1 (proj2 (hookLess_strict_weak_order m)) a b c Hab Hbc).
Defined.

Lemma hookByWeight_Less_is_hookLess_witness :
  let m := fake.heapOf [fake.hookA; fake.hookB; fake.hookC] [] in
  let x : action.hookByWeight := [Some 0; Some 1; None]%nat in
  action.hookByWeight_Less x 1 0 m
  = Ok (action.hookLess m (ri.v1HookAccessor 1) (ri.v1HookAccessor 0))
  /\ (exists msg, action.hookByWeight_Less x 0 3 m = Panic msg)
  /\ (exists msg, action.hookByWeight_Less x 0 2 m = Panic msg).
Proof.
  intros m x. split; [| split].
  - exact (proj1 (hookByWeight_Less_is_hookLess x 1 0 m) 1%nat 0%nat eq_refl eq_refl).
  - apply (proj2 (hookByWeight_Less_is_hookLess x 0 3 m)). right. left. simpl. lia.
  - apply (proj2 (hookByWeight_Less_is_hookLess x 0 2 m)). right. right. right.
    reflexivity.
Defined.

Lemma three_keys_distinct :
  let m := action.heap (fake.start [fake.hookA; fake.hookB; fake.hookC] []) in
  forall a b, In a fake.three -> In b fake.three ->
    ri.Weight a m = ri.Weight b m -> ri.Name a m = ri.Name b m -> a = b.
Proof.
  intros m a b [<- | [<- | [<- | []]]] [<- | [<- | [<- | []]]] HW HN;
    try reflexivity; vm_compute in HW, HN; discriminate.
Defined.

Lemma three_rotated :
  Permutation fake.three
    [ri.v1HookAccessor 2; ri.v1HookAccessor 0; ri.v1HookAccessor 1].
Proof.
  apply Permutation_sym.
  apply (Permutation_cons_app [ri.v1HookAccessor 0; ri.v1HookAccessor 1] []).
  apply Permutation_refl.
Defined.

Lemma execHookCore_order_of_input_irrelevant_witness :
  let s := fake.start [fake.hookA; fake.hookB; fake.hookC] [] in
  let rotated := [ri.v1HookAccessor 2; ri.v1HookAccessor 0; ri.v1HookAccessor 1] in
  Permutation fake.three rotated /\ run fake.three s = run rotated s.
Proof.
  intros s rotated. split; [exact three_rotated |].
  exact (@execHookCore_order_of_input_irrelevant _ _ _ _ fake.rt fake.cfg
           (action.engineCallbacks fake.rt fake.cfg (inl fake.release) "watcher" 300%Z)
           fake.three rotated "pre-install" "default" "watcher" 300%Z true s
           three_rotated three_keys_distinct).
Defined.

Lemma HasDeletePolicy_after_default_witness :
  let m := fake.heapOf [fake.hookTwice; fake.hookA] [] in
  let a := ri.v1HookAccessor 0 in
  let b := ri.v1HookAccessor 1 in
  b <> a
  /\ ri.HasDeletePolicy a "before-hook-creation" (ri.SetDefaultDeletePolicy a m) = true
  /\ ri.HasDeletePolicy b "before-hook-creation" (ri.SetDefaultDeletePolicy a m)
     = ri.HasDeletePolicy b "before-hook-creation" m.
Proof.
  intros m a b.
  assert (NE : b <> a) by discriminate.
  split; [exact NE | split].
  - exact (proj1 (HasDeletePolicy_after_default a b "before-hook-creation" m)).
  - exact (proj2 (proj2 (proj2 (HasDeletePolicy_after_default a b "before-hook-creation" m)))
             NE).
Defined.

Lemma LastRun_setters_compose_witness :
  let m := fake.heapOf [fake.hookA; fake.hookB] [] in
  let a := ri.v1HookAccessor 0 in
  let b := ri.v1HookAccessor 1 in
  let m3 := ri.SetLastRunCompleted a 9%Z
              (ri.SetLastRunPhase a "Succeeded" (ri.SetLastRunStarted a 5%Z m)) in
  b <> a
  /\ (ri.LastRunStartedAt a m3 = 5%Z /\ ri.LastRunCompletedAt a m3 = 9%Z
      /\ ri.LastRunPhase a m3 = "Succeeded")
  /\ sameLastRun m m3 b.
Proof.
  intros m a b m3.
  assert (NE : b <> a) by discriminate.
  split; [exact NE | split].
  - exact (proj1 (proj2 (LastRun_setters_compose a b 5%Z 9%Z "Succeeded" m))).
  - exact (proj2 (proj2 (LastRun_setters_compose a b 5%Z 9%Z "Succeeded" m)) NE).
Defined.

Lemma buildHierarchicalDAG_edges_witness :
  let subcharts :=
    [{| sequencing.Name := "db"; sequencing.DependsOn := [] |};
     {| sequencing.Name := "api"; sequencing.DependsOn := ["db"; "cache"] |}] in
  let dag := sequencing.buildHierarchicalDAG subcharts in
  In ("db", "api") (sequencing.edges dag)
  /\ In "db" (sequencing.nodes dag) /\ In "api" (sequencing.nodes dag).
Proof.
  intros subcharts dag.
  assert (Hin : In ("db", "api") (sequencing.edges dag)) by (left; reflexivity).
  split; [exact Hin |].
  exact (proj2 (buildHierarchicalDAG_edges subcharts "db" "api") Hin).
Defined.

Lemma execHookCore_indices_in_range_witness :
  let s := fake.start [fake.hookB; fake.hookNeverReady; fake.hookC] [] in
  exists cleanup err s' tr,
    run fake.three s = (Ok (cleanup, err), s', tr)
    /\ forall s2 res2 s3 t3,
        cleanup s2 = (res2, s3, t3) ->
        (exists r, res2 = Ok r)
        /\ action.heap s3 = action.heap s2
        /\ action.buildResults t3 = [] /\ action.createResults t3 = []
        /\ action.waitResults t3 = [].
Proof.
  intros s.
  exact (@execHookCore_indices_in_range _ _ _ _ fake.rt fake.cfg (inl fake.release)
           fake.three "pre-install" "default" "watcher" 300%Z true s).
Defined.
